(** * thequotes / cassette: packing and rigid-body step of [main.js]

    A shallow embedding of the placement engine ([createShapes], [placeMesh]),
    the seeded generator ([createRng]), the separating-axis test
    ([polygonPolygonSAT]) and the fixed-step simulation ([updatePhysics]) of
    [src/cassette/main.js], of the code around them (the buttons, the pointer
    handlers, the animation loop and the helpers defined beside the core),
    followed by the properties proved about them.

    Numbers.  The 32-bit integer arithmetic of [createRng] is modelled
    exactly over [Z] with the wrap-around written out.  Every other JavaScript
    Number is modelled by the real number it denotes: [Math.hypot],
    [Math.sqrt], [Math.cos], [Math.sin], [Math.exp] and [Math.PI] are the
    functions and the constant of the standard library of reals, so rounding
    is abstracted away.  The value [Infinity] only ever appears as the initial
    value of a running minimum; it is kept as a separate constructor. *)

From Stdlib Require Import String Ascii ZArith List Reals Lra Lia Bool.
From Stdlib Require Import Permutation Psatz Finite.
Import ListNotations.

Open Scope R_scope.

(* ------------------------------------------------------------------ *)
(** ** Comparisons of Numbers as booleans *)

Definition Rltb (a b : R) : bool := if Rlt_dec a b then true else false.
Definition Rleb (a b : R) : bool := if Rle_dec a b then true else false.
Definition Reqb (a b : R) : bool := if Req_dec_T a b then true else false.

Infix "<?" := Rltb (at level 70, no associativity) : R_scope.
Infix "<=?" := Rleb (at level 70, no associativity) : R_scope.
Infix "=?" := Reqb (at level 70, no associativity) : R_scope.
Notation "a >? b" := (Rltb b a) (at level 70, no associativity) : R_scope.
Notation "a >=? b" := (Rleb b a) (at level 70, no associativity) : R_scope.

(** A Number that may be [Infinity] (the start value of a running minimum). *)
Inductive ExtR : Type :=
| Fin (r : R)
| Infinity.

(** [a < e] for a finite [a]. *)
Definition lt_ext (a : R) (e : ExtR) : bool :=
  match e with
  | Fin r => a <? r
  | Infinity => true
  end.

(** [e1 < e2], both possibly infinite. *)
Definition ext_ltb (e1 e2 : ExtR) : bool :=
  match e1 with
  | Fin a => lt_ext a e2
  | Infinity => false
  end.

(** [Math.hypot(x, y)] and [Math.floor]. *)
Definition hypot (x y : R) : R := sqrt (x * x + y * y).
Definition floor (r : R) : Z := Int_part r.

(* ------------------------------------------------------------------ *)
(** ** The seeded generator: [createRng] (Mulberry32) *)

Module Rng.

Open Scope Z_scope.

(** ToInt32 and ToUint32 of an integer-valued Number. *)
Definition toInt32 (z : Z) : Z := (z + 2147483648) mod 4294967296 - 2147483648.
Definition toUint32 (z : Z) : Z := z mod 4294967296.

(** [Math.imul(a, b)], [a ^ b], [a | b], [a << n], [a >>> n]. *)
Definition imul (a b : Z) : Z := toInt32 (toInt32 a * toInt32 b).
Definition xor32 (a b : Z) : Z := toInt32 (Z.lxor (toInt32 a) (toInt32 b)).
Definition or32 (a b : Z) : Z := toInt32 (Z.lor (toInt32 a) (toInt32 b)).
Definition shl32 (a n : Z) : Z := toInt32 (Z.shiftl (toInt32 a) n).
Definition shru32 (a n : Z) : Z := Z.shiftr (toUint32 a) n.

Definition charCodeAt (c : ascii) : Z := Z.of_nat (nat_of_ascii c).

(** One iteration of the loop of [createRng]. *)
Definition hashStep (h : Z) (c : ascii) : Z :=
  let h1 := imul (xor32 h (charCodeAt c)) 3432918353 in
  or32 (shl32 h1 13) (shru32 h1 19).

(** The loop of [createRng] over the characters of the seed, first to last. *)
Definition hashChars (h : Z) (s : string) : Z :=
  fold_left hashStep (list_ascii_of_string s) h.

(** The captured variable [h] right after [createRng(seedStr)]. *)
Definition createRng (seedStr : string) : Z :=
  hashChars (xor32 1779033703 (Z.of_nat (String.length seedStr))) seedStr.

(** One call of the closure [mulberry32]: the 32-bit numerator of the
    returned Number, and the new value of [h]. *)
Definition mulberry32 (h : Z) : Z * Z :=
  let h0 := or32 h 0 in
  let h1 := or32 (h0 + 1831565813) 0 in
  let t0 := imul (xor32 h1 (shru32 h1 15)) (or32 1 h1) in
  let t1 := xor32 (t0 + imul (xor32 t0 (shru32 t0 7)) (or32 61 t0)) t0 in
  (toUint32 (xor32 t1 (shru32 t1 14)), h1).

End Rng.

(** The Number returned by one call of the generator, with the new state. *)
Definition rngNext (h : Z) : R * Z :=
  let '(n, h') := Rng.mulberry32 h in (IZR n / 4294967296, h').

(* ------------------------------------------------------------------ *)
(** ** Geometry kernel *)

Record Vec : Type := mkVec { vx : R; vy : R }.

Definition transformVerts (localVerts : list Vec) (posX posY rot : R) : list Vec :=
  let c := cos rot in
  let s := sin rot in
  map (fun v => mkVec (vx v * c - vy v * s + posX) (vx v * s + vy v * c + posY))
      localVerts.

(** The running [min]/[max] of [projectOntoAxis].  [None] is the state
    [{min: Infinity, max: -Infinity}] before the first vertex. *)
Definition projStep (axis : Vec) (acc : option (R * R)) (v : Vec) : option (R * R) :=
  let p := vx v * vx axis + vy v * vy axis in
  match acc with
  | None => Some (p, p)
  | Some (mn, mx) =>
      Some (if p <? mn then p else mn, if p >? mx then p else mx)
  end.

Definition projectOntoAxis (verts : list Vec) (axis : Vec) : option (R * R) :=
  fold_left (projStep axis) verts None.

(** [overlapIntervals]; [None] is [-Infinity], the value obtained as soon as
    one of the two intervals is the empty one. *)
Definition overlapIntervals (a b : option (R * R)) : option R :=
  match a, b with
  | Some (amin, amax), Some (bmin, bmax) => Some (Rmin amax bmax - Rmax amin bmin)
  | _, _ => None
  end.

(** The normalised normal of edge [i] of [verts1], or [None] when the edge
    has length zero (the [continue] of [checkAxes]). *)
Definition edgeAxis (verts1 : list Vec) (i : nat) : option Vec :=
  let j := ((i + 1) mod length verts1)%nat in
  let vi := nth i verts1 (mkVec 0 0) in
  let vj := nth j verts1 (mkVec 0 0) in
  let ex := vx vj - vx vi in
  let ey := vy vj - vy vi in
  let ax := - ey in
  let ay := ex in
  let len := hypot ax ay in
  if len =? 0 then None else Some (mkVec (ax / len) (ay / len)).

(** The closure variables [minOverlap] and [bestAxis] of
    [polygonPolygonSAT].  They are assigned together, so their state is
    either the initial [(Infinity, null)], here [None], or a pair. *)
Definition Best : Type := option (Vec * R).

Definition minOverlapOf (best : Best) : ExtR :=
  match best with
  | None => Infinity
  | Some (_, d) => Fin d
  end.

(** The body of the loop of [checkAxes] from index list [idxs] on; [None] is
    [return false], [Some best] is [return true] with the closure state. *)
Fixpoint checkAxesFrom (vertsA vertsB verts1 : list Vec) (idxs : list nat)
  (best : Best) : option Best :=
  match idxs with
  | [] => Some best
  | i :: rest =>
      match edgeAxis verts1 i with
      | None => checkAxesFrom vertsA vertsB verts1 rest best
      | Some axis =>
          match overlapIntervals (projectOntoAxis vertsA axis)
                                 (projectOntoAxis vertsB axis) with
          | None => None
          | Some o =>
              if o <=? 0 then None
              else checkAxesFrom vertsA vertsB verts1 rest
                     (if lt_ext o (minOverlapOf best) then Some (axis, o) else best)
          end
      end
  end.

Definition checkAxes (vertsA vertsB verts1 : list Vec) (best : Best) : option Best :=
  checkAxesFrom vertsA vertsB verts1 (seq 0 (length verts1)) best.

(** The result of [polygonPolygonSAT]: [None] is [null]; [Some None] is the
    object [{normal: null, depth: Infinity}] returned when no edge of either
    polygon has a non-zero length. *)
Definition polygonPolygonSAT (vertsA vertsB : list Vec) : option Best :=
  match checkAxes vertsA vertsB vertsA None with
  | None => None
  | Some best1 =>
      match checkAxes vertsA vertsB vertsB best1 with
      | None => None
      | Some best2 => Some best2
      end
  end.

(* ------------------------------------------------------------------ *)
(** ** Bodies and the global state of the page *)

Inductive ShapeType : Type := circle | rect | tri.

Definition isCircle (s : ShapeType) : bool :=
  match s with circle => true | _ => false end.

(** [s === 'rect' || s === 'tri' || s === 'circle'] *)
Definition spins (s : ShapeType) : bool :=
  match s with rect => true | tri => true | circle => true end.

(** A rigid body.  [posX], [posY] and [rotZ] are [mesh.position.x],
    [mesh.position.y] and [mesh.rotation.z]; [speedScale] is [None] while
    the property is still undefined; [isDragged] is [false] while it is
    undefined. *)
Record Body : Type := mkBody {
  id : Z;
  posX : R;
  posY : R;
  rotZ : R;
  localVerts : list Vec;
  boundingRadius : R;
  contactRadius : R;
  mass : R;
  invMass : R;
  velocity : Vec;
  angularVelocity : R;
  shapeType : ShapeType;
  colorIndex : nat;
  isMagnetAnchored : bool;
  isDragged : bool;
  speedScale : option R
}.

Definition setId (b : Body) (i : Z) : Body :=
  mkBody i (posX b) (posY b) (rotZ b) (localVerts b) (boundingRadius b)
    (contactRadius b) (mass b) (invMass b) (velocity b) (angularVelocity b)
    (shapeType b) (colorIndex b) (isMagnetAnchored b) (isDragged b) (speedScale b).

Definition setPos (b : Body) (x y : R) : Body :=
  mkBody (id b) x y (rotZ b) (localVerts b) (boundingRadius b)
    (contactRadius b) (mass b) (invMass b) (velocity b) (angularVelocity b)
    (shapeType b) (colorIndex b) (isMagnetAnchored b) (isDragged b) (speedScale b).

Definition setRot (b : Body) (r : R) : Body :=
  mkBody (id b) (posX b) (posY b) r (localVerts b) (boundingRadius b)
    (contactRadius b) (mass b) (invMass b) (velocity b) (angularVelocity b)
    (shapeType b) (colorIndex b) (isMagnetAnchored b) (isDragged b) (speedScale b).

Definition setVelocity (b : Body) (v : Vec) : Body :=
  mkBody (id b) (posX b) (posY b) (rotZ b) (localVerts b) (boundingRadius b)
    (contactRadius b) (mass b) (invMass b) v (angularVelocity b)
    (shapeType b) (colorIndex b) (isMagnetAnchored b) (isDragged b) (speedScale b).

Definition setAngularVelocity (b : Body) (w : R) : Body :=
  mkBody (id b) (posX b) (posY b) (rotZ b) (localVerts b) (boundingRadius b)
    (contactRadius b) (mass b) (invMass b) (velocity b) w
    (shapeType b) (colorIndex b) (isMagnetAnchored b) (isDragged b) (speedScale b).

Definition setColorIndex (b : Body) (c : nat) : Body :=
  mkBody (id b) (posX b) (posY b) (rotZ b) (localVerts b) (boundingRadius b)
    (contactRadius b) (mass b) (invMass b) (velocity b) (angularVelocity b)
    (shapeType b) c (isMagnetAnchored b) (isDragged b) (speedScale b).

Definition setMagnetAnchored (b : Body) (m : bool) : Body :=
  mkBody (id b) (posX b) (posY b) (rotZ b) (localVerts b) (boundingRadius b)
    (contactRadius b) (mass b) (invMass b) (velocity b) (angularVelocity b)
    (shapeType b) (colorIndex b) m (isDragged b) (speedScale b).

Definition setSpeedScale (b : Body) (s : R) : Body :=
  mkBody (id b) (posX b) (posY b) (rotZ b) (localVerts b) (boundingRadius b)
    (contactRadius b) (mass b) (invMass b) (velocity b) (angularVelocity b)
    (shapeType b) (colorIndex b) (isMagnetAnchored b) (isDragged b) (Some s).

(** The module-level variables of [main.js] that the core reads or writes.
    [sceneRef] records whether the variable holds a scene.  ([bodyById] is
    written by [registerBody] and cleared on rebuild, and never read.) *)
Record World : Type := mkWorld {
  bodies : list Body;
  physicsEnabled : bool;
  nextBodyId : Z;
  colorTransferEnabled : bool;
  worldBoundsX : R;
  worldBoundsY : R;
  sceneRef : bool
}.

Definition setBodies (w : World) (bs : list Body) : World :=
  mkWorld bs (physicsEnabled w) (nextBodyId w) (colorTransferEnabled w)
    (worldBoundsX w) (worldBoundsY w) (sceneRef w).

Definition setPhysicsEnabled (enabled : bool) (w : World) : World :=
  mkWorld (bodies w) enabled (nextBodyId w) (colorTransferEnabled w)
    (worldBoundsX w) (worldBoundsY w) (sceneRef w).

(** [registerBody] followed by the rest of [addBodyEntry]. *)
Definition addBodyEntry (body : Body) (w : World) : World :=
  let registered := setId body (nextBodyId w) in
  mkWorld (bodies w ++ [setMagnetAnchored registered false])
    (physicsEnabled w) (nextBodyId w + 1)%Z (colorTransferEnabled w)
    (worldBoundsX w) (worldBoundsY w) (sceneRef w).

Definition getWorldVertices (body : Body) : list Vec :=
  transformVerts (localVerts body) (posX body) (posY body) (rotZ body).

(* ------------------------------------------------------------------ *)
(** ** Placement engine: [placeMesh] *)

(** The arguments of one call of [placeMesh]; [meshRot] is
    [mesh.rotation.z] of the mesh handed in. *)
Record Shape : Type := mkShape {
  meshRot : R;
  shBoundingRadius : R;
  shLocalVerts : list Vec;
  shType : ShapeType;
  shContactRadiusArg : option R;
  shColorIndex : nat
}.

(** [contactRadius] after the defaulting at the top of [placeMesh]. *)
Definition shContactRadius (sh : Shape) : R :=
  match shContactRadiusArg sh with
  | Some r => r
  | None => shBoundingRadius sh
  end.

(** The object literal handed to [addBodyEntry], with [mesh.position] set
    to [(x, y)]. *)
Definition bodyAt (sh : Shape) (x y : R) : Body :=
  let m := shBoundingRadius sh * shBoundingRadius sh in
  mkBody 0 x y (meshRot sh) (shLocalVerts sh) (shBoundingRadius sh)
    (shContactRadius sh) m (1 / m) (mkVec 0 0) 0 (shType sh) (shColorIndex sh)
    false false None.

(** First shape: the bounds test at the origin. *)
Definition firstShapeOutside (w : World) (boundingRadius : R) : bool :=
  (0 - boundingRadius <? - worldBoundsX w)
  || (0 + boundingRadius >? worldBoundsX w)
  || (0 - boundingRadius <? - worldBoundsY w)
  || (0 + boundingRadius >? worldBoundsY w).

(** Third circle: the two points tangent to both circles, when the guards
    of the special case let the construction through. *)
Definition tangentCenters (a b : Body) (r3 : R) : list Vec :=
  let ax := posX a in
  let ay := posY a in
  let bx := posX b in
  let by_ := posY b in
  let r1 := contactRadius a in
  let r2 := contactRadius b in
  let dx := bx - ax in
  let dy := by_ - ay in
  let d := hypot dx dy in
  if d >? 1e-6 then
    let RA := r1 + r3 in
    let RB := r2 + r3 in
    if (d <=? RA + RB) && (d >=? Rabs (RA - RB)) then
      let ex := dx / d in
      let ey := dy / d in
      let aLen := (RA * RA - RB * RB + d * d) / (2 * d) in
      let h2 := RA * RA - aLen * aLen in
      if h2 >=? 0 then
        let h := sqrt h2 in
        let x0 := ax + ex * aLen in
        let y0 := ay + ey * aLen in
        [ mkVec (x0 - ey * h) (y0 + ex * h); mkVec (x0 + ey * h) (y0 - ex * h) ]
      else []
    else []
  else [].

(** The two tests of the loop over [candidatesCenters]: [true] when the
    candidate is kept. *)
Definition tangentCenterOk (w : World) (a b : Body) (r3 : R) (c : Vec) : bool :=
  let marginLocal := 0.001 in
  let r1 := contactRadius a in
  let r2 := contactRadius b in
  let eps1 := (r1 + r3) * 0.04 in
  let eps2 := (r2 + r3) * 0.04 in
  if (vx c - r3 <? - worldBoundsX w + marginLocal)
     || (vx c + r3 >? worldBoundsX w - marginLocal)
     || (vy c - r3 <? - worldBoundsY w + marginLocal)
     || (vy c + r3 >? worldBoundsY w - marginLocal)
  then false
  else
    let d1 := hypot (vx c - posX a) (vy c - posY a) in
    let d2 := hypot (vx c - posX b) (vy c - posY b) in
    let ideal1 := r1 + r3 in
    let ideal2 := r2 + r3 in
    if (Rabs (d1 - ideal1) >? eps1) || (Rabs (d2 - ideal2) >? eps2) then false
    else true.

(** The special case of [placeMesh]: the centre the third circle is put at,
    or [None] when control falls through to the general logic. *)
Definition thirdCircleCenter (w : World) (sh : Shape) : option Vec :=
  match bodies w with
  | [a; b] =>
      if isCircle (shType sh) && isCircle (shapeType a) && isCircle (shapeType b)
      then find (tangentCenterOk w a b (shContactRadius sh))
                (tangentCenters a b (shContactRadius sh))
      else None
  | _ => None
  end.

(** *** [evaluateCandidate] *)

Record Candidate : Type := mkCandidate {
  cx : R;
  cy : R;
  contacts : nat;
  score : ExtR
}.

Definition outsideBounds (w : World) (margin : R) (v : Vec) : bool :=
  (vx v <? - worldBoundsX w + margin)
  || (vx v >? worldBoundsX w - margin)
  || (vy v <? - worldBoundsY w + margin)
  || (vy v >? worldBoundsY w - margin).

(** [result && result.depth > 0.002] *)
Definition tooDeep (result : option Best) : bool :=
  match result with
  | None => false
  | Some None => true
  | Some (Some (_, depth)) => depth >? 0.002
  end.

(** One iteration of the intersection loop: [true] when the candidate at
    [(x, y)] is rejected because of [body]. *)
Definition rejectsCandidate (sh : Shape) (candidateVerts : list Vec) (x y : R)
  (body : Body) : bool :=
  if isCircle (shType sh) && isCircle (shapeType body) then
    let dx := posX body - x in
    let dy := posY body - y in
    let d := hypot dx dy in
    let ideal := contactRadius body + shContactRadius sh in
    let eps := ideal * 0.03 in
    d <? ideal - eps
  else
    tooDeep (polygonPolygonSAT (getWorldVertices body) candidateVerts).

(** The running values [contacts], [minCenterDist], [minGap] of the second
    loop over [bodies]. *)
Definition contactStep (sh : Shape) (x y : R) (acc : nat * ExtR * ExtR) (body : Body)
  : nat * ExtR * ExtR :=
  let '(cnt, minCenterDist, minGap) := acc in
  let dx := posX body - x in
  let dy := posY body - y in
  let d := hypot dx dy in
  let minCenterDist' := if lt_ext d minCenterDist then Fin d else minCenterDist in
  let idealContact := contactRadius body + shContactRadius sh in
  let gapAbs := Rabs (d - idealContact) in
  let cnt' := if gapAbs <=? idealContact * 0.03 then S cnt else cnt in
  let minGap' := if lt_ext gapAbs minGap then Fin gapAbs else minGap in
  (cnt', minCenterDist', minGap').

(** [Math.abs(minGap - idealGap) + minCenterDist * 0.02] *)
Definition candidateScore (minGap minCenterDist : ExtR) : ExtR :=
  match minGap, minCenterDist with
  | Fin g, Fin c => Fin (Rabs (g - 0.0003) + c * 0.02)
  | _, _ => Infinity
  end.

Definition evaluateCandidate (w : World) (sh : Shape) (x y : R) : option Candidate :=
  let margin := 0.001 in
  let candidateVerts := transformVerts (shLocalVerts sh) x y (meshRot sh) in
  if existsb (outsideBounds w margin) candidateVerts then None
  else if existsb (rejectsCandidate sh candidateVerts x y) (bodies w) then None
  else
    let '(cnt, minCenterDist, minGap) :=
      fold_left (contactStep sh x y) (bodies w) (O, Infinity, Infinity) in
    Some (mkCandidate x y cnt (candidateScore minGap minCenterDist)).

Definition pushIf (c : option Candidate) : list Candidate :=
  match c with
  | Some p => [p]
  | None => []
  end.

(** *** Candidate generation *)

(** The pairs [(bodies[i], bodies[j])], [i < j], in the order of the two
    nested loops. *)
Fixpoint orderedPairs (l : list Body) : list (Body * Body) :=
  match l with
  | [] => []
  | a :: rest => map (fun b => (a, b)) rest ++ orderedPairs rest
  end.

(** Tier 1, the body of the inner loop: the candidates pushed for one pair. *)
Definition twoTangentFor (w : World) (sh : Shape) (ab : Body * Body) : list Candidate :=
  let a := fst ab in
  let b := snd ab in
  let ax := posX a in
  let ay := posY a in
  let bx := posX b in
  let by_ := posY b in
  let dx := bx - ax in
  let dy := by_ - ay in
  let d := hypot dx dy in
  if d =? 0 then []
  else
    let RA := contactRadius a + shContactRadius sh in
    let RB := contactRadius b + shContactRadius sh in
    if (d >? RA + RB) || (d <? Rabs (RA - RB)) then []
    else
      let ex := dx / d in
      let ey := dy / d in
      let aLen := (RA * RA - RB * RB + d * d) / (2 * d) in
      let h2 := RA * RA - aLen * aLen in
      if h2 <? 0 then []
      else
        let h := sqrt h2 in
        let x0 := ax + ex * aLen in
        let y0 := ay + ey * aLen in
        let rx := - ey * h in
        let ry := ex * h in
        pushIf (evaluateCandidate w sh (x0 + rx) (y0 + ry))
        ++ pushIf (evaluateCandidate w sh (x0 - rx) (y0 - ry)).

Definition twoTangent (w : World) (sh : Shape) : list Candidate :=
  if (2 <=? length (bodies w))%nat
  then flat_map (twoTangentFor w sh) (orderedPairs (bodies w))
  else [].

(** Tier 2: 96 samples on the circle around each body. *)
Definition oneTangentFor (w : World) (sh : Shape) (body : Body) : list Candidate :=
  let samplesPerBody := 96%nat in
  let centerX := posX body in
  let centerY := posY body in
  let R_ := contactRadius body + shContactRadius sh in
  flat_map
    (fun k =>
       let angle := (2 * PI * INR k) / INR samplesPerBody in
       pushIf (evaluateCandidate w sh (centerX + cos angle * R_) (centerY + sin angle * R_)))
    (seq 0 samplesPerBody).

Definition oneTangent (w : World) (sh : Shape) : list Candidate :=
  flat_map (oneTangentFor w sh) (bodies w).

(** The values taken by the variable of [for (v = lo; v <= hi; v += step)],
    for at most [fuel] iterations. *)
Fixpoint loopValues (fuel : nat) (v hi step : R) : list R :=
  match fuel with
  | O => []
  | S fuel' => if v <=? hi then v :: loopValues fuel' (v + step) hi step else []
  end.

(** A number of iterations after which such a loop has ended, when the step
    is positive. *)
Definition loopBound (lo hi step : R) : nat :=
  if lo <=? hi then S (Z.to_nat (floor ((hi - lo) / step))) else O.

Definition gridValues (lo hi step : R) : list R :=
  loopValues (loopBound lo hi step) lo hi step.

(** Tier 3: the grid scan. *)
Definition gridScan (w : World) (sh : Shape) : list Candidate :=
  let contactRadius := shContactRadius sh in
  let step := contactRadius * 0.6 in
  flat_map
    (fun y =>
       flat_map (fun x => pushIf (evaluateCandidate w sh x y))
         (gridValues (- worldBoundsX w + contactRadius) (worldBoundsX w - contactRadius) step))
    (gridValues (- worldBoundsY w + contactRadius) (worldBoundsY w - contactRadius) step).

(** The array [candidates] when the selection starts. *)
Definition candidatesOf (w : World) (sh : Shape) : list Candidate :=
  let c1 := twoTangent w sh in
  let c2 := match c1 with [] => oneTangent w sh | _ => c1 end in
  match c2 with [] => gridScan w sh | _ => c2 end.

(** *** Selection *)

Definition maxContactsOf (cs : list Candidate) : nat :=
  fold_left (fun m c => if (m <? contacts c)%nat then contacts c else m) cs O.

(** One iteration of a selection loop over candidates with at least
    [required] contacts; the state is [(bestCandidate, bestScore)]. *)
Definition selectStep (required : nat) (acc : option Candidate * ExtR) (c : Candidate)
  : option Candidate * ExtR :=
  if (contacts c <? required)%nat then acc
  else if ext_ltb (score c) (snd acc) then (Some c, score c)
  else acc.

Definition selectBest (w : World) (cs : list Candidate) : option Candidate :=
  let maxContacts := maxContactsOf cs in
  let requiredContacts :=
    if (2 <=? length (bodies w))%nat && (2 <=? maxContacts)%nat then 2%nat else 1%nat in
  let first := fold_left (selectStep requiredContacts) cs (None, Infinity) in
  match fst first with
  | Some c => Some c
  | None => fst (fold_left (selectStep 0) cs first)
  end.

(** *** [placeMesh] *)

Definition placeMesh (sh : Shape) (w : World) : bool * World :=
  match bodies w with
  | [] =>
      if firstShapeOutside w (shBoundingRadius sh) then (false, w)
      else (true, addBodyEntry (bodyAt sh 0 0) w)
  | _ :: _ =>
      match thirdCircleCenter w sh with
      | Some c => (true, addBodyEntry (bodyAt sh (vx c) (vy c)) w)
      | None =>
          match candidatesOf w sh with
          | [] => (false, w)
          | cs =>
              match selectBest w cs with
              | None => (false, w)
              | Some best => (true, addBodyEntry (bodyAt sh (cx best) (cy best)) w)
              end
          end
      end
  end.

(* ------------------------------------------------------------------ *)
(** ** Building a composition: [createShapes] *)

Inductive PresetKind : Type := solid | gradient.

(** The [kind] of each entry of [COLOR_PRESETS]; the colours themselves only
    reach the renderer. *)
Definition COLOR_PRESETS : list PresetKind :=
  [solid; gradient; gradient; solid; gradient; solid; gradient; gradient;
   gradient; gradient].

(** The local state of one run of [createShapes]: the state [h] of the
    generator it was given, the array [availablePresetIndices], and the
    global state. *)
Record Build : Type := mkBuild {
  rng : Z;
  availablePresetIndices : list nat;
  world : World
}.

Definition setWorld (st : Build) (w : World) : Build :=
  mkBuild (rng st) (availablePresetIndices st) w.

(** One call [rng()]. *)
Definition draw (st : Build) : R * Build :=
  let '(r, h') := rngNext (rng st) in
  (r, mkBuild h' (availablePresetIndices st) (world st)).

(** [randomColor]: three calls of the generator; the colour is not kept. *)
Definition randomColor (st : Build) : Build :=
  snd (draw (snd (draw (snd (draw st))))).

(** [list.splice(idx, 1)] *)
Definition spliceOut (idx : nat) (l : list nat) : list nat :=
  firstn idx l ++ skipn (S idx) l.

Definition takePresetIndex (st : Build) : nat * Build :=
  match availablePresetIndices st with
  | [] => (O, st)
  | avail =>
      let '(r, st1) := draw st in
      let idx := Z.to_nat (floor (r * INR (length avail))) in
      (nth idx avail O, mkBuild (rng st1) (spliceOut idx avail) (world st1))
  end.

(** The calls of the generator made by [makeMaterialFromPreset]: none for a
    solid or gradient preset, [randomColor] otherwise. *)
Definition makeMaterialFromPreset (preset : option PresetKind) (st : Build) : Build :=
  match preset with
  | Some solid => st
  | Some gradient => st
  | None => randomColor st
  end.

Definition placeIn (sh : Shape) (st : Build) : bool * Build :=
  let '(ok, w') := placeMesh sh (world st) in (ok, setWorld st w').

(** The polygon approximating a circle: 20 vertices. *)
Definition circleVerts (physicalRadius : R) : list Vec :=
  let segments := 20%nat in
  map (fun i =>
         let angle := (INR i / INR segments) * PI * 2 in
         mkVec (cos angle * physicalRadius) (sin angle * physicalRadius))
      (seq 0 segments).

Definition addCircle (radius : R) (st : Build) : Build :=
  let physicalRadius := radius * 1.0 in
  let '(presetIndex, st1) := takePresetIndex st in
  let st2 := makeMaterialFromPreset (nth_error COLOR_PRESETS presetIndex) st1 in
  let localVerts := circleVerts physicalRadius in
  let boundingRadius := physicalRadius in
  let contactRadius := boundingRadius in
  snd (placeIn (mkShape 0 boundingRadius localVerts circle (Some contactRadius) presetIndex) st2).

(** [boundingRadius] as computed for rectangles and triangles: the largest
    [Math.hypot(v.x, v.y)], starting from 0. *)
Definition maxRadius (verts : list Vec) : R :=
  fold_left (fun acc v => let r := hypot (vx v) (vy v) in if r >? acc then r else acc) verts 0.

(** The retry loop shared by [addRect] and [addTriangle]: each attempt draws
    a rotation and calls [placeMesh]; the loop stops at the first success. *)
Fixpoint tryRotations (attempts : nat) (mk : R -> Shape) (st : Build) : Build :=
  match attempts with
  | O => st
  | S n =>
      let '(r, st1) := draw st in
      let '(ok, st2) := placeIn (mk (r * PI * 2)) st1 in
      if ok then st2 else tryRotations n mk st2
  end.

Definition addRect (width height : R) (st : Build) : Build :=
  let physicalWidth := width * 1.0 in
  let physicalHeight := height * 1.0 in
  let '(presetIndex, st1) := takePresetIndex st in
  let st2 := makeMaterialFromPreset (nth_error COLOR_PRESETS presetIndex) st1 in
  let hw := physicalWidth * 0.5 in
  let hh := physicalHeight * 0.5 in
  let localVerts := [mkVec (- hw) (- hh); mkVec hw (- hh); mkVec hw hh; mkVec (- hw) hh] in
  let boundingRadius := maxRadius localVerts in
  let minHalfExtent := Rmin hw hh in
  let contactRadius := minHalfExtent * 0.7 in
  tryRotations 12
    (fun rot => mkShape rot boundingRadius localVerts rect (Some contactRadius) presetIndex)
    st2.

(** The calls of the generator made while [addTriangle] chooses its two
    colours: none for a gradient or solid preset, [randomColor] otherwise. *)
Definition triangleColors (preset : option PresetKind) (st : Build) : Build :=
  match preset with
  | Some gradient => st
  | Some solid => st
  | None => randomColor st
  end.

Definition addTriangle (size : R) (st : Build) : Build :=
  let physicalSize := size * 1.0 in
  let localVerts :=
    [mkVec 0 physicalSize;
     mkVec (- physicalSize * 0.866) (- physicalSize * 0.5);
     mkVec (physicalSize * 0.866) (- physicalSize * 0.5)] in
  let '(presetIndex, st1) := takePresetIndex st in
  let st2 := triangleColors (nth_error COLOR_PRESETS presetIndex) st1 in
  let boundingRadius := maxRadius localVerts in
  let contactRadius := boundingRadius * 0.6 in
  tryRotations 10
    (fun rot => mkShape rot boundingRadius localVerts tri (Some contactRadius) presetIndex)
    st2.

Definition addSquare (size : R) (st : Build) : Build := addRect size size st.

(** [randomVelocity(speedScale)], threading the state of the generator. *)
Definition randomVelocity (speedScale : R) (h : Z) : Vec * Z :=
  let '(r1, h1) := rngNext h in
  let angle := r1 * PI * 2 in
  let '(r2, h2) := rngNext h1 in
  let baseSpeed := (0.4 + r2 * 0.6) * 2 in
  let speed := baseSpeed * speedScale in
  (mkVec (cos angle * speed) (sin angle * speed), h2).

(** One iteration of the closing loop of [createShapes] over [bodies]; the
    state threaded through is the generator. *)
Definition kickBody (body : Body) (h : Z) : Body * Z :=
  let r := boundingRadius body in
  let sizeNorm := Rmax 0.3 r in
  let speedScale := 1.8 / (0.6 + sizeNorm) in
  let b1 := setSpeedScale body speedScale in
  let '(b2, h2) :=
    if (vx (velocity b1) =? 0) && (vy (velocity b1) =? 0) then
      let '(v, h1) := randomVelocity speedScale h in (setVelocity b1 v, h1)
    else (b1, h) in
  let spinBase := if spins (shapeType b2) then 0.8 else 0.4 in
  let spinScale := speedScale * 1.1 in
  let '(r3, h3) := rngNext h2 in
  (setAngularVelocity b2 ((r3 - 0.5) * spinBase * spinScale), h3).

Fixpoint kickBodies (bs : list Body) (h : Z) : list Body * Z :=
  match bs with
  | [] => ([], h)
  | b :: rest =>
      let '(b', h1) := kickBody b h in
      let '(rest', h2) := kickBodies rest h1 in
      (b' :: rest', h2)
  end.

(** The ten calls that place the shapes, in the order of [createShapes]. *)
Definition placeShapes (st0 : Build) : Build :=
  let st1 := addCircle 0.3 st0 in
  let st2 := addSquare 0.3 st1 in
  let st3 := addTriangle 0.3 st2 in
  let st4 := addRect 1 0.2 st3 in
  let st5 := addCircle 0.65 st4 in
  let st6 := addSquare 0.8 st5 in
  let st7 := addRect 1 0.4 st6 in
  let st8 := addTriangle 1 st7 in
  let st9 := addCircle 0.8 st8 in
  addSquare 1.2 st9.

(** [createShapes(rng, scene)], started with the generator in state [h]:
    the shapes are placed, physics is switched on, and the closing loop gives
    every body its speed scale, velocity and spin. *)
Definition createShapes (h : Z) (w : World) : Build :=
  let st0 := mkBuild h (seq 0 (length COLOR_PRESETS)) w in
  let st10 := placeShapes st0 in
  let w1 := setPhysicsEnabled true (world st10) in
  let '(bs, h') := kickBodies (bodies w1) (rng st10) in
  mkBuild h' (availablePresetIndices st10) (setBodies w1 bs).

(** [regenerateComposition(seed)] *)
Definition regenerateComposition (seed : string) (w : World) : World :=
  if negb (sceneRef w) then w
  else
    let h := Rng.createRng seed in
    let cleared :=
      mkWorld [] false 1%Z (colorTransferEnabled w) (worldBoundsX w) (worldBoundsY w)
        (sceneRef w) in
    world (createShapes h cleared).

(** The state of the module-level variables when the script is loaded. *)
Definition initialWorld : World := mkWorld [] false 1%Z false 4 2.2 false.

(** The part of [createScene(seed)] that touches the core: [sceneRef] is
    set, [updateWorldBounds] stores the half-extents of the visible area (the
    camera that yields [halfWidth] and [halfHeight] stays outside), and
    [createShapes] runs with a generator made from the seed. *)
Definition createScene (seed : string) (halfWidth halfHeight : R) (w : World) : World :=
  let w1 :=
    mkWorld (bodies w) (physicsEnabled w) (nextBodyId w) (colorTransferEnabled w)
      (halfWidth * 1.0) (halfHeight * 1.0) true in
  world (createShapes (Rng.createRng seed) w1).

(* ------------------------------------------------------------------ *)
(** ** Simulation step: [updatePhysics] *)

Definition BASE_LINEAR_DAMPING : R := 0.998.
Definition BASE_ANGULAR_DAMPING : R := 0.99.
Definition FLUID_LINEAR_VISCOSITY : R := 1.2.
Definition FLUID_ANGULAR_VISCOSITY : R := 0.8.

(** The step the animation loop passes to [updatePhysics]. *)
Definition fixedStep : R := 0.01.

Definition scaleVec (v : Vec) (k : R) : Vec := mkVec (vx v * k) (vy v * k).

(** Rotation and angular damping, done only when [angularVelocity] is
    truthy. *)
Definition integrateRotation (dt : R) (body : Body) : Body :=
  let globalSpeedFactor := 1 in
  if angularVelocity body =? 0 then body
  else
    let b1 := setRot body (rotZ body + angularVelocity body * dt * globalSpeedFactor) in
    let angDrag := BASE_ANGULAR_DAMPING * exp (- FLUID_ANGULAR_VISCOSITY * dt) in
    setAngularVelocity b1 (angularVelocity b1 * angDrag).

(** Wall handling on the x axis, then on the y axis. *)
Definition bounceX (bx : R) (body : Body) : Body :=
  let r := boundingRadius body in
  if posX body - r <? - bx then
    setVelocity (setPos body (- bx + r) (posY body))
      (mkVec (vx (velocity body) * -1) (vy (velocity body)))
  else if posX body + r >? bx then
    setVelocity (setPos body (bx - r) (posY body))
      (mkVec (vx (velocity body) * -1) (vy (velocity body)))
  else body.

Definition bounceY (by_ : R) (body : Body) : Body :=
  let r := boundingRadius body in
  if posY body - r <? - by_ then
    setVelocity (setPos body (posX body) (- by_ + r))
      (mkVec (vx (velocity body)) (vy (velocity body) * -1))
  else if posY body + r >? by_ then
    setVelocity (setPos body (posX body) (by_ - r))
      (mkVec (vx (velocity body)) (vy (velocity body) * -1))
  else body.

(** One iteration of the loop "Move bodies". *)
Definition moveBody (dt bx by_ : R) (body : Body) : Body :=
  let globalSpeedFactor := 1 in
  if isDragged body then setVelocity body (scaleVec (velocity body) 0.9)
  else
    let b1 := integrateRotation dt body in
    let linearDrag := BASE_LINEAR_DAMPING * exp (- FLUID_LINEAR_VISCOSITY * dt) in
    let b2 := setVelocity b1 (scaleVec (velocity b1) linearDrag) in
    let b3 :=
      setPos b2 (posX b2 + vx (velocity b2) * dt * globalSpeedFactor)
                (posY b2 + vy (velocity b2) * dt * globalSpeedFactor) in
    bounceY by_ (bounceX bx b3).

(** [transferColorOnCollision]: the two indices are exchanged (re-applying
    the presets to the meshes only changes materials). *)
Definition transferColorOnCollision (a b : Body) : Body * Body :=
  (setColorIndex a (colorIndex b), setColorIndex b (colorIndex a)).

(** [a.speedScale || 1] *)
Definition speedScaleOr1 (body : Body) : R :=
  match speedScale body with
  | Some s => if s =? 0 then 1 else s
  | None => 1
  end.

(** The clamp of an angular velocity to [maxAngVel]. *)
Definition clampAngular (maxAngVel w : R) : R :=
  let w1 := if w >? maxAngVel then maxAngVel else w in
  if w1 <? - maxAngVel then - maxAngVel else w1.

(** The response to an approaching contact: the branch
    [if (velAlongNormal < 0)] with the values it reads. *)
Definition applyImpulse (colorTransfer : bool) (normal : Vec) (rvx rvy velAlongNormal : R)
  (a b : Body) : Body * Body :=
  let restitution := 1.0 in
  let invMassA2 := if isDragged a then 0 else invMass a in
  let invMassB2 := if isDragged b then 0 else invMass b in
  let invMassSum2 := invMassA2 + invMassB2 in
  if invMassSum2 =? 0 then (a, b)
  else
    let jImpulse := - (1 + restitution) * velAlongNormal / invMassSum2 in
    let impulseX := jImpulse * vx normal in
    let impulseY := jImpulse * vy normal in
    let a1 := setVelocity a (mkVec (vx (velocity a) - impulseX * invMassA2)
                                   (vy (velocity a) - impulseY * invMassA2)) in
    let b1 := setVelocity b (mkVec (vx (velocity b) + impulseX * invMassB2)
                                   (vy (velocity b) + impulseY * invMassB2)) in
    let velTangent := rvx * - vy normal + rvy * vx normal in
    let baseSpinFactor := 0.18 in
    let spinFactorA := baseSpinFactor * speedScaleOr1 a1 in
    let spinFactorB := baseSpinFactor * speedScaleOr1 b1 in
    let maxAngVel := 4.0 in
    let a2 :=
      if spins (shapeType a1)
      then setAngularVelocity a1
             (clampAngular maxAngVel (angularVelocity a1 - velTangent * spinFactorA))
      else a1 in
    let b2 :=
      if spins (shapeType b1)
      then setAngularVelocity b1
             (clampAngular maxAngVel (angularVelocity b1 + velTangent * spinFactorB))
      else b1 in
    if colorTransfer then transferColorOnCollision a2 b2 else (a2, b2).

(** The normal turned so that it points from [a] to [b]. *)
Definition orientNormal (a b : Body) (normal : Vec) : Vec :=
  let centerDirX := posX b - posX a in
  let centerDirY := posY b - posY a in
  if centerDirX * vx normal + centerDirY * vy normal <? 0
  then mkVec (vx normal * -1) (vy normal * -1)
  else normal.

(** What the body of the pair loop does once the test returned
    [{normal, depth}] with a normal. *)
Definition resolveContact (colorTransfer : bool) (normal0 : Vec) (depth : R) (a b : Body)
  : Body * Body :=
  let normal := orientNormal a b normal0 in
  let invMassA := if isDragged a then 0 else invMass a in
  let invMassB := if isDragged b then 0 else invMass b in
  let invMassSum := invMassA + invMassB in
  if invMassSum =? 0 then (a, b)
  else
    let correctionA := depth * (invMassA / invMassSum) in
    let correctionB := depth * (invMassB / invMassSum) in
    let a1 := setPos a (posX a - vx normal * correctionA) (posY a - vy normal * correctionA) in
    let b1 := setPos b (posX b + vx normal * correctionB) (posY b + vy normal * correctionB) in
    let rvx := vx (velocity b1) - vx (velocity a1) in
    let rvy := vy (velocity b1) - vy (velocity a1) in
    let velAlongNormal := rvx * vx normal + rvy * vy normal in
    if velAlongNormal <? 0
    then applyImpulse colorTransfer normal rvx rvy velAlongNormal a1 b1
    else (a1, b1).

(** The body of the pair loop for bodies [a = bodies[i]] and
    [b = bodies[j]].  [None] is the TypeError raised by reading [normal.x]
    when the test returns a null normal. *)
Definition collidePair (colorTransfer : bool) (a b : Body) : option (Body * Body) :=
  match polygonPolygonSAT (getWorldVertices a) (getWorldVertices b) with
  | None => Some (a, b)
  | Some None => None
  | Some (Some (normal, depth)) => Some (resolveContact colorTransfer normal depth a b)
  end.

(** [l] with position [n] overwritten. *)
Fixpoint setNth (n : nat) (x : Body) (l : list Body) : list Body :=
  match l, n with
  | [], _ => []
  | _ :: t, O => x :: t
  | h :: t, S n' => h :: setNth n' x t
  end.

Definition pairStep (colorTransfer : bool) (i j : nat) (bs : list Body)
  : option (list Body) :=
  match nth_error bs i, nth_error bs j with
  | Some a, Some b =>
      match collidePair colorTransfer a b with
      | None => None
      | Some (a', b') => Some (setNth j b' (setNth i a' bs))
      end
  | _, _ => Some bs
  end.

(** The inner loop over [j] for a fixed [i], then the outer loop over [i]. *)
Fixpoint innerLoop (colorTransfer : bool) (i : nat) (js : list nat) (bs : list Body)
  : option (list Body) :=
  match js with
  | [] => Some bs
  | j :: rest =>
      match pairStep colorTransfer i j bs with
      | None => None
      | Some bs' => innerLoop colorTransfer i rest bs'
      end
  end.

Fixpoint outerLoop (colorTransfer : bool) (n : nat) (idxs : list nat) (bs : list Body)
  : option (list Body) :=
  match idxs with
  | [] => Some bs
  | i :: rest =>
      match innerLoop colorTransfer i (seq (S i) (n - S i)) bs with
      | None => None
      | Some bs' => outerLoop colorTransfer n rest bs'
      end
  end.

Definition collideAll (colorTransfer : bool) (bs : list Body) : option (list Body) :=
  outerLoop colorTransfer (length bs) (seq 0 (length bs)) bs.

(** The test of the closing scan: [true] when [body] sets [anyMoving]. *)
Definition stillMoving (body : Body) : bool :=
  let linearEps := 0.02 in
  let angularEps := 0.4 in
  if isDragged body then true
  else
    let speed := hypot (vx (velocity body)) (vy (velocity body)) in
    let angSpeed := Rabs (angularVelocity body) in
    (speed >? linearEps) || (angSpeed >? angularEps).

(** [updatePhysics(dt)]; [None] when the step is cut short by the
    TypeError of [collidePair]. *)
Definition updatePhysics (dt : R) (w : World) : option World :=
  if negb (physicsEnabled w) then Some w
  else
    let moved := map (moveBody dt (worldBoundsX w) (worldBoundsY w)) (bodies w) in
    match collideAll (colorTransferEnabled w) moved with
    | None => None
    | Some bs =>
        let w1 := setBodies w bs in
        let anyMoving := existsb stillMoving bs in
        if negb anyMoving then Some (setPhysicsEnabled false w1) else Some w1
    end.

(* ------------------------------------------------------------------ *)
(** ** Runs of the generator and of the simulation *)

(** The captured variable [h] after [n] calls of the closure. *)
Definition rngSkip (n : nat) (h : Z) : Z :=
  Nat.iter n (fun s => snd (Rng.mulberry32 s)) h.

(** [n] calls of [updatePhysics(dt)] in a row; [None] as soon as one of them
    throws. *)
Fixpoint run (n : nat) (dt : R) (w : World) : option World :=
  match n with
  | O => Some w
  | S k =>
      match updatePhysics dt w with
      | None => None
      | Some w' => run k dt w'
      end
  end.

(* ------------------------------------------------------------------ *)
(** ** The buttons *)

(** The click handler of the colour button: the flag is flipped (the rest
    of the handler restyles the button). *)
Definition onColorClick (w : World) : World :=
  mkWorld (bodies w) (physicsEnabled w) (nextBodyId w) (negb (colorTransferEnabled w))
    (worldBoundsX w) (worldBoundsY w) (sceneRef w).

(** [applyPlayImpulse]: [random k] is the Number returned by the [k]-th
    call of [Math.random] from now on; the state threaded through the loop is
    the number of calls made. *)
Definition playKick (random : nat -> R) (body : Body) (k : nat) : Body * nat :=
  if isDragged body then (body, k)
  else
    let angle := random k * PI * 2 in
    let baseSpeed := 0.8 + random (S k) * 1.2 in
    let speedScale := speedScaleOr1 body in
    let speedVal := baseSpeed * speedScale in
    let b1 := setVelocity body (mkVec (cos angle * speedVal) (sin angle * speedVal)) in
    if spins (shapeType b1) then
      let spinBase := 0.6 in
      (setAngularVelocity b1 ((random (S (S k)) - 0.5) * spinBase * speedScale), S (S (S k)))
    else (b1, S (S k)).

Fixpoint playKicks (random : nat -> R) (bs : list Body) (k : nat) : list Body * nat :=
  match bs with
  | [] => ([], k)
  | b :: rest =>
      let '(b', k1) := playKick random b k in
      let '(rest', k2) := playKicks random rest k1 in
      (b' :: rest', k2)
  end.

Definition applyPlayImpulse (random : nat -> R) (w : World) : World :=
  setBodies w (fst (playKicks random (bodies w) O)).

(** The click handler of the Play button. *)
Definition onPlayClick (random : nat -> R) (w : World) : World :=
  let willEnable := negb (physicsEnabled w) in
  let w1 := setPhysicsEnabled willEnable w in
  if willEnable then applyPlayImpulse random w1 else w1.

(* ------------------------------------------------------------------ *)
(** ** Dragging with the pointer *)

Definition setDragged (b : Body) (d : bool) : Body :=
  mkBody (id b) (posX b) (posY b) (rotZ b) (localVerts b) (boundingRadius b)
    (contactRadius b) (mass b) (invMass b) (velocity b) (angularVelocity b)
    (shapeType b) (colorIndex b) (isMagnetAnchored b) d (speedScale b).

(** [clampBodyToWorld]: each coordinate is brought into the interval the
    bounding circle leaves free; [body.boundingRadius || 0] is the radius
    itself. *)
Definition clampBodyToWorld (w : World) (body : Body) : Body :=
  let r := boundingRadius body in
  let x := Rmax (- worldBoundsX w + r) (Rmin (worldBoundsX w - r) (posX body)) in
  let y := Rmax (- worldBoundsY w + r) (Rmin (worldBoundsY w - r) (posY body)) in
  setPos body x y.

(** The variables [draggedBody] and [lastDragPos] of [createScene] and the
    property [_dragOffset] of the bodies.  A body is named by its index in
    [bodies], which no pointer handler and no simulation step changes; a
    rebuild of the composition while a drag is in progress is not covered. *)
Record Drag : Type := mkDrag {
  draggedBody : option nat;
  lastDragPos : option Vec;
  dragOffset : nat -> option Vec
}.

Definition noDrag : Drag := mkDrag None None (fun _ => None).

(** What the handlers obtain from the event through the raycaster: the body
    under the pointer, if any ([pickBodyAt]), and the point where the ray
    meets the plane [z = 0], if any. *)
Record PointerEvent : Type := mkPointerEvent {
  picked : option nat;
  planePoint : option Vec
}.

Definition onPointerDown (ev : PointerEvent) (d : Drag) (w : World) : Drag * World :=
  match picked ev with
  | None => (d, w)
  | Some k =>
      match nth_error (bodies w) k with
      | None => (d, w)
      | Some body =>
          let b1 := setAngularVelocity (setVelocity (setDragged body true) (mkVec 0 0)) 0 in
          let w1 := setBodies w (setNth k b1 (bodies w)) in
          match planePoint ev with
          | Some p =>
              let offset := mkVec (vx p - posX b1) (vy p - posY b1) in
              (mkDrag (Some k) (Some p)
                 (fun i => if (i =? k)%nat then Some offset else dragOffset d i), w1)
          | None => (mkDrag (Some k) (lastDragPos d) (dragOffset d), w1)
          end
      end
  end.

(** The velocity [onPointerMove] gives the dragged body: twice the
    displacement since the last pointer position, capped at
    [maxDragSpeed]. *)
Definition dragVelocity (newPos lastPos : Vec) : Vec :=
  let dx := vx newPos - vx lastPos in
  let dy := vy newPos - vy lastPos in
  let dragScale := 2 in
  let vx0 := dx * dragScale in
  let vy0 := dy * dragScale in
  let maxDragSpeed := 3.5 in
  let len := hypot vx0 vy0 in
  if (len >? maxDragSpeed) && (len >? 0) then
    let k := maxDragSpeed / len in
    mkVec (vx0 * k) (vy0 * k)
  else mkVec vx0 vy0.

Definition onPointerMove (ev : PointerEvent) (d : Drag) (w : World) : Drag * World :=
  match draggedBody d with
  | None => (d, w)
  | Some k =>
      match planePoint ev, nth_error (bodies w) k with
      | Some p, Some body =>
          let offset := match dragOffset d k with Some o => o | None => mkVec 0 0 end in
          let newPos := mkVec (vx p - vx offset) (vy p - vy offset) in
          let b1 :=
            match lastDragPos d with
            | Some l => setVelocity body (dragVelocity newPos l)
            | None => body
            end in
          let b2 := clampBodyToWorld w (setPos b1 (vx newPos) (vy newPos)) in
          (mkDrag (Some k) (Some newPos) (dragOffset d),
           setBodies w (setNth k b2 (bodies w)))
      | _, _ => (d, w)
      end
  end.

Definition endDrag (d : Drag) (w : World) : Drag * World :=
  match draggedBody d with
  | None => (d, w)
  | Some k =>
      match nth_error (bodies w) k with
      | Some body =>
          (mkDrag None None (fun i => if (i =? k)%nat then None else dragOffset d i),
           setBodies w (setNth k (setDragged body false) (bodies w)))
      | None => (d, w)
      end
  end.

(* ------------------------------------------------------------------ *)
(** ** The animation loop *)

(** The variables [lastTime] and [accumulator] of [createScene]. *)
Record Clock : Type := mkClock {
  lastTime : option R;
  accumulator : R
}.

Definition initialClock : Clock := mkClock None 0.

(** How a loop run with a bound on its iterations ends: normally, by the
    exception of [updatePhysics], or with the bound used up. *)
Inductive Outcome (A : Type) : Type :=
| Done (a : A)
| Thrown
| OutOfFuel.

Arguments Done {A} a.
Arguments Thrown {A}.
Arguments OutOfFuel {A}.

(** [while (accumulator >= fixedStep) { updatePhysics(fixedStep);
    accumulator -= fixedStep; }], for at most [fuel] iterations. *)
Fixpoint stepLoop (fuel : nat) (acc : R) (w : World) : Outcome (R * World) :=
  if acc >=? fixedStep then
    match fuel with
    | O => OutOfFuel
    | S fuel' =>
        match updatePhysics fixedStep w with
        | None => Thrown
        | Some w' => stepLoop fuel' (acc - fixedStep) w'
        end
    end
  else Done (acc, w).

(** A number of iterations after which the loop has ended. *)
Definition frameFuel (acc : R) : nat := Z.to_nat (floor (acc / fixedStep)).

(** [animate(time)] up to the call of the renderer; [time] is in
    milliseconds. *)
Definition animate (time : R) (c : Clock) (w : World) : Outcome (Clock * World) :=
  let last := match lastTime c with None => time | Some l => l end in
  let dt := Rmin ((time - last) / 1000) 0.05 in
  let acc := accumulator c + dt in
  match stepLoop (frameFuel acc) acc w with
  | Done (acc', w') => Done (mkClock (Some time) acc', w')
  | Thrown => Thrown
  | OutOfFuel => OutOfFuel
  end.

(* ------------------------------------------------------------------ *)
(** ** Helpers defined beside the core *)

(** [toOpaqueHex] on a string of ASCII characters: [#rrggbbaa] loses its
    alpha digits, any other string is returned as it is. *)
Definition startsWithHash (col : string) : bool :=
  match col with
  | String c _ => Ascii.eqb c "#"
  | EmptyString => false
  end.

Definition toOpaqueHex (col : string) : string :=
  if startsWithHash col && (String.length col =? 9)%nat
  then substring 0 7 col
  else col.

(** The running [minX], [maxX], [minY], [maxY] of [isSquareBody]; [None]
    is the state before the first vertex, with the four variables still at
    their infinite initial values. *)
Definition boxStep (acc : option (R * R * R * R)) (v : Vec) : option (R * R * R * R) :=
  match acc with
  | None => Some (vx v, vx v, vy v, vy v)
  | Some (minX, maxX, minY, maxY) =>
      Some (if vx v <? minX then vx v else minX,
            if vx v >? maxX then vx v else maxX,
            if vy v <? minY then vy v else minY,
            if vy v >? maxY then vy v else maxY)
  end.

Definition isRectType (s : ShapeType) : bool :=
  match s with rect => true | _ => false end.

Definition isSquareBody (body : Body) : bool :=
  if negb (isRectType (shapeType body)) then false
  else
    match fold_left boxStep (localVerts body) None with
    | None => false
    | Some (minX, maxX, minY, maxY) =>
        let width := maxX - minX in
        let height := maxY - minY in
        if (width <=? 0) || (height <=? 0) then false
        else
          let ratio := width / height in
          (ratio >? 0.9) && (ratio <? 1.1)
    end.

Definition isRectBody (body : Body) : bool :=
  isRectType (shapeType body) && negb (isSquareBody body).

(** The remainder [a % b] of two Numbers: [a - b * q] with [q] the quotient
    [a / b] rounded towards zero. *)
Definition truncate (r : R) : Z := if r <? 0 then (- floor (- r))%Z else floor r.

Definition jsRem (a b : R) : R := a - b * IZR (truncate (a / b)).

Definition normalizeAngle (angle : R) : R :=
  let twoPi := PI * 2 in
  jsRem (jsRem (angle + PI) twoPi + twoPi) twoPi - PI.

(** [getSupportRadius(body, dirX, dirY)] *)
Definition getSupportRadius (body : Body) (dirX dirY : R) : R :=
  let verts := getWorldVertices body in
  let centerProj := posX body * dirX + posY body * dirY in
  fold_left
    (fun radius v =>
       let p := vx v * dirX + vy v * dirY in
       let d := Rabs (p - centerProj) in
       if d >? radius then d else radius)
    verts 0.

(** [gentlyNudgeBodyToward(body, target, maxStep)] for two different body
    objects; the result is the value returned and [body] afterwards
    ([target] is only read). *)
Definition gentlyNudgeBodyToward (w : World) (body target : Body) (maxStep : R)
  : bool * Body :=
  let dx := posX target - posX body in
  let dy := posY target - posY body in
  let dist := hypot dx dy in
  if dist <? 1e-5 then (false, body)
  else
    let dirX := dx / dist in
    let dirY := dy / dist in
    let radiusSelf := getSupportRadius body dirX dirY in
    let radiusTarget := getSupportRadius target (- dirX) (- dirY) in
    let idealDist := radiusSelf + radiusTarget in
    let desiredDist := idealDist - Rmin radiusSelf radiusTarget * 0.05 in
    let diff := dist - desiredDist in
    if diff <=? 0 then (true, body)
    else
      let step := Rmin diff maxStep in
      let b1 := setPos body (posX body + dirX * step) (posY body + dirY * step) in
      let b2 := clampBodyToWorld w b1 in
      (true, setVelocity b2 (scaleVec (velocity b2) 0.3)).

(* ------------------------------------------------------------------ *)
(** ** Vocabulary of the statements *)

(** The axes [checkAxes] tests for the edges [idxs] of [verts1]: the
    normalised normals of the edges of non-zero length, in order. *)
Definition axesFrom (verts1 : list Vec) (idxs : list nat) : list Vec :=
  flat_map (fun i => match edgeAxis verts1 i with Some a => [a] | None => [] end) idxs.

Definition axesOf (verts1 : list Vec) : list Vec :=
  axesFrom verts1 (seq 0 (length verts1)).

(** The interval overlap of the two polygons along [axis]. *)
Definition overlapOn (vertsA vertsB : list Vec) (axis : Vec) : option R :=
  overlapIntervals (projectOntoAxis vertsA axis) (projectOntoAxis vertsB axis).

(** The overlap along [axis] is [<= 0] ([None] being [-Infinity]). *)
Definition separates (vertsA vertsB : list Vec) (axis : Vec) : Prop :=
  match overlapOn vertsA vertsB axis with
  | None => True
  | Some o => o <= 0
  end.

Definition isUnit (v : Vec) : Prop := vx v * vx v + vy v * vy v = 1.

(** [best] is the first axis of least overlap among [tested]. *)
Definition leastOverlap (vertsA vertsB : list Vec) (tested : list Vec) (best : Best) : Prop :=
  match best with
  | None => tested = []
  | Some (n, d) =>
      In n tested /\ overlapOn vertsA vertsB n = Some d
      /\ forall a o, In a tested -> overlapOn vertsA vertsB a = Some o -> d <= o
  end.

(** A body whose polygon has at least one edge of non-zero length. *)
Definition proper (b : Body) : Prop := axesOf (localVerts b) <> [].

(** The relative velocity of [b] with respect to [a] along [n]. *)
Definition relVelAlong (n : Vec) (a b : Body) : R :=
  (vx (velocity b) - vx (velocity a)) * vx n
  + (vy (velocity b) - vy (velocity a)) * vy n.

Definition speedOf (b : Body) : R := hypot (vx (velocity b)) (vy (velocity b)).

(** [b'] is [b] up to its dynamic state: identity, geometry, mass and flags
    are the same. *)
Definition sameStatic (b b' : Body) : Prop :=
  id b' = id b /\ localVerts b' = localVerts b
  /\ boundingRadius b' = boundingRadius b /\ contactRadius b' = contactRadius b
  /\ mass b' = mass b /\ invMass b' = invMass b /\ shapeType b' = shapeType b
  /\ isDragged b' = isDragged b /\ speedScale b' = speedScale b
  /\ isMagnetAnchored b' = isMagnetAnchored b.

(** [sameStatic], and a dragged body keeps its position and velocity. *)
Definition pinned (b b' : Body) : Prop :=
  sameStatic b b'
  /\ (isDragged b = true ->
      posX b' = posX b /\ posY b' = posY b /\ velocity b' = velocity b).

(** The local vertices [addRect] builds from half-extents [hw] and [hh], and
    the axis-aligned box they occupy when the body sits unrotated at
    [(px, py)]. *)
Definition rectLocal (hw hh : R) : list Vec :=
  [mkVec (- hw) (- hh); mkVec hw (- hh); mkVec hw hh; mkVec (- hw) hh].

Definition boxAt (hw hh px py : R) : list Vec :=
  [mkVec (px - hw) (py - hh); mkVec (px + hw) (py - hh);
   mkVec (px + hw) (py + hh); mkVec (px - hw) (py + hh)].

Definition dot (v axis : Vec) : R := vx v * vx axis + vy v * vy axis.

(** The overlap of two intervals given by centre and half-length. *)
Definition spanOverlap (c1 h1 c2 h2 : R) : R :=
  Rmin (c1 + h1) (c2 + h2) - Rmax (c1 - h1) (c2 - h2).

(** *** The separating-axis criterion in the words of the specification

    The definitions below do not use the code of [polygonPolygonSAT]; C4
    compares the result of the code with them. *)

(** [a] and [b] are consecutive vertices of the closed polygon [P], the last
    vertex being followed by the first. *)
Definition edgeOf (P : list Vec) (a b : Vec) : Prop :=
  exists i : nat,
    nth_error P i = Some a
    /\ ((nth_error P (S i) = Some b)
        \/ (S i = length P /\ nth_error P 0 = Some b)).

(** [n] is a normalised normal of the edge from [a] to [b], an edge of
    non-zero length: a vector of length 1 at a right angle to [b - a]. *)
Definition unitNormalOf (a b n : Vec) : Prop :=
  a <> b
  /\ vx n * vx n + vy n * vy n = 1
  /\ vx n * (vx b - vx a) + vy n * (vy b - vy a) = 0.

(** [n] is an edge-normal axis of the pair: a normalised normal of an edge of
    non-zero length of one of the two polygons. *)
Definition edgeNormalAxis (A B : list Vec) (n : Vec) : Prop :=
  exists a b, (edgeOf A a b \/ edgeOf B a b) /\ unitNormalOf a b n.

(** The interval [[lo, hi]] covered by the polygon [P] along [n]: the least
    and the greatest dot product of a vertex with [n]. *)
Definition coversAlong (P : list Vec) (n : Vec) (lo hi : R) : Prop :=
  (exists v, In v P /\ dot v n = lo)
  /\ (exists v, In v P /\ dot v n = hi)
  /\ forall v, In v P -> lo <= dot v n <= hi.

(** The interval overlap of [A] and [B] along [n]: the lesser of the two upper
    ends less the greater of the two lower ends. *)
Definition intervalOverlap (A B : list Vec) (n : Vec) (o : R) : Prop :=
  exists alo ahi blo bhi,
    coversAlong A n alo ahi /\ coversAlong B n blo bhi
    /\ o = Rmin ahi bhi - Rmax alo blo.

(** The axis [n] turned round. *)
Definition opp (n : Vec) : Vec := mkVec (- vx n) (- vy n).

(** The overlap tolerance of the placement phase between an earlier body [a]
    and a later body [b]: for two circles the deficit of the centre distance
    below the sum of the contact radii is at most 3% of that sum; for any
    other pair the separating-axis test reports no contact, or one of depth at
    most 0.002. *)
Definition withinTolerance (a b : Body) : Prop :=
  if isCircle (shapeType b) && isCircle (shapeType a) then
    let ideal := contactRadius a + contactRadius b in
    ideal - hypot (posX a - posX b) (posY a - posY b) <= ideal * 0.03
  else
    match polygonPolygonSAT (getWorldVertices a) (getWorldVertices b) with
    | None => True
    | Some None => False
    | Some (Some (_, depth)) => depth <= 0.002
    end.

Definition placedApart (bs : list Body) : Prop := ForallOrdPairs withinTolerance bs.

(** [b'] has the identity, colour and placement of [b]. *)
Definition samePlacement (b b' : Body) : Prop :=
  id b' = id b /\ posX b' = posX b /\ posY b' = posY b /\ rotZ b' = rotZ b
  /\ localVerts b' = localVerts b /\ shapeType b' = shapeType b
  /\ contactRadius b' = contactRadius b /\ colorIndex b' = colorIndex b
  /\ boundingRadius b' = boundingRadius b.

(** The worlds reached from [w] by a sequence of calls of [placeMesh]. *)
Inductive placedFrom (w : World) : World -> Prop :=
| placed_none : placedFrom w w
| placed_more (w1 : World) (sh : Shape) :
    placedFrom w w1 -> placedFrom w (snd (placeMesh sh w1)).

(** The identifiers of the bodies are 1, 2, ... in insertion order, and the
    counter holds the next one. *)
Definition idsInOrder (w : World) : Prop :=
  map id (bodies w) = map Z.of_nat (seq 1 (length (bodies w)))
  /\ nextBodyId w = Z.of_nat (S (length (bodies w))).

(** *** Builds *)

(** The colour indices held by the bodies, followed by those still in the
    pool. *)
Definition coloursOf (st : Build) : list nat :=
  map colorIndex (bodies (world st)) ++ availablePresetIndices st.

(** One of the ten add-calls seen from the pool: an index leaves the pool,
    and at most one body, carrying that index, joins [bodies]. *)
Definition takesOne (st st' : Build) : Prop :=
  exists i,
    Permutation (availablePresetIndices st) (i :: availablePresetIndices st')
    /\ (bodies (world st') = bodies (world st)
        \/ exists b, bodies (world st') = bodies (world st) ++ [b] /\ colorIndex b = i).

(** The state of the pool while [k] add-calls are still to come: [k]
    indices are left, no index is held twice, every index in use is one of
    the presets, and bodies and pool together never exceed the presets. *)
Definition poolInvariant (k : nat) (st : Build) : Prop :=
  length (availablePresetIndices st) = k
  /\ NoDup (coloursOf st)
  /\ incl (coloursOf st) (seq 0 (length COLOR_PRESETS))
  /\ (length (bodies (world st)) + k <= length COLOR_PRESETS)%nat.

(** The worlds reached from [w] by calls of [placeMesh] on shapes that all
    satisfy [P]. *)
Inductive placedWith (P : Shape -> Prop) (w : World) : World -> Prop :=
| placedWith_none : placedWith P w w
| placedWith_more (w1 : World) (sh : Shape) :
    placedWith P w w1 -> P sh -> placedWith P w (snd (placeMesh sh w1)).

(** A shape as [createShapes] makes them: a bounding radius in (0, 1], a
    polygon with an edge of non-zero length, no vertex farther from the
    origin than the bounding radius, and for a circle a contact radius that
    is not below the bounding radius. *)
Definition pageShape (sh : Shape) : Prop :=
  0 < shBoundingRadius sh <= 1
  /\ axesOf (shLocalVerts sh) <> []
  /\ Forall (fun v => hypot (vx v) (vy v) <= shBoundingRadius sh) (shLocalVerts sh)
  /\ (shType sh = circle -> shBoundingRadius sh <= shContactRadius sh).

(** Every vertex of the polygon of [b] lies within the bounds [bx], [by_]. *)
Definition insideBounds (bx by_ : R) (b : Body) : Prop :=
  Forall (fun v => Rabs (vx v) <= bx /\ Rabs (vy v) <= by_) (getWorldVertices b).

(** A body with consistent data: a positive bounding radius, a polygon with
    an edge of non-zero length, mass the square of the radius and inverse mass
    its inverse. *)
Definition solidBody (b : Body) : Prop :=
  0 < boundingRadius b /\ proper b
  /\ mass b = boundingRadius b * boundingRadius b
  /\ invMass b = 1 / mass b.

(** A body as [placeMesh] registers it: made from a shape of the page, at
    rest and not dragged. *)
Definition freshBody (b : Body) : Prop :=
  0 < boundingRadius b <= 1
  /\ proper b
  /\ Forall (fun v => hypot (vx v) (vy v) <= boundingRadius b) (localVerts b)
  /\ mass b = boundingRadius b * boundingRadius b
  /\ invMass b = 1 / mass b
  /\ velocity b = mkVec 0 0
  /\ isDragged b = false.

(** A body as the closing loop of [createShapes] leaves it: the speed scale
    is set from the bounding radius, and speed and spin are in proportion. *)
Definition kickedBody (b : Body) : Prop :=
  exists s,
    speedScale b = Some s
    /\ s = 1.8 / (0.6 + Rmax 0.3 (boundingRadius b))
    /\ 1 < s
    /\ 0.8 * s <= speedOf b < 2 * s
    /\ Rabs (angularVelocity b) <= 0.44 * s
    /\ isDragged b = false.

(** [w] with the flag of the colour button set to [ct], and the same for
    the global state inside a build. *)
Definition withColorTransfer (ct : bool) (w : World) : World :=
  mkWorld (bodies w) (physicsEnabled w) (nextBodyId w) ct
    (worldBoundsX w) (worldBoundsY w) (sceneRef w).

Definition liftColorTransfer (ct : bool) (st : Build) : Build :=
  mkBuild (rng st) (availablePresetIndices st) (withColorTransfer ct (world st)).

(** [e1 <= e2] on scores, and the number of contacts the selection of
    [placeMesh] asks for. *)
Definition ext_le (e1 e2 : ExtR) : Prop := ext_ltb e2 e1 = false.

Definition requiredContactsOf (w : World) (cs : list Candidate) : nat :=
  if (2 <=? length (bodies w))%nat && (2 <=? maxContactsOf cs)%nat then 2%nat else 1%nat.

(** *** Contacts and motion *)

(** The linear momentum and the kinetic energy of translation of a pair of
    bodies. *)
Definition momentumOf (a b : Body) : Vec :=
  mkVec (mass a * vx (velocity a) + mass b * vx (velocity b))
        (mass a * vy (velocity a) + mass b * vy (velocity b)).

Definition kineticOf (a b : Body) : R :=
  (mass a * (vx (velocity a) * vx (velocity a) + vy (velocity a) * vy (velocity a))
   + mass b * (vx (velocity b) * vx (velocity b) + vy (velocity b) * vy (velocity b))) / 2.

(** The distance from the centre of [a] to the centre of [b] measured
    along [n]. *)
Definition gapAlong (n : Vec) (a b : Body) : R :=
  (posX b - posX a) * vx n + (posY b - posY a) * vy n.

(** The kinetic energy of translation of one body and of a list of bodies,
    and a body with consistent mass data that the pointer does not hold. *)
Definition energyOf (b : Body) : R :=
  mass b * (vx (velocity b) * vx (velocity b) + vy (velocity b) * vy (velocity b)) / 2.

Definition totalEnergy (bs : list Body) : R :=
  fold_right (fun b acc => energyOf b + acc) 0 bs.

Definition freeBody (b : Body) : Prop :=
  isDragged b = false /\ 0 < mass b /\ invMass b = 1 / mass b.

(** A polygon moved by the vector [t]. *)
Definition translate (t : Vec) (verts : list Vec) : list Vec :=
  map (fun v => mkVec (vx v + vx t) (vy v + vy t)) verts.

(** [b'] is [b] after simulation steps during which the pointer held it:
    nothing static changed, and a body with the dragged flag set kept its
    position and, if it was at rest, stayed at rest. *)
Definition heldStill (b b' : Body) : Prop :=
  sameStatic b b'
  /\ (isDragged b = true ->
      posX b' = posX b /\ posY b' = posY b
      /\ (velocity b = mkVec 0 0 -> velocity b' = mkVec 0 0)).

(** What [applyPlayImpulse] does to one body: nothing static, no position,
    rotation or colour changes; a dragged body is left as it is; any other
    gets a speed between 0.8 and 2 times its speed scale and a spin of at most
    0.3 times its speed scale. *)
Definition playKicked (b b' : Body) : Prop :=
  sameStatic b b'
  /\ posX b' = posX b /\ posY b' = posY b /\ rotZ b' = rotZ b
  /\ colorIndex b' = colorIndex b
  /\ (isDragged b = true -> b' = b)
  /\ (isDragged b = false ->
      0.8 * Rabs (speedScaleOr1 b) <= speedOf b' < 2 * Rabs (speedScaleOr1 b)
      /\ Rabs (angularVelocity b') <= 0.3 * Rabs (speedScaleOr1 b)).

(** The pair loop gives the pair [(a, b)] no impulse: the test finds the two
    bodies apart, or it finds a contact along a normal and, with the normal
    pointing from [a] to [b], the velocity of [b] relative to [a] along it is
    not negative (the bodies rest against each other or part). *)
Definition restingOrApart (a b : Body) : Prop :=
  match polygonPolygonSAT (getWorldVertices a) (getWorldVertices b) with
  | None => True
  | Some None => False
  | Some (Some (normal, _)) => 0 <= relVelAlong (orientNormal a b normal) a b
  end.

(** The pair loop started on [bs] applies no impulse: every pair is resting
    or apart when the loop reaches it, with the positions the loop has given
    the bodies by then.  The three definitions follow the inner loop, the
    outer loop and [collideAll]. *)
Fixpoint quietInner (colorTransfer : bool) (i : nat) (js : list nat) (bs : list Body)
  : Prop :=
  match js with
  | [] => True
  | j :: rest =>
      (forall a b, nth_error bs i = Some a -> nth_error bs j = Some b ->
                   restingOrApart a b)
      /\ (forall bs', pairStep colorTransfer i j bs = Some bs' ->
                      quietInner colorTransfer i rest bs')
  end.

Fixpoint quietOuter (colorTransfer : bool) (n : nat) (idxs : list nat) (bs : list Body)
  : Prop :=
  match idxs with
  | [] => True
  | i :: rest =>
      quietInner colorTransfer i (seq (S i) (n - S i)) bs
      /\ (forall bs', innerLoop colorTransfer i (seq (S i) (n - S i)) bs = Some bs' ->
                      quietOuter colorTransfer n rest bs')
  end.

Definition noImpulse (colorTransfer : bool) (bs : list Body) : Prop :=
  quietOuter colorTransfer (length bs) (seq 0 (length bs)) bs.

(* ------------------------------------------------------------------ *)
(** ** Scenes used as concrete instances *)

(** The large triangle of [createShapes] ([addTriangle(1)]), unrotated, held
    by the pointer at the origin while still carrying a velocity. *)
Definition heldTriangle : Body :=
  mkBody 1 0 0 0 [mkVec 0 1; mkVec (-0.866) (-0.5); mkVec 0.866 (-0.5)] 1 0.6 1 1
    (mkVec 1 0) 0 tri 0 false true None.

Definition heldWorld : World := mkWorld [heldTriangle] true 2%Z false 4 2.2 true.

(** The small circle of [createShapes] ([addCircle(0.3)]) alone in the
    default bounds, moving to the right. *)
Definition loneCircle : Body :=
  mkBody 1 0 0 0 (circleVerts 0.3) 0.3 0.3 (0.3 * 0.3) (1 / (0.3 * 0.3))
    (mkVec 1 0) 0 circle 0 false false (Some 2).

Definition loneWorld : World := mkWorld [loneCircle] true 2%Z false 4 2.2 true.

(** Two unrotated rectangles in the default bounds, overlapping by 0.01
    along x: a 0.6 x 0.8 one at the origin drifting to the right at speed
    0.019, and a 0.06 x 0.08 one at rest at (0.32, 0).  Bounding radius, mass
    and inverse mass are those [placeMesh] derives from the vertices (0.5,
    0.25, 4 and 0.05, 0.0025, 400); the colour indices are 2 and 7. *)
Definition bigBox : Body :=
  mkBody 1 0 0 0 (rectLocal 0.3 0.4) 0.5 0.21 0.25 4
    (mkVec 0.019 0) 0 rect 2 false false (Some (1.8 / 1.1)).

Definition smallBox : Body :=
  mkBody 2 0.32 0 0 (rectLocal 0.03 0.04) 0.05 0.021 0.0025 400
    (mkVec 0 0) 0 rect 7 false false (Some 2).

Definition crowdedWorld : World :=
  mkWorld [bigBox; smallBox] true 3%Z false 4 2.2 true.

(** The two rectangles of [crowdedWorld] with the large one drifting to the
    left, away from the small one, at speed 0.019. *)
Definition partingWorld : World :=
  mkWorld [setVelocity bigBox (mkVec (- 0.019) 0); smallBox] true 3%Z false 4 2.2 true.

(** Two circles of radius 0.3 touching at (0.3, 0), in the default bounds,
    and a third circle of radius 0.3 about to be placed. *)
Definition leftCircle : Body :=
  mkBody 1 0 0 0 (circleVerts 0.3) 0.3 0.3 (0.3 * 0.3) (1 / (0.3 * 0.3))
    (mkVec 0 0) 0 circle 0 false false None.

Definition rightCircle : Body :=
  mkBody 2 0.6 0 0 (circleVerts 0.3) 0.3 0.3 (0.3 * 0.3) (1 / (0.3 * 0.3))
    (mkVec 0 0) 0 circle 1 false false None.

Definition twoCircles : World := mkWorld [leftCircle; rightCircle] false 3%Z false 4 2.2 true.

Definition thirdCircle : Shape := mkShape 0 0.3 (circleVerts 0.3) circle (Some 0.3) 2.

(** A drag of the held triangle in progress, and a pointer event far to the
    right of the visible area. *)
Definition heldDrag : Drag := mkDrag (Some 0%nat) (Some (mkVec 0 0)) (fun _ => None).

Definition farRight : PointerEvent := mkPointerEvent None (Some (mkVec 9 0)).

(** Pointer events that hit the first and the second body. *)
Definition pressFirst : PointerEvent := mkPointerEvent (Some 0%nat) (Some (mkVec 0 0)).

Definition pressSecond : PointerEvent := mkPointerEvent (Some 1%nat) (Some (mkVec 0.32 0)).

(** A rectangle as [addRect] makes it, before [placeMesh] puts it
    somewhere. *)
Definition rectBody (hw hh : R) : Body :=
  bodyAt (mkShape 0 (maxRadius (rectLocal hw hh)) (rectLocal hw hh) rect
            (Some (Rmin hw hh * 0.7)) 0) 0 0.

(** A source of random Numbers that always answers one half. *)
Definition alwaysHalf : nat -> R := fun _ => 0.5.

(** Two candidates for a scene of two bodies: one touching both at a
    worse score, one touching a single body at a better score. *)
Definition twoContacts : Candidate := mkCandidate 0.3 0.5 2 (Fin 0.02).

Definition oneContact : Candidate := mkCandidate 1.2 0 1 (Fin 0.01).

(** The small box of the two-box scene moved away to (1, 0). *)
Definition farBox : Body := setPos smallBox 1 0.

(* ================================================================== *)
(** * Properties *)

(** ** Boolean comparisons *)

Lemma Rltb_true (a b : R) : (a <? b) = true <-> a < b.
Proof. unfold Rltb. destruct (Rlt_dec a b); split; intros; auto; discriminate. Qed.

Lemma Rltb_false (a b : R) : (a <? b) = false <-> b <= a.
Proof.
  unfold Rltb. destruct (Rlt_dec a b); split; intros; auto; try discriminate; lra.
Qed.

Lemma Rleb_true (a b : R) : (a <=? b) = true <-> a <= b.
Proof. unfold Rleb. destruct (Rle_dec a b); split; intros; auto; discriminate. Qed.

Lemma Rleb_false (a b : R) : (a <=? b) = false <-> b < a.
Proof.
  unfold Rleb. destruct (Rle_dec a b); split; intros; auto; try discriminate; lra.
Qed.

Lemma Reqb_true (a b : R) : (a =? b) = true <-> a = b.
Proof. unfold Reqb. destruct (Req_dec_T a b); split; intros; auto; discriminate. Qed.

Lemma Reqb_false (a b : R) : (a =? b) = false <-> a <> b.
Proof.
  unfold Reqb. destruct (Req_dec_T a b); split; intros; auto; try discriminate.
  contradiction.
Qed.

(** Turns every boolean comparison in the context into its proposition. *)
Ltac bools :=
  repeat match goal with
  | H : (_ || _) = false |- _ => apply orb_false_iff in H; destruct H
  | H : (_ && _) = true |- _ => apply andb_true_iff in H; destruct H
  | H : (_ <? _) = true |- _ => apply Rltb_true in H
  | H : (_ <? _) = false |- _ => apply Rltb_false in H
  | H : (_ <=? _) = true |- _ => apply Rleb_true in H
  | H : (_ <=? _) = false |- _ => apply Rleb_false in H
  | H : (_ =? _) = true |- _ => apply Reqb_true in H
  | H : (_ =? _) = false |- _ => apply Reqb_false in H
  end.

(** Decimal literals written out as quotients of integers, for [field]. *)
Ltac dec :=
  unfold Q2R in *; cbn [QArith_base.Qnum QArith_base.Qden] in *;
  cbv [Z.pow_pos Pos.iter Z.mul Pos.mul Pos.add Pos.succ Pos.add_carry] in *.

(** ** [Math.hypot] *)

Lemma hypot_nonneg (x y : R) : 0 <= hypot x y.
Proof. apply sqrt_pos. Qed.

Lemma hypot_sqr (x y : R) : hypot x y * hypot x y = x * x + y * y.
Proof. unfold hypot. apply sqrt_sqrt. nra. Qed.

Lemma hypot_zero_iff (x y : R) : hypot x y = 0 <-> x = 0 /\ y = 0.
Proof.
  split.
  - intro H. pose proof (hypot_sqr x y) as Hs. rewrite H in Hs.
    split; nra.
  - intros [-> ->]. unfold hypot. replace (0 * 0 + 0 * 0) with 0 by ring.
    apply sqrt_0.
Qed.

Lemma hypot_unique (x y r : R) : 0 <= r -> x * x + y * y = r * r -> hypot x y = r.
Proof.
  intros Hr H. unfold hypot. rewrite H. apply sqrt_square. exact Hr.
Qed.

(** ** The separating-axis test *)

Lemma edgeAxis_unit (verts1 : list Vec) (i : nat) (axis : Vec) :
  edgeAxis verts1 i = Some axis -> isUnit axis.
Proof.
  unfold edgeAxis, isUnit. cbv zeta.
  destruct (_ =? 0) eqn:E; [discriminate|].
  intros H. injection H as <-. cbn [vx vy]. bools.
  match goal with H : hypot ?a ?b <> 0 |- _ =>
    pose proof (hypot_sqr a b) as Hs; set (len := hypot a b) in *;
    set (ax := a) in *; set (ay := b) in * end.
  unfold Rdiv.
  replace (ax * / len * (ax * / len) + ay * / len * (ay * / len))
    with ((ax * ax + ay * ay) * (/ len * / len)) by ring.
  rewrite <- Hs. field. exact E.
Qed.

(** A zero-length edge contributes no axis, and only such an edge. *)
Lemma edgeAxis_None_iff (verts1 : list Vec) (i : nat) :
  edgeAxis verts1 i = None <->
  nth ((i + 1) mod length verts1) verts1 (mkVec 0 0) = nth i verts1 (mkVec 0 0).
Proof.
  unfold edgeAxis. cbv zeta.
  set (vi := nth i verts1 _). set (vj := nth _ verts1 _).
  destruct (_ =? 0) eqn:E; bools.
  - apply hypot_zero_iff in E. destruct E as [E1 E2].
    split; [intros _|reflexivity].
    destruct vi as [xi yi], vj as [xj yj]. cbn [vx vy] in *.
    f_equal; lra.
  - split; [discriminate|]. intros Heq. exfalso. apply E.
    apply hypot_zero_iff. rewrite Heq. split; lra.
Qed.

Lemma axesFrom_unit (verts1 : list Vec) (idxs : list nat) (axis : Vec) :
  In axis (axesFrom verts1 idxs) -> isUnit axis.
Proof.
  unfold axesFrom. rewrite in_flat_map. intros [i [_ Hi]].
  destruct (edgeAxis verts1 i) eqn:E; [|contradiction].
  destruct Hi as [<-|[]]. eapply edgeAxis_unit; eauto.
Qed.

Lemma axesFrom_cons (verts1 : list Vec) (i : nat) (rest : list nat) :
  axesFrom verts1 (i :: rest) =
  match edgeAxis verts1 i with Some a => [a] | None => [] end ++ axesFrom verts1 rest.
Proof. reflexivity. Qed.

(** [checkAxes] returns [false] exactly when one of its axes separates. *)
Lemma checkAxesFrom_None (A B V : list Vec) (idxs : list nat) :
  forall best,
  checkAxesFrom A B V idxs best = None <->
  exists axis, In axis (axesFrom V idxs) /\ separates A B axis.
Proof.
  induction idxs as [|i rest IH]; intros best.
  - cbn. split; [discriminate|]. intros [axis [[] _]].
  - cbn [checkAxesFrom]. rewrite axesFrom_cons.
    destruct (edgeAxis V i) as [axis|] eqn:E.
    + fold (overlapOn A B axis).
      destruct (overlapOn A B axis) as [o|] eqn:Eo.
      * destruct (o <=? 0) eqn:Ele; bools.
        -- split; [intros _|reflexivity].
           exists axis. split; [left; reflexivity|].
           unfold separates. rewrite Eo. exact Ele.
        -- rewrite IH. split.
           ++ intros [a [Ha Hs]]. exists a. split; [right; exact Ha|exact Hs].
           ++ intros [a [[<-|Ha] Hs]].
              ** unfold separates in Hs. rewrite Eo in Hs. lra.
              ** exists a. auto.
      * split; [intros _|reflexivity].
        exists axis. split; [left; reflexivity|].
        unfold separates. rewrite Eo. exact I.
    + cbn [app]. apply IH.
Qed.

(** When [checkAxes] returns [true], the closure state holds the first axis
    of least overlap among all axes tested so far. *)
Lemma checkAxesFrom_Some (A B V : list Vec) (idxs : list nat) :
  forall tested best best',
  leastOverlap A B tested best ->
  checkAxesFrom A B V idxs best = Some best' ->
  leastOverlap A B (tested ++ axesFrom V idxs) best'.
Proof.
  induction idxs as [|i rest IH]; intros tested best best' Hb H.
  - cbn in H. injection H as <-. cbn. rewrite app_nil_r. exact Hb.
  - cbn [checkAxesFrom] in H. rewrite axesFrom_cons.
    destruct (edgeAxis V i) as [axis|] eqn:E.
    + fold (overlapOn A B axis) in H.
      destruct (overlapOn A B axis) as [o|] eqn:Eo; [|discriminate].
      destruct (o <=? 0) eqn:Ele; [discriminate|]. bools.
      rewrite app_assoc. eapply IH; [|exact H].
      destruct best as [[n d]|]; cbn [minOverlapOf lt_ext leastOverlap] in *.
      * destruct Hb as [Hin [Hd Hmin]].
        destruct (o <? d) eqn:Elt; bools; cbn [leastOverlap].
        -- split; [apply in_or_app; right; left; reflexivity|].
           split; [exact Eo|].
           intros a o' Ha Ho'. apply in_app_or in Ha. destruct Ha as [Ha|[<-|[]]].
           ++ specialize (Hmin a o' Ha Ho'). lra.
           ++ rewrite Eo in Ho'. injection Ho' as <-. lra.
        -- split; [apply in_or_app; left; exact Hin|].
           split; [exact Hd|].
           intros a o' Ha Ho'. apply in_app_or in Ha. destruct Ha as [Ha|[<-|[]]].
           ++ exact (Hmin a o' Ha Ho').
           ++ rewrite Eo in Ho'. injection Ho' as <-. lra.
      * subst tested. cbn [app leastOverlap].
        split; [left; reflexivity|]. split; [exact Eo|].
        intros a o' [<-|[]] Ho'. rewrite Eo in Ho'. injection Ho' as <-. lra.
    + cbn [app]. eapply IH; eauto.
Qed.

Lemma polygonPolygonSAT_None (A B : list Vec) :
  polygonPolygonSAT A B = None <->
  exists axis, In axis (axesOf A ++ axesOf B) /\ separates A B axis.
Proof.
  unfold polygonPolygonSAT, checkAxes, axesOf.
  destruct (checkAxesFrom A B A _ None) as [best1|] eqn:E1.
  - destruct (checkAxesFrom A B B _ best1) as [best2|] eqn:E2.
    + split; [discriminate|]. intros [axis [Hin Hs]]. exfalso.
      apply in_app_or in Hin. destruct Hin as [Hin|Hin].
      * assert (checkAxesFrom A B A (seq 0 (length A)) None = None) as C
          by (apply checkAxesFrom_None; eauto).
        congruence.
      * assert (checkAxesFrom A B B (seq 0 (length B)) best1 = None) as C
          by (apply checkAxesFrom_None; eauto).
        congruence.
    + split; [intros _|reflexivity].
      apply checkAxesFrom_None in E2. destruct E2 as [axis [Hin Hs]].
      exists axis. split; [apply in_or_app; right; exact Hin|exact Hs].
  - split; [intros _|reflexivity].
    apply checkAxesFrom_None in E1. destruct E1 as [axis [Hin Hs]].
    exists axis. split; [apply in_or_app; left; exact Hin|exact Hs].
Qed.

Lemma polygonPolygonSAT_Some (A B : list Vec) (best : Best) :
  polygonPolygonSAT A B = Some best ->
  leastOverlap A B (axesOf A ++ axesOf B) best.
Proof.
  unfold polygonPolygonSAT, checkAxes, axesOf.
  destruct (checkAxesFrom A B A _ None) as [best1|] eqn:E1; [|discriminate].
  destruct (checkAxesFrom A B B _ best1) as [best2|] eqn:E2; [|discriminate].
  intros H. injection H as <-.
  eapply checkAxesFrom_Some; [|exact E2].
  change (axesFrom A (seq 0 (length A))) with ([] ++ axesFrom A (seq 0 (length A))).
  eapply checkAxesFrom_Some; [|exact E1]. reflexivity.
Qed.

(** A reported contact has a unit normal and a positive depth. *)
Lemma polygonPolygonSAT_hit (A B : list Vec) (n : Vec) (d : R) :
  polygonPolygonSAT A B = Some (Some (n, d)) -> isUnit n /\ 0 < d.
Proof.
  intros H. pose proof (polygonPolygonSAT_Some _ _ _ H) as [Hin [Hd _]].
  split.
  - apply in_app_or in Hin. destruct Hin as [Hin|Hin]; eapply axesFrom_unit; exact Hin.
  - destruct (Rlt_dec 0 d) as [Hlt|Hge]; [exact Hlt|exfalso].
    assert (polygonPolygonSAT A B = None) as C.
    { apply polygonPolygonSAT_None. exists n. split; [exact Hin|].
      unfold separates. rewrite Hd. lra. }
    congruence.
Qed.

(** *** The criterion of the specification

    [projectOntoAxis] is compared with the least and the greatest dot
    product, the axes of [checkAxes] with the normals of the edges. *)

Lemma projStep_some (axis : Vec) (verts : list Vec) :
  forall a b,
  exists a' b',
    fold_left (projStep axis) verts (Some (a, b)) = Some (a', b')
    /\ a' <= a /\ b <= b'
    /\ (forall v, In v verts -> a' <= dot v axis <= b')
    /\ (a' = a \/ exists v, In v verts /\ dot v axis = a')
    /\ (b' = b \/ exists v, In v verts /\ dot v axis = b').
Proof.
  induction verts as [|v t IH]; intros a b.
  - exists a, b. cbn. split; [reflexivity|]. split; [lra|]. split; [lra|].
    split; [intros v []|]. split; left; reflexivity.
  - cbn [fold_left]. unfold projStep at 2. cbv zeta. fold (dot v axis).
    set (p := dot v axis).
    destruct (IH (if p <? a then p else a) (if p >? b then p else b))
      as [a' [b' [E [La [Lb [Hall [Ha Hb]]]]]]].
    exists a', b'. split; [exact E|].
    assert ((if p <? a then p else a) <= a /\ (if p <? a then p else a) <= p) as [A1 A2]
      by (destruct (p <? a) eqn:C; bools; lra).
    assert (b <= (if p >? b then p else b) /\ p <= (if p >? b then p else b)) as [B1 B2]
      by (destruct (p >? b) eqn:C; bools; lra).
    split; [lra|]. split; [lra|]. split; [|split].
    + intros u [<-|Hu]; [fold p; lra|apply Hall; exact Hu].
    + destruct Ha as [Ha|[u [Hu Eu]]].
      * destruct (p <? a) eqn:C; [right; exists v; split; [left; reflexivity|fold p; lra]
                                 |left; lra].
      * right. exists u. split; [right; exact Hu|exact Eu].
    + destruct Hb as [Hb|[u [Hu Eu]]].
      * destruct (p >? b) eqn:C; [right; exists v; split; [left; reflexivity|fold p; lra]
                                 |left; lra].
      * right. exists u. split; [right; exact Hu|exact Eu].
Qed.

(** [projectOntoAxis] returns the least and the greatest dot product. *)
Lemma projectOntoAxis_spec (verts : list Vec) (axis : Vec) (mn mx : R) :
  (exists v, In v verts /\ dot v axis = mn) ->
  (exists v, In v verts /\ dot v axis = mx) ->
  (forall v, In v verts -> mn <= dot v axis <= mx) ->
  projectOntoAxis verts axis = Some (mn, mx).
Proof.
  intros [v1 [H1 E1]] [v2 [H2 E2]] Hall.
  destruct verts as [|v t]; [contradiction|].
  unfold projectOntoAxis. cbn [fold_left]. unfold projStep at 2. cbv zeta.
  fold (dot v axis). set (p := dot v axis).
  destruct (projStep_some axis t p p) as [a' [b' [E [La [Lb [Ht [Ha Hb]]]]]]].
  rewrite E.
  assert (forall u, In u (v :: t) -> a' <= dot u axis <= b') as Hall'.
  { intros u [<-|Hu]; [fold p; lra|apply Ht; exact Hu]. }
  assert (exists u, In u (v :: t) /\ dot u axis = a') as [ua [Hua Eua]].
  { destruct Ha as [->|[u [Hu Eu]]];
      [exists v; split; [left; reflexivity|reflexivity]|exists u; split; [right|]; auto]. }
  assert (exists u, In u (v :: t) /\ dot u axis = b') as [ub [Hub Eub]].
  { destruct Hb as [->|[u [Hu Eu]]];
      [exists v; split; [left; reflexivity|reflexivity]|exists u; split; [right|]; auto]. }
  pose proof (Hall ua Hua). pose proof (Hall ub Hub).
  pose proof (Hall' v1 H1). pose proof (Hall' v2 H2).
  f_equal. f_equal; lra.
Qed.

Lemma coversAlong_unique (P : list Vec) (n : Vec) (lo hi lo' hi' : R) :
  coversAlong P n lo hi -> coversAlong P n lo' hi' -> lo = lo' /\ hi = hi'.
Proof.
  intros ([v1 [I1 E1]] & [v2 [I2 E2]] & H) ([u1 [J1 F1]] & [u2 [J2 F2]] & H').
  pose proof (H u1 J1). pose proof (H u2 J2). pose proof (H' v1 I1). pose proof (H' v2 I2).
  split; lra.
Qed.

Lemma coversAlong_exists (P : list Vec) (n : Vec) :
  P <> [] -> exists lo hi, coversAlong P n lo hi.
Proof.
  destruct P as [|v t]; [congruence|]. intros _.
  destruct (projStep_some n t (dot v n) (dot v n)) as (a' & b' & _ & La & Lb & Hall & Ha & Hb).
  exists a', b'. split; [|split].
  - destruct Ha as [->|[u [Hu Eu]]]; [exists v|exists u]; split; auto; [left|right]; auto.
  - destruct Hb as [->|[u [Hu Eu]]]; [exists v|exists u]; split; auto; [left|right]; auto.
  - intros u [<-|Hu]; [lra|apply Hall; exact Hu].
Qed.

Lemma coversAlong_project (P : list Vec) (n : Vec) (lo hi : R) :
  coversAlong P n lo hi <-> projectOntoAxis P n = Some (lo, hi).
Proof.
  split.
  - intros (H1 & H2 & H3). apply projectOntoAxis_spec; assumption.
  - intros H. destruct P as [|v t]; [discriminate|].
    destruct (coversAlong_exists (v :: t) n) as (lo' & hi' & C); [discriminate|].
    pose proof C as (H1 & H2 & H3).
    rewrite (projectOntoAxis_spec _ _ _ _ H1 H2 H3) in H. injection H as <- <-. exact C.
Qed.

(** The interval overlap of the specification is the value the code
    computes with [projectOntoAxis] and [overlapIntervals]. *)
Lemma intervalOverlap_overlapOn (A B : list Vec) (n : Vec) (o : R) :
  intervalOverlap A B n o <-> overlapOn A B n = Some o.
Proof.
  unfold intervalOverlap, overlapOn. split.
  - intros (alo & ahi & blo & bhi & CA & CB & ->).
    apply coversAlong_project in CA, CB. rewrite CA, CB. reflexivity.
  - intros H.
    destruct (projectOntoAxis A n) as [[alo ahi]|] eqn:EA; [|discriminate].
    destruct (projectOntoAxis B n) as [[blo bhi]|] eqn:EB; [|discriminate].
    cbn in H. injection H as <-.
    exists alo, ahi, blo, bhi. rewrite !coversAlong_project. auto.
Qed.

Lemma overlapOn_some (A B : list Vec) (n : Vec) :
  A <> [] -> B <> [] -> exists o, overlapOn A B n = Some o.
Proof.
  intros HA HB.
  destruct (coversAlong_exists A n HA) as (alo & ahi & CA).
  destruct (coversAlong_exists B n HB) as (blo & bhi & CB).
  exists (Rmin ahi bhi - Rmax alo blo). apply intervalOverlap_overlapOn.
  exists alo, ahi, blo, bhi. auto.
Qed.

Lemma coversAlong_opp (P : list Vec) (n : Vec) (lo hi : R) :
  coversAlong P n lo hi -> coversAlong P (opp n) (- hi) (- lo).
Proof.
  assert (forall v, dot v (opp n) = - dot v n) as D
    by (intros v; unfold dot, opp; cbn [vx vy]; ring).
  intros ([v1 [I1 E1]] & [v2 [I2 E2]] & H). split; [|split].
  - exists v2. split; [exact I2|]. rewrite D. lra.
  - exists v1. split; [exact I1|]. rewrite D. lra.
  - intros v Hv. rewrite D. specialize (H v Hv). lra.
Qed.

(** Turning the axis round does not change the overlap. *)
Lemma intervalOverlap_opp (A B : list Vec) (n : Vec) (o : R) :
  intervalOverlap A B n o -> intervalOverlap A B (opp n) o.
Proof.
  intros (alo & ahi & blo & bhi & CA & CB & ->).
  exists (- ahi), (- alo), (- bhi), (- blo).
  split; [apply coversAlong_opp, CA|]. split; [apply coversAlong_opp, CB|].
  unfold Rmin, Rmax. repeat destruct (Rle_dec _ _); lra.
Qed.

Lemma opp_opp (n : Vec) : opp (opp n) = n.
Proof. destruct n as [x y]. unfold opp. cbn [vx vy]. f_equal; ring. Qed.

(** The edge read by iteration [i] of [checkAxes]. *)
Lemma edgeOf_nth (V : list Vec) (i : nat) :
  (i < length V)%nat ->
  edgeOf V (nth i V (mkVec 0 0)) (nth ((i + 1) mod length V) V (mkVec 0 0)).
Proof.
  intros Hi. exists i. split; [apply nth_error_nth'; exact Hi|].
  replace (i + 1)%nat with (S i) by lia.
  destruct (Nat.eq_dec (S i) (length V)) as [E|E].
  - right. split; [exact E|]. rewrite E, Nat.Div0.mod_same.
    apply nth_error_nth'. lia.
  - left. rewrite Nat.mod_small by lia. apply nth_error_nth'. lia.
Qed.

Lemma edgeOf_index (V : list Vec) (a b : Vec) :
  edgeOf V a b ->
  exists i, (i < length V)%nat
            /\ nth i V (mkVec 0 0) = a /\ nth ((i + 1) mod length V) V (mkVec 0 0) = b.
Proof.
  intros (i & Ha & Hb).
  assert (i < length V)%nat as Hi by (apply nth_error_Some; congruence).
  exists i. split; [exact Hi|]. split; [apply nth_error_nth; exact Ha|].
  replace (i + 1)%nat with (S i) by lia.
  destruct Hb as [Hb|[E Hb]].
  - assert (S i < length V)%nat by (apply nth_error_Some; congruence).
    rewrite Nat.mod_small by lia. apply nth_error_nth; exact Hb.
  - rewrite E, Nat.Div0.mod_same. apply nth_error_nth; exact Hb.
Qed.

(** Every axis the code tests is a normalised normal of an edge of non-zero
    length. *)
Lemma edgeAxis_normal (V : list Vec) (i : nat) (n : Vec) :
  (i < length V)%nat -> edgeAxis V i = Some n ->
  exists a b, edgeOf V a b /\ unitNormalOf a b n.
Proof.
  intros Hi H.
  exists (nth i V (mkVec 0 0)), (nth ((i + 1) mod length V) V (mkVec 0 0)).
  split; [apply edgeOf_nth; exact Hi|].
  pose proof (edgeAxis_unit V i n H) as Hu.
  assert (edgeAxis V i <> None) as Hn by congruence.
  rewrite edgeAxis_None_iff in Hn.
  split; [congruence|]. split; [exact Hu|].
  unfold edgeAxis in H. cbv zeta in H.
  destruct (_ =? 0) eqn:E; [discriminate|]. bools.
  injection H as <-. cbn [vx vy]. field. exact E.
Qed.

(** A normalised normal of a non-zero edge is the axis the code computes
    for that edge, or its opposite. *)
Lemma unitNormal_edgeAxis (V : list Vec) (i : nat) (n : Vec) :
  unitNormalOf (nth i V (mkVec 0 0)) (nth ((i + 1) mod length V) V (mkVec 0 0)) n ->
  edgeAxis V i = Some n \/ edgeAxis V i = Some (opp n).
Proof.
  intros (Hne & Hu & Hp).
  destruct (edgeAxis V i) as [m|] eqn:E.
  2:{ apply edgeAxis_None_iff in E. congruence. }
  pose proof (edgeAxis_unit V i m E) as Hm. unfold isUnit in Hm.
  unfold edgeAxis in E. cbv zeta in E.
  set (a := nth i V (mkVec 0 0)) in *. set (b := nth ((i + 1) mod length V) V (mkVec 0 0)) in *.
  destruct (_ =? 0) eqn:El; [discriminate|]. bools.
  set (ex := vx b - vx a) in *. set (ey := vy b - vy a) in *.
  pose proof (hypot_sqr (- ey) ex) as Hs.
  pose proof (hypot_nonneg (- ey) ex) as H0.
  set (L := hypot (- ey) ex) in *.
  injection E as E. destruct n as [nx ny]. cbn [vx vy] in *.
  set (c := nx * - ey + ny * ex).
  assert (c * c = L * L) as Hc by (unfold c; nra).
  assert (c = L \/ c = - L) as [Hc'|Hc'].
  { assert ((c - L) * (c + L) = 0) as Hz by nra.
    apply Rmult_integral in Hz. destruct Hz; [left|right]; lra. }
  - assert (nx * L = - ey) as Hx.
    { rewrite <- Hc'. unfold c.
      replace (nx * (nx * - ey + ny * ex))
        with (ny * (nx * ex + ny * ey) - ey * (nx * nx + ny * ny)) by ring.
      rewrite Hp, Hu. ring. }
    assert (ny * L = ex) as Hy.
    { rewrite <- Hc'. unfold c.
      replace (ny * (nx * - ey + ny * ex))
        with (ex * (nx * nx + ny * ny) - nx * (nx * ex + ny * ey)) by ring.
      rewrite Hp, Hu. ring. }
    left. f_equal. rewrite <- E. f_equal.
    + rewrite <- Hx. field. exact El.
    + rewrite <- Hy. field. exact El.
  - assert (nx * L = ey) as Hx.
    { replace L with (- c) by lra. unfold c.
      replace (nx * - (nx * - ey + ny * ex))
        with (ey * (nx * nx + ny * ny) - ny * (nx * ex + ny * ey)) by ring.
      rewrite Hp, Hu. ring. }
    assert (ny * L = - ex) as Hy.
    { replace L with (- c) by lra. unfold c.
      replace (ny * - (nx * - ey + ny * ex))
        with (nx * (nx * ex + ny * ey) - ex * (nx * nx + ny * ny)) by ring.
      rewrite Hp, Hu. ring. }
    right. f_equal. rewrite <- E. unfold opp. cbn [vx vy]. f_equal.
    + rewrite <- Hx. field. exact El.
    + replace ex with (- (ny * L)) by lra. field. exact El.
Qed.

Lemma In_axesOf (V : list Vec) (n : Vec) :
  In n (axesOf V) <-> exists i, (i < length V)%nat /\ edgeAxis V i = Some n.
Proof.
  unfold axesOf, axesFrom. rewrite in_flat_map. split.
  - intros (i & Hi & Hn). apply in_seq in Hi. exists i. split; [lia|].
    destruct (edgeAxis V i) as [m|]; [|contradiction].
    destruct Hn as [->|[]]. reflexivity.
  - intros (i & Hi & E). exists i. split; [apply in_seq; lia|].
    rewrite E. left. reflexivity.
Qed.

(** The axes the code tests are edge-normal axes of the pair, and every
    edge-normal axis of the pair is tested, itself or turned round. *)
Lemma tested_edgeNormal (A B : list Vec) (n : Vec) :
  In n (axesOf A ++ axesOf B) -> edgeNormalAxis A B n.
Proof.
  intros H. apply in_app_or in H.
  destruct H as [H|H]; apply In_axesOf in H; destruct H as (i & Hi & E);
    destruct (edgeAxis_normal _ _ _ Hi E) as (a & b & He & Hn);
    exists a, b; split; auto.
Qed.

Lemma edgeNormal_tested (A B : list Vec) (n : Vec) :
  edgeNormalAxis A B n ->
  In n (axesOf A ++ axesOf B) \/ In (opp n) (axesOf A ++ axesOf B).
Proof.
  intros (a & b & He & Hn).
  assert (forall V, edgeOf V a b -> In n (axesOf V) \/ In (opp n) (axesOf V)) as Hside.
  { intros V HV. apply edgeOf_index in HV. destruct HV as (i & Hi & <- & <-).
    destruct (unitNormal_edgeAxis V i n Hn) as [E|E]; [left|right];
      apply In_axesOf; exists i; auto. }
  destruct He as [He|He]; destruct (Hside _ He) as [H|H]; [left|right|left|right];
    apply in_or_app; auto.
Qed.

(** The overlap of an edge-normal axis is the overlap the code finds for an
    axis it tests. *)
Lemma edgeNormal_overlap (A B : list Vec) (n : Vec) (o : R) :
  edgeNormalAxis A B n -> intervalOverlap A B n o ->
  exists m, In m (axesOf A ++ axesOf B) /\ overlapOn A B m = Some o.
Proof.
  intros Hn Ho. destruct (edgeNormal_tested A B n Hn) as [H|H].
  - exists n. split; [exact H|]. apply intervalOverlap_overlapOn. exact Ho.
  - exists (opp n). split; [exact H|].
    apply intervalOverlap_overlapOn, intervalOverlap_opp. exact Ho.
Qed.

(** C4.  For two polygons with at least one vertex each (in particular with
    at least three), [polygonPolygonSAT] returns [null] exactly when along
    some edge-normal axis, a normalised normal of an edge of non-zero length
    of one of the two polygons, the interval overlap of the two polygons is
    [<= 0].  Otherwise, when some edge has a non-zero length, it returns
    [{normal, depth}] where [normal] is such an axis (of length 1), [depth] is
    the interval overlap along it, [depth > 0], and no edge-normal axis of
    either polygon has a smaller overlap.  Edges of length zero give no axis:
    when every edge of both polygons has length zero the result is the object
    with a null normal. *)
Theorem polygonPolygonSAT_spec (vertsA vertsB : list Vec) :
  vertsA <> [] -> vertsB <> [] ->
  (polygonPolygonSAT vertsA vertsB = None <->
   exists axis o,
     edgeNormalAxis vertsA vertsB axis /\ intervalOverlap vertsA vertsB axis o /\ o <= 0)
  /\ ((exists axis, edgeNormalAxis vertsA vertsB axis) ->
      polygonPolygonSAT vertsA vertsB <> None ->
      exists normal depth,
        polygonPolygonSAT vertsA vertsB = Some (Some (normal, depth))
        /\ edgeNormalAxis vertsA vertsB normal
        /\ vx normal * vx normal + vy normal * vy normal = 1
        /\ intervalOverlap vertsA vertsB normal depth
        /\ 0 < depth
        /\ forall axis o,
             edgeNormalAxis vertsA vertsB axis -> intervalOverlap vertsA vertsB axis o ->
             depth <= o)
  /\ ((forall axis, ~ edgeNormalAxis vertsA vertsB axis) ->
      polygonPolygonSAT vertsA vertsB = Some None).
Proof.
  intros HA HB. split; [|split].
  - rewrite polygonPolygonSAT_None. split.
    + intros (axis & Hin & Hs). unfold separates in Hs.
      destruct (overlapOn_some vertsA vertsB axis HA HB) as (o & Ho).
      rewrite Ho in Hs. exists axis, o.
      split; [apply tested_edgeNormal; exact Hin|].
      split; [apply intervalOverlap_overlapOn; exact Ho|exact Hs].
    + intros (axis & o & Hn & Ho & Hle).
      destruct (edgeNormal_overlap _ _ _ _ Hn Ho) as (m & Hin & Hm).
      exists m. split; [exact Hin|]. unfold separates. rewrite Hm. exact Hle.
  - intros (axis0 & Hn0) Hnot.
    destruct (polygonPolygonSAT vertsA vertsB) as [best|] eqn:E; [|congruence].
    pose proof (polygonPolygonSAT_Some _ _ _ E) as Hl.
    destruct best as [[n d]|].
    + destruct (polygonPolygonSAT_hit _ _ _ _ E) as [Hu Hd].
      destruct Hl as (Hin & Ho & Hmin).
      exists n, d. split; [reflexivity|].
      split; [apply tested_edgeNormal; exact Hin|]. split; [exact Hu|].
      split; [apply intervalOverlap_overlapOn; exact Ho|]. split; [exact Hd|].
      intros axis o Hn Hov.
      destruct (edgeNormal_overlap _ _ _ _ Hn Hov) as (m & Hm & Hom).
      exact (Hmin m o Hm Hom).
    + cbn in Hl. exfalso.
      destruct (edgeNormal_tested _ _ _ Hn0) as [H|H]; rewrite Hl in H; exact H.
  - intros Hnone.
    destruct (polygonPolygonSAT vertsA vertsB) as [best|] eqn:E.
    + pose proof (polygonPolygonSAT_Some _ _ _ E) as Hl.
      destruct best as [[n d]|]; [|reflexivity].
      destruct Hl as (Hin & _). exfalso.
      exact (Hnone n (tested_edgeNormal _ _ _ Hin)).
    + apply polygonPolygonSAT_None in E. destruct E as (axis & Hin & _).
      exfalso. exact (Hnone axis (tested_edgeNormal _ _ _ Hin)).
Qed.

(** An instance: two boxes that overlap. *)
Lemma polygonPolygonSAT_spec_witness :
  polygonPolygonSAT (boxAt 0.3 0.3 0 0) (boxAt 0.03 0.03 0.32 0) = None <->
  exists axis o,
    edgeNormalAxis (boxAt 0.3 0.3 0 0) (boxAt 0.03 0.03 0.32 0) axis
    /\ intervalOverlap (boxAt 0.3 0.3 0 0) (boxAt 0.03 0.03 0.32 0) axis o /\ o <= 0.
Proof.
  apply (polygonPolygonSAT_spec (boxAt 0.3 0.3 0 0) (boxAt 0.03 0.03 0.32 0));
    unfold boxAt; discriminate.
Defined.

(** ** Rigid motions keep the edges of non-zero length *)

Lemma transform_injective (px py rot : R) (v v' : Vec) :
  mkVec (vx v * cos rot - vy v * sin rot + px) (vx v * sin rot + vy v * cos rot + py)
  = mkVec (vx v' * cos rot - vy v' * sin rot + px) (vx v' * sin rot + vy v' * cos rot + py)
  -> v = v'.
Proof.
  destruct v as [x y], v' as [x' y']. cbn [vx vy]. intros H.
  injection H as H1 H2.
  pose proof (sin2_cos2 rot) as Hsc. unfold Rsqr in Hsc.
  set (c := cos rot) in *. set (s := sin rot) in *.
  assert ((x - x') * (x - x') + (y - y') * (y - y') = 0) as Hz.
  { replace ((x - x') * (x - x') + (y - y') * (y - y'))
      with (((x - x') * (x - x') + (y - y') * (y - y')) * (s * s + c * c))
      by (rewrite Hsc; ring).
    replace (((x - x') * (x - x') + (y - y') * (y - y')) * (s * s + c * c))
      with (((x * c - y * s + px) - (x' * c - y' * s + px))
            * ((x * c - y * s + px) - (x' * c - y' * s + px))
            + ((x * s + y * c + py) - (x' * s + y' * c + py))
              * ((x * s + y * c + py) - (x' * s + y' * c + py))) by ring.
    rewrite H1, H2. ring. }
  pose proof (Rle_0_sqr (x - x')) as Sx. pose proof (Rle_0_sqr (y - y')) as Sy.
  unfold Rsqr in Sx, Sy.
  assert ((x - x') * (x - x') = 0) as Zx by lra.
  assert ((y - y') * (y - y') = 0) as Zy by lra.
  apply Rmult_integral in Zx, Zy.
  f_equal; [destruct Zx|destruct Zy]; lra.
Qed.

Lemma edgeAxis_transform_None (lv : list Vec) (px py rot : R) (i : nat) :
  (i < length lv)%nat ->
  (edgeAxis (transformVerts lv px py rot) i = None <-> edgeAxis lv i = None).
Proof.
  intros Hi. rewrite !edgeAxis_None_iff. unfold transformVerts. cbv zeta.
  rewrite length_map.
  set (f := fun v : Vec => _).
  assert ((i + 1) mod length lv < length lv)%nat as Hj
    by (apply Nat.mod_upper_bound; lia).
  set (j := ((i + 1) mod length lv)%nat) in *.
  rewrite (nth_indep (map f lv) (mkVec 0 0) (f (mkVec 0 0)))
    by (rewrite length_map; exact Hj).
  rewrite (nth_indep (map f lv) (mkVec 0 0) (f (mkVec 0 0)) (n := i))
    by (rewrite length_map; exact Hi).
  rewrite !map_nth. split.
  - intros H. unfold f in H. apply transform_injective in H. exact H.
  - intros ->. reflexivity.
Qed.

Lemma axesFrom_nil_iff (V : list Vec) (idxs : list nat) :
  axesFrom V idxs = [] <-> forall i, In i idxs -> edgeAxis V i = None.
Proof.
  induction idxs as [|i rest IH].
  - cbn. split; [intros _ i []|reflexivity].
  - rewrite axesFrom_cons. destruct (edgeAxis V i) eqn:E.
    + cbn [app]. split; [discriminate|]. intros H.
      specialize (H i (or_introl eq_refl)). congruence.
    + cbn [app]. rewrite IH. split.
      * intros H k [<-|Hk]; auto.
      * intros H k Hk. apply H. right. exact Hk.
Qed.

Lemma axesOf_world (b : Body) :
  axesOf (getWorldVertices b) = [] <-> axesOf (localVerts b) = [].
Proof.
  unfold axesOf, getWorldVertices. rewrite !axesFrom_nil_iff.
  unfold transformVerts at 1. cbv zeta. rewrite length_map.
  split; intros H i Hi; specialize (H i Hi); apply in_seq in Hi;
    apply (edgeAxis_transform_None (localVerts b) (posX b) (posY b) (rotZ b) i);
    try lia; exact H.
Qed.

(** With a proper polygon on one side the test never returns a null
    normal. *)
Lemma polygonPolygonSAT_proper (a b : Body) :
  proper a ->
  polygonPolygonSAT (getWorldVertices a) (getWorldVertices b) <> Some None.
Proof.
  intros Hp H. apply polygonPolygonSAT_Some in H. cbn in H.
  apply app_eq_nil in H. destruct H as [H _].
  apply axesOf_world in H. exact (Hp H).
Qed.

(** ** The pair loop of [updatePhysics]: structure *)

Lemma setNth_length (n : nat) (x : Body) (l : list Body) :
  length (setNth n x l) = length l.
Proof.
  revert n. induction l as [|h t IH]; intros [|n]; cbn; auto.
Qed.

Lemma setNth_same (n : nat) (x : Body) (l : list Body) :
  nth_error l n = Some x -> setNth n x l = l.
Proof.
  revert n. induction l as [|h t IH]; intros [|n]; cbn; intros H; try discriminate.
  - congruence.
  - rewrite IH; auto.
Qed.

Section Pointwise.

Variable Rel : Body -> Body -> Prop.
Hypothesis Rel_refl : forall x, Rel x x.

Lemma Forall2_refl_list (l : list Body) : Forall2 Rel l l.
Proof. induction l; constructor; auto. Qed.

Lemma Forall2_setNth (n : nat) (x x' : Body) (l : list Body) :
  nth_error l n = Some x -> Rel x x' -> Forall2 Rel l (setNth n x' l).
Proof.
  revert n. induction l as [|h t IH]; intros [|n]; cbn; intros H HR; try discriminate.
  - injection H as ->. constructor; [exact HR|apply Forall2_refl_list].
  - constructor; [apply Rel_refl|apply IH; auto].
Qed.

Lemma Forall2_setNth2 (i j : nat) (a a' b b' : Body) (l : list Body) :
  nth_error l i = Some a -> nth_error l j = Some b -> Rel a a' -> Rel b b' ->
  Forall2 Rel l (setNth j b' (setNth i a' l)).
Proof.
  revert i j. induction l as [|h t IH]; intros [|i] [|j]; cbn; intros Hi Hj Ha Hb;
    try discriminate.
  - injection Hj as ->. constructor; [exact Hb|apply Forall2_refl_list].
  - injection Hi as ->. constructor; [exact Ha|]. eapply Forall2_setNth; eauto.
  - injection Hj as ->. constructor; [exact Hb|]. eapply Forall2_setNth; eauto.
  - constructor; [apply Rel_refl|]. apply IH; auto.
Qed.

Hypothesis Rel_collide : forall ct a b a' b',
  collidePair ct a b = Some (a', b') -> Rel a a' /\ Rel b b'.

Lemma pairStep_pointwise (ct : bool) (i j : nat) (bs bs' : list Body) :
  pairStep ct i j bs = Some bs' -> Forall2 Rel bs bs'.
Proof.
  unfold pairStep.
  destruct (nth_error bs i) as [a|] eqn:Ei;
    [|intros H; injection H as <-; apply Forall2_refl_list].
  destruct (nth_error bs j) as [b|] eqn:Ej;
    [|intros H; injection H as <-; apply Forall2_refl_list].
  destruct (collidePair ct a b) as [[a' b']|] eqn:Ec; [|discriminate].
  intros H. injection H as <-.
  destruct (Rel_collide _ _ _ _ _ Ec) as [Ha Hb].
  eapply Forall2_setNth2; eauto.
Qed.

End Pointwise.

Section PairLoops.

Variable Q : list Body -> list Body -> Prop.
Hypothesis Q_refl : forall bs, Q bs bs.
Hypothesis Q_trans : forall b1 b2 b3, Q b1 b2 -> Q b2 b3 -> Q b1 b3.
Variable ct : bool.
Hypothesis Q_step : forall i j bs bs',
  (i < j)%nat -> pairStep ct i j bs = Some bs' -> Q bs bs'.

Lemma innerLoop_rel (i : nat) (js : list nat) :
  (forall j, In j js -> (i < j)%nat) ->
  forall bs bs', innerLoop ct i js bs = Some bs' -> Q bs bs'.
Proof.
  induction js as [|j rest IH]; intros Hjs bs bs' H.
  - cbn in H. injection H as <-. apply Q_refl.
  - cbn in H. destruct (pairStep ct i j bs) as [bs1|] eqn:E; [|discriminate].
    eapply Q_trans.
    + eapply Q_step; [|exact E]. apply Hjs. left. reflexivity.
    + apply IH; auto. intros k Hk. apply Hjs. right. exact Hk.
Qed.

Lemma outerLoop_rel (n : nat) (idxs : list nat) :
  forall bs bs', outerLoop ct n idxs bs = Some bs' -> Q bs bs'.
Proof.
  induction idxs as [|i rest IH]; intros bs bs' H.
  - cbn in H. injection H as <-. apply Q_refl.
  - cbn in H.
    destruct (innerLoop ct i (seq (S i) (n - S i)) bs) as [bs1|] eqn:E; [|discriminate].
    eapply Q_trans.
    + eapply innerLoop_rel; [|exact E]. intros j Hj. apply in_seq in Hj. lia.
    + apply IH. exact H.
Qed.

Lemma collideAll_rel (bs bs' : list Body) :
  collideAll ct bs = Some bs' -> Q bs bs'.
Proof. unfold collideAll. apply outerLoop_rel. Qed.

End PairLoops.

(** Pointwise relations that are preserved by [collidePair] hold between
    the list before and the list after the whole pair loop. *)
Lemma collideAll_pointwise (Rel : Body -> Body -> Prop) (ct : bool) :
  (forall x, Rel x x) ->
  (forall x y z, Rel x y -> Rel y z -> Rel x z) ->
  (forall ct a b a' b', collidePair ct a b = Some (a', b') -> Rel a a' /\ Rel b b') ->
  forall bs bs', collideAll ct bs = Some bs' -> Forall2 Rel bs bs'.
Proof.
  intros Hrefl Htrans Hcol.
  apply (collideAll_rel (Forall2 Rel)).
  - intros bs. apply Forall2_refl_list. exact Hrefl.
  - intros b1 b2. revert b1. induction b2 as [|y t IH]; intros b1 b3 H12 H23.
    + inversion H12; subst. exact H23.
    + inversion H12; subst. inversion H23; subst.
      constructor; [eapply Htrans; eauto|eapply IH; eauto].
  - intros i j bs bs' _ H. eapply pairStep_pointwise; eauto.
Qed.

(** ** What a contact leaves alone *)

Lemma sameStatic_refl (b : Body) : sameStatic b b.
Proof. unfold sameStatic. repeat split. Qed.

Lemma sameStatic_trans (x y z : Body) :
  sameStatic x y -> sameStatic y z -> sameStatic x z.
Proof. unfold sameStatic. intuition congruence. Qed.

Lemma pinned_refl (b : Body) : pinned b b.
Proof. split; [apply sameStatic_refl|auto]. Qed.

Lemma pinned_trans (x y z : Body) : pinned x y -> pinned y z -> pinned x z.
Proof.
  intros [S1 P1] [S2 P2]. split; [eapply sameStatic_trans; eauto|].
  intros Hd. destruct (P1 Hd) as [A [B C]].
  assert (isDragged y = true) as Hy by (unfold sameStatic in S1; intuition congruence).
  destruct (P2 Hy) as [A' [B' C']]. repeat split; congruence.
Qed.

(** Projections of bodies built by the setters. *)
Ltac simp_body :=
  cbn [id posX posY rotZ localVerts boundingRadius contactRadius mass invMass
       velocity angularVelocity shapeType colorIndex isMagnetAnchored isDragged
       speedScale setId setPos setRot setVelocity setAngularVelocity
       setColorIndex setMagnetAnchored setSpeedScale vx vy fst snd] in *.

Ltac split_ifs :=
  repeat match goal with
  | |- context [if ?c then _ else _] => destruct c eqn:?
  end.

Lemma resolveContact_static (ct : bool) (n : Vec) (d : R) (a b : Body) :
  sameStatic a (fst (resolveContact ct n d a b))
  /\ sameStatic b (snd (resolveContact ct n d a b)).
Proof.
  unfold resolveContact, applyImpulse, transferColorOnCollision. cbv zeta.
  split_ifs; cbn; unfold sameStatic; cbn; repeat split.
Qed.

Lemma vec_eta (v : Vec) (x y : R) : x = vx v -> y = vy v -> mkVec x y = v.
Proof. destruct v. cbn. intros -> ->. reflexivity. Qed.

Lemma resolveContact_dragged_a (ct : bool) (n : Vec) (d : R) (a b : Body) :
  isDragged a = true ->
  let a' := fst (resolveContact ct n d a b) in
  posX a' = posX a /\ posY a' = posY a /\ velocity a' = velocity a.
Proof.
  intros Hd. unfold resolveContact, applyImpulse, transferColorOnCollision.
  cbv zeta. simp_body. rewrite Hd.
  split_ifs; simp_body; repeat split; try (unfold Rdiv; ring);
    apply vec_eta; ring.
Qed.

Lemma resolveContact_dragged_b (ct : bool) (n : Vec) (d : R) (a b : Body) :
  isDragged b = true ->
  let b' := snd (resolveContact ct n d a b) in
  posX b' = posX b /\ posY b' = posY b /\ velocity b' = velocity b.
Proof.
  intros Hd. unfold resolveContact, applyImpulse, transferColorOnCollision.
  cbv zeta. simp_body. rewrite Hd.
  split_ifs; simp_body; repeat split; try (unfold Rdiv; ring);
    apply vec_eta; ring.
Qed.

Lemma collidePair_pinned (ct : bool) (a b a' b' : Body) :
  collidePair ct a b = Some (a', b') -> pinned a a' /\ pinned b b'.
Proof.
  unfold collidePair.
  destruct (polygonPolygonSAT _ _) as [[[n d]|]|]; intros H; try discriminate.
  - injection H as H. 
    pose proof (resolveContact_static ct n d a b) as [Sa Sb].
    pose proof (resolveContact_dragged_a ct n d a b) as Da.
    pose proof (resolveContact_dragged_b ct n d a b) as Db.
    rewrite H in *. cbn in *. split; split; auto.
  - injection H as <- <-. split; apply pinned_refl.
Qed.

Lemma collidePair_static (ct : bool) (a b a' b' : Body) :
  collidePair ct a b = Some (a', b') -> sameStatic a a' /\ sameStatic b b'.
Proof.
  intros H. apply collidePair_pinned in H. destruct H as [[A _] [B _]]. auto.
Qed.

(** *** The pair loop never stops on proper polygons *)

Lemma proper_static (b b' : Body) : sameStatic b b' -> proper b -> proper b'.
Proof. unfold sameStatic, proper. intros H. intuition congruence. Qed.

Lemma Forall2_static_proper (bs bs' : list Body) :
  Forall2 sameStatic bs bs' -> Forall proper bs -> Forall proper bs'.
Proof.
  induction 1 as [|x y l l' Hxy _ IH]; intros Hp; constructor; inversion Hp; subst.
  - eapply proper_static; eauto.
  - apply IH. assumption.
Qed.

Lemma pairStep_total (ct : bool) (i j : nat) (bs : list Body) :
  Forall proper bs ->
  exists bs', pairStep ct i j bs = Some bs' /\ Forall proper bs'.
Proof.
  intros Hp.
  destruct (pairStep ct i j bs) as [bs'|] eqn:E.
  - exists bs'. split; [reflexivity|].
    eapply Forall2_static_proper; [|exact Hp].
    eapply (pairStep_pointwise sameStatic); eauto using sameStatic_refl.
    intros. eapply collidePair_static; eauto.
  - exfalso. unfold pairStep in E.
    destruct (nth_error bs i) as [a|] eqn:Ei; [|discriminate].
    destruct (nth_error bs j) as [b|] eqn:Ej; [|discriminate].
    unfold collidePair in E.
    pose proof (polygonPolygonSAT_proper a b) as Hn.
    destruct (polygonPolygonSAT _ _) as [[[n d]|]|]; try discriminate.
    + destruct (resolveContact ct n d a b); discriminate.
    + apply Hn; [|reflexivity].
      rewrite Forall_forall in Hp. apply Hp. eapply nth_error_In; eauto.
Qed.

Lemma innerLoop_total (ct : bool) (i : nat) (js : list nat) :
  forall bs, Forall proper bs ->
  exists bs', innerLoop ct i js bs = Some bs' /\ Forall proper bs'.
Proof.
  induction js as [|j rest IH]; intros bs Hp.
  - exists bs. split; [reflexivity|exact Hp].
  - cbn. destruct (pairStep_total ct i j bs Hp) as [bs1 [E Hp1]]. rewrite E.
    apply IH. exact Hp1.
Qed.

Lemma outerLoop_total (ct : bool) (n : nat) (idxs : list nat) :
  forall bs, Forall proper bs ->
  exists bs', outerLoop ct n idxs bs = Some bs' /\ Forall proper bs'.
Proof.
  induction idxs as [|i rest IH]; intros bs Hp.
  - exists bs. split; [reflexivity|exact Hp].
  - cbn. destruct (innerLoop_total ct i (seq (S i) (n - S i)) bs Hp) as [bs1 [E Hp1]].
    rewrite E. apply IH. exact Hp1.
Qed.

Lemma collideAll_total (ct : bool) (bs : list Body) :
  Forall proper bs -> exists bs', collideAll ct bs = Some bs'.
Proof.
  intros Hp. destruct (outerLoop_total ct (length bs) (seq 0 (length bs)) bs Hp)
    as [bs' [E _]].
  exists bs'. exact E.
Qed.

(** ** The move phase *)

Lemma moveBody_static (dt bx by_ : R) (b : Body) :
  sameStatic b (moveBody dt bx by_ b).
Proof.
  unfold moveBody, integrateRotation, bounceX, bounceY. cbv zeta. simp_body.
  split_ifs; simp_body; unfold sameStatic; simp_body; repeat split.
Qed.

Lemma moveBody_dragged (dt bx by_ : R) (b : Body) :
  isDragged b = true ->
  moveBody dt bx by_ b = setVelocity b (scaleVec (velocity b) 0.9).
Proof. intros H. unfold moveBody. rewrite H. reflexivity. Qed.

Lemma Forall_proper_map_move (dt bx by_ : R) (bs : list Body) :
  Forall proper bs -> Forall proper (map (moveBody dt bx by_) bs).
Proof.
  intros H. apply Forall_map. eapply Forall_impl; [|exact H].
  intros b Hb. eapply proper_static; [apply moveBody_static|exact Hb].
Qed.

Lemma Forall2_nth_error_left (Rel : Body -> Body -> Prop) (l l' : list Body) :
  Forall2 Rel l l' ->
  forall k x, nth_error l k = Some x -> exists x', nth_error l' k = Some x' /\ Rel x x'.
Proof.
  induction 1 as [|x y l l' Hxy _ IH]; intros [|k] z Hz; cbn in *; try discriminate.
  - injection Hz as <-. eauto.
  - apply IH. exact Hz.
Qed.

(** [updatePhysics] returns normally on proper polygons; its result holds
    the list left by the pair loop. *)
Lemma updatePhysics_running (dt : R) (w : World) :
  physicsEnabled w = true ->
  Forall proper (bodies w) ->
  exists bs,
    collideAll (colorTransferEnabled w)
      (map (moveBody dt (worldBoundsX w) (worldBoundsY w)) (bodies w)) = Some bs
    /\ updatePhysics dt w
       = Some (if existsb stillMoving bs then setBodies w bs
               else setPhysicsEnabled false (setBodies w bs)).
Proof.
  intros He Hp. unfold updatePhysics. rewrite He. cbn [negb].
  destruct (collideAll_total (colorTransferEnabled w)
              (map (moveBody dt (worldBoundsX w) (worldBoundsY w)) (bodies w))) as [bs E].
  { apply Forall_proper_map_move. exact Hp. }
  exists bs. split; [exact E|]. rewrite E.
  destruct (existsb stillMoving bs); reflexivity.
Qed.

Lemma bodies_after_scan (w : World) (bs : list Body) :
  bodies (if existsb stillMoving bs then setBodies w bs
          else setPhysicsEnabled false (setBodies w bs)) = bs.
Proof. destruct (existsb stillMoving bs); reflexivity. Qed.

(** ** C9: a dragged body stays where it is *)

(** C9.  For every body with the dragged flag set, a call of
    [updatePhysics] on proper polygons returns normally and leaves the
    position of that body exactly unchanged; while the simulation runs its
    linear velocity is multiplied by 0.9 and nothing else (it is never
    integrated into the position, and the pair loop gives it neither a
    positional correction nor an impulse); while paused nothing changes. *)
Theorem dragged_body_pinned (dt : R) (w : World) (k : nat) (b : Body) :
  Forall proper (bodies w) ->
  nth_error (bodies w) k = Some b ->
  isDragged b = true ->
  exists w' b',
    updatePhysics dt w = Some w'
    /\ nth_error (bodies w') k = Some b'
    /\ posX b' = posX b /\ posY b' = posY b
    /\ velocity b' = (if physicsEnabled w then scaleVec (velocity b) 0.9 else velocity b)
    /\ isDragged b' = true.
Proof.
  intros Hp Hk Hd.
  destruct (physicsEnabled w) eqn:He.
  - destruct (updatePhysics_running dt w He Hp) as [bs [Ec Eu]].
    pose proof (collideAll_pointwise pinned (colorTransferEnabled w)
                  pinned_refl pinned_trans collidePair_pinned _ _ Ec) as HF.
    assert (nth_error (map (moveBody dt (worldBoundsX w) (worldBoundsY w)) (bodies w)) k
            = Some (setVelocity b (scaleVec (velocity b) 0.9))) as Hm.
    { rewrite nth_error_map, Hk. cbn. rewrite moveBody_dragged by exact Hd. reflexivity. }
    destruct (Forall2_nth_error_left _ _ _ HF _ _ Hm) as [b' [Hb' [Hs Hpin]]].
    destruct (Hpin Hd) as [Px [Py Pv]].
    eexists. exists b'. split; [exact Eu|].
    rewrite bodies_after_scan. split; [exact Hb'|].
    simp_body. split; [exact Px|]. split; [exact Py|]. split; [exact Pv|].
    unfold sameStatic in Hs. simp_body. intuition congruence.
  - exists w, b. unfold updatePhysics. rewrite He. cbn. auto 10.
Qed.

Lemma proper_intro (b : Body) (i : nat) :
  (i < length (localVerts b))%nat ->
  nth ((i + 1) mod length (localVerts b)) (localVerts b) (mkVec 0 0)
    <> nth i (localVerts b) (mkVec 0 0) ->
  proper b.
Proof.
  intros Hi Hne Hnil. unfold proper, axesOf in *.
  rewrite axesFrom_nil_iff in Hnil.
  apply Hne. apply edgeAxis_None_iff. apply Hnil. apply in_seq. lia.
Qed.

Lemma heldTriangle_proper : proper heldTriangle.
Proof.
  apply (proper_intro heldTriangle 0); cbn; [lia|].
  intros H. injection H as H1 H2. lra.
Qed.

Lemma dragged_body_pinned_witness :
  exists w' b',
    updatePhysics fixedStep heldWorld = Some w'
    /\ nth_error (bodies w') 0 = Some b'
    /\ posX b' = 0 /\ posY b' = 0
    /\ velocity b' = scaleVec (mkVec 1 0) 0.9
    /\ isDragged b' = true.
Proof.
  apply (dragged_body_pinned fixedStep heldWorld 0 heldTriangle).
  - constructor; [exact heldTriangle_proper|constructor].
  - reflexivity.
  - reflexivity.
Defined.

(** ** C6: the impulse of an approaching contact *)

Lemma spins_true (s : ShapeType) : spins s = true.
Proof. destruct s; reflexivity. Qed.

Lemma clampAngular_bound (w : R) : Rabs (clampAngular 4.0 w) <= 4.
Proof.
  unfold clampAngular. split_ifs; bools; apply Rabs_le; lra.
Qed.

Lemma orientNormal_unit (a b : Body) (n : Vec) : isUnit n -> isUnit (orientNormal a b n).
Proof.
  unfold orientNormal, isUnit. cbv zeta. split_ifs; cbn [vx vy]; intros H; [|exact H].
  rewrite <- H. ring.
Qed.

(** The response of [resolveContact] for two free bodies, with [n] the
    oriented normal and [vn] the relative normal velocity before. *)
Lemma resolveContact_impulse (ct : bool) (normal0 : Vec) (depth : R) (a b : Body) :
  isUnit normal0 ->
  isDragged a = false -> isDragged b = false ->
  0 < invMass a -> 0 < invMass b ->
  let a' := fst (resolveContact ct normal0 depth a b) in
  let b' := snd (resolveContact ct normal0 depth a b) in
  let n := orientNormal a b normal0 in
  let vn := relVelAlong n a b in
  let j := 2 * (- vn) / (invMass a + invMass b) in
  (vn < 0 ->
     relVelAlong n a' b' = - vn
     /\ vx (velocity a') = vx (velocity a) - j * invMass a * vx n
     /\ vy (velocity a') = vy (velocity a) - j * invMass a * vy n
     /\ vx (velocity b') = vx (velocity b) + j * invMass b * vx n
     /\ vy (velocity b') = vy (velocity b) + j * invMass b * vy n
     /\ Rabs (angularVelocity a') <= 4
     /\ Rabs (angularVelocity b') <= 4)
  /\ (0 <= vn ->
      velocity a' = velocity a /\ velocity b' = velocity b
      /\ angularVelocity a' = angularVelocity a
      /\ angularVelocity b' = angularVelocity b).
Proof.
  intros Hu Ha Hb Hia Hib. cbv zeta.
  pose proof (orientNormal_unit a b normal0 Hu) as Hn.
  set (n := orientNormal a b normal0) in *.
  unfold resolveContact. cbv zeta. fold n. simp_body. rewrite Ha, Hb.
  destruct (invMass a + invMass b =? 0) eqn:Es; bools; [lra|].
  fold (relVelAlong n a b). set (vn := relVelAlong n a b).
  destruct (vn <? 0) eqn:Ev; bools.
  - split; [intros _|intros; lra].
    unfold applyImpulse. cbv zeta. simp_body. rewrite Ha, Hb.
    destruct (invMass a + invMass b =? 0) eqn:Es2; bools; [lra|].
    rewrite !spins_true. unfold isUnit in Hn.
    assert (invMass a + invMass b <> 0) as Hs by lra.
    destruct ct; unfold transferColorOnCollision; simp_body;
      (split; [|repeat split; try apply clampAngular_bound;
                 unfold vn, relVelAlong; lra]);
      unfold relVelAlong; simp_body; fold vn;
      set (nx := vx n) in *; set (ny := vy n) in *;
      set (s := invMass a + invMass b) in *;
      match goal with |- ?lhs = _ =>
        replace lhs with (vn * (1 - 2 * (nx * nx + ny * ny)))
          by (unfold vn, relVelAlong, s; fold nx ny; dec; field; exact Hs)
      end; rewrite Hn; ring.
  - split; [intros; lra|intros _]. simp_body. auto.
Qed.

(** C6.  For a pair of free (non-dragged) bodies of positive inverse mass on
    which the separating-axis test reports a contact, the body of the pair
    loop returns normally, and with [n] the unit normal oriented from [a] to
    [b] and [vn] the relative velocity along [n]: when [vn < 0] the
    velocities change by the impulse [j = 2 * (-vn) / (invMass a + invMass b)]
    along [n], split by inverse mass, so that the relative normal velocity
    afterwards is exactly [-vn], and both angular velocities end within
    [-4, 4]; when [vn >= 0] no velocity and no angular velocity changes. *)
Theorem collision_impulse (ct : bool) (a b : Body) (normal0 : Vec) (depth : R) :
  polygonPolygonSAT (getWorldVertices a) (getWorldVertices b)
    = Some (Some (normal0, depth)) ->
  isDragged a = false -> isDragged b = false ->
  0 < invMass a -> 0 < invMass b ->
  exists a' b',
    collidePair ct a b = Some (a', b')
    /\ let n := orientNormal a b normal0 in
       let vn := relVelAlong n a b in
       let j := 2 * (- vn) / (invMass a + invMass b) in
       isUnit n
       /\ (vn < 0 ->
           relVelAlong n a' b' = - vn
           /\ vx (velocity a') = vx (velocity a) - j * invMass a * vx n
           /\ vy (velocity a') = vy (velocity a) - j * invMass a * vy n
           /\ vx (velocity b') = vx (velocity b) + j * invMass b * vx n
           /\ vy (velocity b') = vy (velocity b) + j * invMass b * vy n
           /\ Rabs (angularVelocity a') <= 4
           /\ Rabs (angularVelocity b') <= 4)
       /\ (0 <= vn ->
           velocity a' = velocity a /\ velocity b' = velocity b
           /\ angularVelocity a' = angularVelocity a
           /\ angularVelocity b' = angularVelocity b).
Proof.
  intros Hsat Ha Hb Hia Hib.
  destruct (polygonPolygonSAT_hit _ _ _ _ Hsat) as [Hu _].
  exists (fst (resolveContact ct normal0 depth a b)),
         (snd (resolveContact ct normal0 depth a b)).
  split.
  - unfold collidePair. rewrite Hsat. rewrite <- surjective_pairing. reflexivity.
  - cbv zeta. split; [apply orientNormal_unit; exact Hu|].
    exact (resolveContact_impulse ct normal0 depth a b Hu Ha Hb Hia Hib).
Qed.

(** ** C8: exchange of colour indices *)

(** The contact between [a] and [b] is resolved with an approaching
    relative normal velocity: the test reports a normal, the inverse masses
    in use do not add up to zero, and the relative velocity along the
    oriented normal is negative. *)
Lemma resolveContact_colors (n0 : Vec) (d : R) (a b : Body) :
  let invMassA := if isDragged a then 0 else invMass a in
  let invMassB := if isDragged b then 0 else invMass b in
  let approaching :=
    invMassA + invMassB <> 0 /\ relVelAlong (orientNormal a b n0) a b < 0 in
  let a' := fst (resolveContact true n0 d a b) in
  let b' := snd (resolveContact true n0 d a b) in
  (approaching -> colorIndex a' = colorIndex b /\ colorIndex b' = colorIndex a)
  /\ (~ approaching -> colorIndex a' = colorIndex a /\ colorIndex b' = colorIndex b).
Proof.
  cbv zeta. unfold resolveContact. cbv zeta. simp_body.
  set (s := (if isDragged a then 0 else invMass a) + (if isDragged b then 0 else invMass b)).
  fold (relVelAlong (orientNormal a b n0) a b).
  set (vn := relVelAlong (orientNormal a b n0) a b).
  destruct (s =? 0) eqn:Es; bools.
  - simp_body. split; [intros [H _]; contradiction|auto].
  - destruct (vn <? 0) eqn:Ev; bools.
    + unfold applyImpulse. cbv zeta. simp_body. fold s.
      destruct (s =? 0) eqn:Es2; bools; [contradiction|].
      rewrite !spins_true. unfold transferColorOnCollision. simp_body.
      split; [auto|]. intros H. exfalso. apply H. split; assumption.
    + simp_body. split; [intros [_ H]; lra|auto].
Qed.

Lemma collidePair_colors_cases (ct : bool) (a b a' b' : Body) :
  collidePair ct a b = Some (a', b') ->
  (colorIndex a' = colorIndex a /\ colorIndex b' = colorIndex b)
  \/ (colorIndex a' = colorIndex b /\ colorIndex b' = colorIndex a).
Proof.
  unfold collidePair.
  destruct (polygonPolygonSAT _ _) as [[[n d]|]|]; intros H; try discriminate.
  - injection H as H. revert H.
    unfold resolveContact, applyImpulse, transferColorOnCollision. cbv zeta.
    rewrite !spins_true.
    split_ifs; intros H; injection H as <- <-; simp_body; auto.
  - injection H as <- <-. auto.
Qed.

Lemma setNth_app (l1 l2 : list Body) (a x : Body) :
  setNth (length l1) x (l1 ++ a :: l2) = l1 ++ x :: l2.
Proof. induction l1 as [|h t IH]; cbn; [reflexivity|]. rewrite IH. reflexivity. Qed.

Lemma split_two (bs : list Body) (i j : nat) (a b : Body) :
  (i < j)%nat -> nth_error bs i = Some a -> nth_error bs j = Some b ->
  exists l1 l2 l3,
    bs = l1 ++ a :: l2 ++ b :: l3 /\ length l1 = i /\ length (l1 ++ a :: l2) = j.
Proof.
  intros Hij Hi Hj.
  destruct (nth_error_split _ _ Hi) as [l1 [t [-> Hl1]]].
  rewrite nth_error_app2 in Hj by lia.
  rewrite Hl1 in Hj.
  destruct (j - i)%nat as [|m] eqn:Em; [lia|]. cbn in Hj.
  destruct (nth_error_split _ _ Hj) as [l2 [l3 [-> Hl2]]].
  exists l1, l2, l3. split; [reflexivity|]. split; [exact Hl1|].
  rewrite length_app. cbn. lia.
Qed.

Lemma swap_two_perm (A : Type) (l1 l2 l3 : list A) (x y : A) :
  Permutation (l1 ++ x :: l2 ++ y :: l3) (l1 ++ y :: l2 ++ x :: l3).
Proof.
  apply Permutation_app_head.
  eapply perm_trans; [apply perm_skip; apply Permutation_sym; apply Permutation_middle|].
  eapply perm_trans; [apply perm_swap|].
  apply perm_skip. apply Permutation_middle.
Qed.

Lemma pairStep_colors_perm (ct : bool) (i j : nat) (bs bs' : list Body) :
  (i < j)%nat -> pairStep ct i j bs = Some bs' ->
  Permutation (map colorIndex bs) (map colorIndex bs').
Proof.
  intros Hij. unfold pairStep.
  destruct (nth_error bs i) as [a|] eqn:Ei;
    [|intros H; injection H as <-; apply Permutation_refl].
  destruct (nth_error bs j) as [b|] eqn:Ej;
    [|intros H; injection H as <-; apply Permutation_refl].
  destruct (collidePair ct a b) as [[a' b']|] eqn:Ec; [|discriminate].
  intros H. injection H as <-.
  destruct (split_two bs i j a b Hij Ei Ej) as [l1 [l2 [l3 [-> [Hl1 Hl2]]]]].
  rewrite <- Hl1 at 1. rewrite setNth_app.
  replace (l1 ++ a' :: l2 ++ b :: l3) with ((l1 ++ a' :: l2) ++ b :: l3)
    by (rewrite <- app_assoc; reflexivity).
  assert (length (l1 ++ a' :: l2) = j) as Hl2'
    by (rewrite length_app in *; cbn in *; lia).
  rewrite <- Hl2'. rewrite setNth_app. rewrite <- app_assoc. cbn [app].
  rewrite !map_app. cbn [map]. rewrite !map_app. cbn [map].
  destruct (collidePair_colors_cases _ _ _ _ _ Ec) as [[-> ->]|[-> ->]].
  - apply Permutation_refl.
  - apply swap_two_perm.
Qed.

Lemma moveBody_color (dt bx by_ : R) (b : Body) :
  colorIndex (moveBody dt bx by_ b) = colorIndex b.
Proof.
  unfold moveBody, integrateRotation, bounceX, bounceY. cbv zeta.
  split_ifs; reflexivity.
Qed.

(** C8.  With colour exchange enabled, the body of the pair loop exchanges
    the colour indices of [a] and [b] exactly when the contact is resolved
    with an approaching relative normal velocity (the test reports a normal,
    the inverse masses in use do not sum to zero, and the relative velocity
    along the oriented normal is negative); in every other case, a grazing
    overlap with non-negative relative normal velocity included, both indices
    stay.  Over a whole call of [updatePhysics] the colour indices of the
    bodies after are a permutation of those before. *)
Theorem color_exchange :
  (forall a b a' b',
     collidePair true a b = Some (a', b') ->
     let approaching :=
       exists n0 d,
         polygonPolygonSAT (getWorldVertices a) (getWorldVertices b) = Some (Some (n0, d))
         /\ (if isDragged a then 0 else invMass a)
            + (if isDragged b then 0 else invMass b) <> 0
         /\ relVelAlong (orientNormal a b n0) a b < 0 in
     (approaching -> colorIndex a' = colorIndex b /\ colorIndex b' = colorIndex a)
     /\ (~ approaching -> colorIndex a' = colorIndex a /\ colorIndex b' = colorIndex b))
  /\ (forall dt w w',
        updatePhysics dt w = Some w' ->
        Permutation (map colorIndex (bodies w)) (map colorIndex (bodies w'))).
Proof.
  split.
  - intros a b a' b' H. cbv zeta. unfold collidePair in H.
    destruct (polygonPolygonSAT _ _) as [[[n d]|]|] eqn:Es; try discriminate.
    + injection H as H.
      pose proof (resolveContact_colors n d a b) as [Hyes Hno]. cbv zeta in *.
      rewrite H in *. cbn [fst snd] in *. split.
      * intros [n0 [d0 [E [Hm Hv]]]]. injection E as <- <-. apply Hyes. auto.
      * intros Hn. apply Hno. intros [Hm Hv]. apply Hn. exists n, d. auto.
    + injection H as <- <-. split; [|auto].
      intros [n0 [d0 [E _]]]. discriminate.
  - intros dt w w'. unfold updatePhysics.
    destruct (physicsEnabled w); cbn [negb].
    + destruct (collideAll _ _) as [bs|] eqn:Ec; [|discriminate].
      intros H.
      assert (bodies w' = bs) as -> by (destruct (existsb stillMoving bs);
                                        cbn in H; injection H as <-; reflexivity).
      eapply perm_trans.
      2:{ eapply (collideAll_rel
                    (fun b1 b2 => Permutation (map colorIndex b1) (map colorIndex b2)));
          [intros; apply Permutation_refl
          |intros; eapply perm_trans; eauto
          |intros i j b1 b2 Hij Hs; eapply pairStep_colors_perm; eauto
          |exact Ec]. }
      rewrite map_map. erewrite map_ext; [apply Permutation_refl|].
      intros b. cbv beta. rewrite moveBody_color. reflexivity.
    + intros H. injection H as <-. apply Permutation_refl.
Qed.

(** ** C7: one free body between the walls *)

Lemma exp_nonpos_le_1 (x : R) : x <= 0 -> exp x <= 1.
Proof.
  intros H. destruct (Req_dec x 0) as [->|Hne].
  - rewrite exp_0. lra.
  - left. rewrite <- exp_0. apply exp_increasing. lra.
Qed.

(** The linear drag factor of one step of length [dt >= 0]. *)
Lemma linearDrag_range (dt : R) :
  0 <= dt ->
  0 < BASE_LINEAR_DAMPING * exp (- FLUID_LINEAR_VISCOSITY * dt) <= 0.998.
Proof.
  intros Hdt. unfold BASE_LINEAR_DAMPING.
  set (x := - FLUID_LINEAR_VISCOSITY * dt).
  assert (x <= 0) as Hx by (unfold x, FLUID_LINEAR_VISCOSITY; lra).
  pose proof (exp_pos x) as Hp. pose proof (exp_nonpos_le_1 x Hx) as Hl.
  split; lra.
Qed.

Lemma angularDrag_range (dt : R) :
  0 <= dt ->
  0 < BASE_ANGULAR_DAMPING * exp (- FLUID_ANGULAR_VISCOSITY * dt) <= 0.99.
Proof.
  intros Hdt. unfold BASE_ANGULAR_DAMPING.
  set (x := - FLUID_ANGULAR_VISCOSITY * dt).
  assert (x <= 0) as Hx by (unfold x, FLUID_ANGULAR_VISCOSITY; lra).
  pose proof (exp_pos x) as Hp. pose proof (exp_nonpos_le_1 x Hx) as Hl.
  split; lra.
Qed.

Lemma hypot_scaled (x y k X Y : R) :
  0 <= k -> X * X = x * k * (x * k) -> Y * Y = y * k * (y * k) ->
  hypot X Y = k * hypot x y.
Proof.
  intros Hk HX HY. apply hypot_unique.
  - apply Rmult_le_pos; [exact Hk|apply hypot_nonneg].
  - rewrite HX, HY.
    replace (k * hypot x y * (k * hypot x y)) with (k * k * (hypot x y * hypot x y)) by ring.
    rewrite hypot_sqr. ring.
Qed.

(** What the move phase does to a free body. *)
Lemma moveBody_free (dt bx by_ : R) (b : Body) :
  isDragged b = false -> 0 <= dt ->
  boundingRadius b <= bx -> boundingRadius b <= by_ ->
  let b' := moveBody dt bx by_ b in
  let k := BASE_LINEAR_DAMPING * exp (- FLUID_LINEAR_VISCOSITY * dt) in
  Rabs (posX b') <= bx - boundingRadius b
  /\ Rabs (posY b') <= by_ - boundingRadius b
  /\ speedOf b' = k * speedOf b
  /\ Rabs (angularVelocity b') <= Rabs (angularVelocity b).
Proof.
  intros Hd Hdt Hx Hy. cbv zeta.
  pose proof (linearDrag_range dt Hdt) as Hk.
  pose proof (angularDrag_range dt Hdt) as Ha.
  unfold moveBody. rewrite Hd. cbv zeta.
  set (k := BASE_LINEAR_DAMPING * exp (- FLUID_LINEAR_VISCOSITY * dt)) in *.
  set (ka := BASE_ANGULAR_DAMPING * exp (- FLUID_ANGULAR_VISCOSITY * dt)) in *.
  unfold integrateRotation, bounceX, bounceY, scaleVec, speedOf. cbv zeta. simp_body.
  fold ka.
  assert (Rabs (angularVelocity b * ka) <= Rabs (angularVelocity b)) as Hw.
  { rewrite Rabs_mult. rewrite (Rabs_right ka) by lra.
    pose proof (Rabs_pos (angularVelocity b)). nra. }
  split_ifs; simp_body; bools;
    (split; [apply Rabs_le; lra|]);
    (split; [apply Rabs_le; lra|]);
    (split; [apply hypot_scaled; [lra|ring|ring] | try exact Hw; lra]).
Qed.

(** C7.  For a composition holding a single free body whose bounding radius
    fits inside the world bounds, every running step of length [dt >= 0]
    returns normally with that body alone, of unchanged identity and shape,
    inside the bounds ([|x| <= boundsX - r], [|y| <= boundsY - r]); its linear
    speed is multiplied by the drag factor, which is at most 0.998, so it
    strictly decreases whenever it is not zero. *)
Theorem single_body_step (dt : R) (w : World) (b : Body) :
  physicsEnabled w = true ->
  bodies w = [b] ->
  isDragged b = false ->
  0 <= dt ->
  boundingRadius b <= worldBoundsX w ->
  boundingRadius b <= worldBoundsY w ->
  exists w' b',
    updatePhysics dt w = Some w'
    /\ bodies w' = [b']
    /\ sameStatic b b'
    /\ worldBoundsX w' = worldBoundsX w /\ worldBoundsY w' = worldBoundsY w
    /\ Rabs (posX b') <= worldBoundsX w - boundingRadius b
    /\ Rabs (posY b') <= worldBoundsY w - boundingRadius b
    /\ speedOf b' <= 0.998 * speedOf b
    /\ (speedOf b <> 0 -> speedOf b' < speedOf b).
Proof.
  intros He Hb Hd Hdt Hx Hy.
  pose proof (moveBody_free dt _ _ b Hd Hdt Hx Hy) as [Px [Py [Ps _]]].
  pose proof (linearDrag_range dt Hdt) as Hk.
  pose proof (hypot_nonneg (vx (velocity b)) (vy (velocity b))) as Hs0.
  fold (speedOf b) in Hs0.
  set (b1 := moveBody dt (worldBoundsX w) (worldBoundsY w) b) in *.
  exists (if existsb stillMoving [b1] then setBodies w [b1]
          else setPhysicsEnabled false (setBodies w [b1])), b1.
  split.
  { unfold updatePhysics. rewrite He, Hb. cbn [negb map]. fold b1.
    unfold collideAll. cbn [length seq outerLoop innerLoop Nat.sub].
    destruct (existsb stillMoving [b1]); reflexivity. }
  split; [apply bodies_after_scan|].
  split; [apply moveBody_static|].
  split; [destruct (existsb stillMoving [b1]); reflexivity|].
  split; [destruct (existsb stillMoving [b1]); reflexivity|].
  split; [exact Px|]. split; [exact Py|].
  rewrite Ps. split; [nra|].
  intros Hne. assert (0 < speedOf b) by lra. nra.
Qed.

Lemma single_body_step_witness :
  exists w' b',
    updatePhysics fixedStep loneWorld = Some w'
    /\ bodies w' = [b']
    /\ sameStatic loneCircle b'
    /\ worldBoundsX w' = 4 /\ worldBoundsY w' = 2.2
    /\ Rabs (posX b') <= 4 - 0.3
    /\ Rabs (posY b') <= 2.2 - 0.3
    /\ speedOf b' <= 0.998 * speedOf loneCircle
    /\ (speedOf loneCircle <> 0 -> speedOf b' < speedOf loneCircle).
Proof.
  apply (single_body_step fixedStep loneWorld loneCircle).
  - reflexivity.
  - reflexivity.
  - reflexivity.
  - unfold fixedStep. lra.
  - cbn. lra.
  - cbn. lra.
Defined.

(** ** The separating-axis test on axis-aligned boxes *)

Lemma transform_rect (hw hh px py : R) :
  transformVerts (rectLocal hw hh) px py 0 = boxAt hw hh px py.
Proof.
  unfold transformVerts, rectLocal, boxAt. cbv zeta. rewrite cos_0, sin_0.
  cbn [map vx vy]. repeat (f_equal; try ring).
Qed.

Section Boxes.

Variables hw hh px py : R.
Hypothesis hw_pos : 0 < hw.
Hypothesis hh_pos : 0 < hh.

Lemma edgeAxis_box_0 : edgeAxis (boxAt hw hh px py) 0 = Some (mkVec 0 1).
Proof.
  unfold edgeAxis. cbv zeta. cbn [boxAt length Nat.add Nat.modulo Nat.divmod fst snd
    Nat.sub nth vx vy].
  rewrite (hypot_unique _ _ (2 * hw)) by (lra || ring).
  rewrite (proj2 (Reqb_false _ _)) by lra.
  f_equal. f_equal; field; lra.
Qed.

Lemma edgeAxis_box_1 : edgeAxis (boxAt hw hh px py) 1 = Some (mkVec (-1) 0).
Proof.
  unfold edgeAxis. cbv zeta. cbn [boxAt length Nat.add Nat.modulo Nat.divmod fst snd
    Nat.sub nth vx vy].
  rewrite (hypot_unique _ _ (2 * hh)) by (lra || ring).
  rewrite (proj2 (Reqb_false _ _)) by lra.
  f_equal. f_equal; field; lra.
Qed.

Lemma edgeAxis_box_2 : edgeAxis (boxAt hw hh px py) 2 = Some (mkVec 0 (-1)).
Proof.
  unfold edgeAxis. cbv zeta. cbn [boxAt length Nat.add Nat.modulo Nat.divmod fst snd
    Nat.sub nth vx vy].
  rewrite (hypot_unique _ _ (2 * hw)) by (lra || ring).
  rewrite (proj2 (Reqb_false _ _)) by lra.
  f_equal. f_equal; field; lra.
Qed.

Lemma edgeAxis_box_3 : edgeAxis (boxAt hw hh px py) 3 = Some (mkVec 1 0).
Proof.
  unfold edgeAxis. cbv zeta. cbn [boxAt length Nat.add Nat.modulo Nat.divmod fst snd
    Nat.sub nth vx vy].
  rewrite (hypot_unique _ _ (2 * hh)) by (lra || ring).
  rewrite (proj2 (Reqb_false _ _)) by lra.
  f_equal. f_equal; field; lra.
Qed.

Ltac box_proj v1 v2 :=
  apply projectOntoAxis_spec; unfold boxAt, dot;
  [ exists v1; split; [cbn [In]; auto 6|cbn [vx vy]; reflexivity]
  | exists v2; split; [cbn [In]; auto 6|cbn [vx vy]; reflexivity]
  | intros v [<-|[<-|[<-|[<-|[]]]]]; cbn [vx vy]; lra ].

Lemma proj_box_up :
  projectOntoAxis (boxAt hw hh px py) (mkVec 0 1)
  = Some ((px - hw) * 0 + (py - hh) * 1, (px + hw) * 0 + (py + hh) * 1).
Proof. box_proj (mkVec (px - hw) (py - hh)) (mkVec (px + hw) (py + hh)). Qed.

Lemma proj_box_left :
  projectOntoAxis (boxAt hw hh px py) (mkVec (-1) 0)
  = Some ((px + hw) * -1 + (py - hh) * 0, (px - hw) * -1 + (py - hh) * 0).
Proof. box_proj (mkVec (px + hw) (py - hh)) (mkVec (px - hw) (py - hh)). Qed.

Lemma proj_box_down :
  projectOntoAxis (boxAt hw hh px py) (mkVec 0 (-1))
  = Some ((px + hw) * 0 + (py + hh) * -1, (px - hw) * 0 + (py - hh) * -1).
Proof. box_proj (mkVec (px + hw) (py + hh)) (mkVec (px - hw) (py - hh)). Qed.

Lemma proj_box_right :
  projectOntoAxis (boxAt hw hh px py) (mkVec 1 0)
  = Some ((px - hw) * 1 + (py - hh) * 0, (px + hw) * 1 + (py - hh) * 0).
Proof. box_proj (mkVec (px - hw) (py - hh)) (mkVec (px + hw) (py - hh)). Qed.

End Boxes.

Section TwoBoxes.

Variables hwA hhA pxA pyA hwB hhB pxB pyB : R.
Hypothesis hwA_pos : 0 < hwA.
Hypothesis hhA_pos : 0 < hhA.
Hypothesis hwB_pos : 0 < hwB.
Hypothesis hhB_pos : 0 < hhB.

Let A := boxAt hwA hhA pxA pyA.
Let B := boxAt hwB hhB pxB pyB.
Let ox := spanOverlap pxA hwA pxB hwB.
Let oy := spanOverlap pyA hhA pyB hhB.

Ltac span_eq :=
  unfold overlapIntervals, oy, ox, spanOverlap; f_equal;
  unfold Rmin, Rmax; repeat (destruct (Rle_dec _ _)); lra.

Lemma overlapOn_boxes_up : overlapOn A B (mkVec 0 1) = Some oy.
Proof.
  unfold overlapOn, A, B. rewrite !proj_box_up by assumption. span_eq.
Qed.

Lemma overlapOn_boxes_down : overlapOn A B (mkVec 0 (-1)) = Some oy.
Proof.
  unfold overlapOn, A, B. rewrite !proj_box_down by assumption. span_eq.
Qed.

Lemma overlapOn_boxes_left : overlapOn A B (mkVec (-1) 0) = Some ox.
Proof.
  unfold overlapOn, A, B. rewrite !proj_box_left by assumption. span_eq.
Qed.

Lemma overlapOn_boxes_right : overlapOn A B (mkVec 1 0) = Some ox.
Proof.
  unfold overlapOn, A, B. rewrite !proj_box_right by assumption. span_eq.
Qed.

Lemma axesOf_box_A :
  edgeAxis A 0 = Some (mkVec 0 1) /\ edgeAxis A 1 = Some (mkVec (-1) 0)
  /\ edgeAxis A 2 = Some (mkVec 0 (-1)) /\ edgeAxis A 3 = Some (mkVec 1 0).
Proof.
  unfold A. rewrite edgeAxis_box_0, edgeAxis_box_1, edgeAxis_box_2, edgeAxis_box_3
    by assumption. auto.
Qed.

Lemma axesOf_box_B :
  edgeAxis B 0 = Some (mkVec 0 1) /\ edgeAxis B 1 = Some (mkVec (-1) 0)
  /\ edgeAxis B 2 = Some (mkVec 0 (-1)) /\ edgeAxis B 3 = Some (mkVec 1 0).
Proof.
  unfold B. rewrite edgeAxis_box_0, edgeAxis_box_1, edgeAxis_box_2, edgeAxis_box_3
    by assumption. auto.
Qed.

(** Two overlapping boxes: the test reports the axis of the smaller
    overlap, the leftward normal of the first box when the x overlap is
    strictly the smaller one and its upward normal otherwise. *)
Lemma polygonPolygonSAT_boxes :
  0 < ox -> 0 < oy ->
  polygonPolygonSAT A B
  = Some (Some (if ox <? oy then (mkVec (-1) 0, ox) else (mkVec 0 1, oy))).
Proof.
  intros Hx Hy.
  assert ((ox <=? 0) = false) as Nx by (apply Rleb_false; lra).
  assert ((oy <=? 0) = false) as Ny by (apply Rleb_false; lra).
  destruct axesOf_box_A as [A0 [A1 [A2 A3]]].
  destruct axesOf_box_B as [B0 [B1 [B2 B3]]].
  pose proof overlapOn_boxes_up as Ou. pose proof overlapOn_boxes_left as Ol.
  pose proof overlapOn_boxes_down as Od. pose proof overlapOn_boxes_right as Or.
  unfold overlapOn in Ou, Ol, Od, Or.
  unfold polygonPolygonSAT, checkAxes.
  change (length A) with 4%nat. change (length B) with 4%nat.
  cbn [seq checkAxesFrom].
  rewrite A0, A1, A2, A3, Ou, Ol, Od, Or, Nx, Ny. cbn [minOverlapOf lt_ext].
  destruct (ox <? oy) eqn:E; cbn [minOverlapOf lt_ext];
    [apply Rltb_true in E|apply Rltb_false in E].
  - repeat first [ rewrite (proj2 (Rltb_false oy ox)) by lra
                 | rewrite (proj2 (Rltb_false ox ox)) by lra
                 | rewrite B0, B1, B2, B3, Ou, Ol, Od, Or, Nx, Ny
                 | progress cbn [minOverlapOf lt_ext] ].
    reflexivity.
  - repeat first [ rewrite (proj2 (Rltb_false oy oy)) by lra
                 | rewrite (proj2 (Rltb_false ox oy)) by lra
                 | rewrite B0, B1, B2, B3, Ou, Ol, Od, Or, Nx, Ny
                 | progress cbn [minOverlapOf lt_ext] ].
    reflexivity.
Qed.

End TwoBoxes.

(** ** C5: automatic pause *)

Lemma hypot_ge_abs (x y : R) : Rabs x <= hypot x y.
Proof.
  unfold hypot. rewrite <- sqrt_Rsqr_abs. apply sqrt_le_1_alt.
  unfold Rsqr. pose proof (Rle_0_sqr y) as H. unfold Rsqr in H. lra.
Qed.

(** The linear drag factor of the fixed step. *)
Lemma linearDrag_fixedStep :
  0.98 < BASE_LINEAR_DAMPING * exp (- FLUID_LINEAR_VISCOSITY * fixedStep) < 1.
Proof.
  assert (- FLUID_LINEAR_VISCOSITY * fixedStep = - 0.012) as Hx
    by (unfold FLUID_LINEAR_VISCOSITY, fixedStep; lra).
  assert (0 <= fixedStep) as H0 by (unfold fixedStep; lra).
  pose proof (linearDrag_range fixedStep H0) as [_ H].
  unfold BASE_LINEAR_DAMPING in *. rewrite Hx in *.
  assert (1 + - 0.012 < exp (- 0.012)) as He by (apply exp_ineq1; lra).
  set (e := exp (- 0.012)) in *. clearbody e.
  split; lra.
Qed.

(** A free body that does not spin and does not reach a wall. *)
Lemma moveBody_drift (dt bx by_ : R) (b : Body) :
  isDragged b = false -> angularVelocity b = 0 ->
  let k := BASE_LINEAR_DAMPING * exp (- FLUID_LINEAR_VISCOSITY * dt) in
  let x' := posX b + vx (velocity b) * k * dt * 1 in
  let y' := posY b + vy (velocity b) * k * dt * 1 in
  - bx <= x' - boundingRadius b -> x' + boundingRadius b <= bx ->
  - by_ <= y' - boundingRadius b -> y' + boundingRadius b <= by_ ->
  moveBody dt bx by_ b = setPos (setVelocity b (scaleVec (velocity b) k)) x' y'.
Proof.
  intros Hd Hw. cbv zeta. intros X1 X2 Y1 Y2.
  unfold moveBody, integrateRotation, bounceX, bounceY. cbv zeta.
  rewrite Hd, Hw. rewrite (proj2 (Reqb_true 0 0)) by reflexivity.
  simp_body. unfold scaleVec in *. simp_body.
  set (k := BASE_LINEAR_DAMPING * exp (- FLUID_LINEAR_VISCOSITY * dt)) in *.
  set (x' := posX b + vx (velocity b) * k * dt * 1) in *.
  set (y' := posY b + vy (velocity b) * k * dt * 1) in *.
  rewrite (proj2 (Rltb_false (x' - boundingRadius b) (- bx))) by lra.
  rewrite (proj2 (Rltb_false bx (x' + boundingRadius b))) by lra.
  simp_body.
  rewrite (proj2 (Rltb_false (y' - boundingRadius b) (- by_))) by lra.
  rewrite (proj2 (Rltb_false by_ (y' + boundingRadius b))) by lra.
  reflexivity.
Qed.

Ltac span := unfold spanOverlap, Rmin, Rmax; repeat destruct (Rle_dec _ _); lra.

(** The claim as stated fails: in [crowdedWorld] every body is free, slower
    than 0.02 and not spinning, yet the step of length [fixedStep] ends with
    the simulation still running, because the contact hands the small box a
    speed above 0.02. *)
Lemma auto_pause_counterexample :
  (forall b, In b (bodies crowdedWorld) ->
     isDragged b = false /\ speedOf b < 0.02 /\ Rabs (angularVelocity b) < 0.4)
  /\ physicsEnabled crowdedWorld = true
  /\ exists w', updatePhysics fixedStep crowdedWorld = Some w' /\ physicsEnabled w' = true.
Proof.
  split; [|split; [reflexivity|]].
  - intros b [<-|[<-|[]]]; (split; [reflexivity|]); unfold speedOf;
      cbn [bigBox smallBox velocity angularVelocity vx vy]; rewrite Rabs_R0.
    + rewrite (hypot_unique 0.019 0 0.019) by lra. lra.
    + rewrite (hypot_unique 0 0 0) by lra. lra.
  - pose proof linearDrag_fixedStep as Hk.
    unfold updatePhysics.
    cbn [crowdedWorld physicsEnabled negb bodies map worldBoundsX worldBoundsY
         colorTransferEnabled].
    rewrite (moveBody_drift fixedStep 4 2.2 bigBox) by
      (try reflexivity; cbn [bigBox posX posY velocity vx vy boundingRadius];
       unfold fixedStep in *; lra).
    rewrite (moveBody_drift fixedStep 4 2.2 smallBox) by
      (try reflexivity; cbn [smallBox posX posY velocity vx vy boundingRadius];
       unfold fixedStep in *; lra).
    set (k := BASE_LINEAR_DAMPING * exp (- FLUID_LINEAR_VISCOSITY * fixedStep)) in *.
    clearbody k.
    unfold collideAll. cbn [length seq outerLoop innerLoop Nat.sub].
    unfold pairStep. cbn [nth_error].
    unfold collidePair, getWorldVertices. simp_body.
    cbn [bigBox smallBox localVerts rotZ posX posY velocity scaleVec vx vy].
    rewrite !transform_rect. unfold fixedStep.
    rewrite polygonPolygonSAT_boxes by (lra || span).
    rewrite (proj2 (Rltb_true _ _)) by span.
    match goal with |- context [resolveContact false ?n ?d ?a ?b] =>
      pose proof (resolveContact_impulse false n d a b) as HI;
      pose proof (resolveContact_static false n d a b) as [_ HS];
      destruct (resolveContact false n d a b) as [a' b'] end.
    cbn [setNth fst snd] in *.
    assert (stillMoving b' = true) as Hm.
    { unfold stillMoving. cbv zeta.
      destruct HS as [_ [_ [_ [_ [_ [_ [_ [Hd _]]]]]]]]. simp_body.
      rewrite Hd. cbn [smallBox isDragged].
      apply orb_true_iff. left. apply Rltb_true.
      eapply Rlt_le_trans; [|apply hypot_ge_abs].
      eapply Rlt_le_trans; [|apply Rle_abs].
      unfold orientNormal, relVelAlong, isUnit in HI. cbv zeta in HI. simp_body.
      cbn [bigBox smallBox posX posY velocity invMass isDragged scaleVec vx vy] in HI.
      rewrite (proj2 (Rltb_true _ _)) in HI by lra. cbn [vx vy] in HI.
      destruct HI as [HI _]; try reflexivity; lra. }
    exists (setBodies crowdedWorld [a'; b']). cbn [existsb]. rewrite Hm.
    rewrite orb_true_r. cbn [negb]. split; reflexivity.
Qed.

(** What the move phase does to the speeds of a free body, whatever the
    bounds. *)
Lemma moveBody_slows (dt bx by_ : R) (b : Body) :
  isDragged b = false -> 0 <= dt ->
  let b' := moveBody dt bx by_ b in
  speedOf b' <= speedOf b
  /\ Rabs (angularVelocity b') <= Rabs (angularVelocity b).
Proof.
  intros Hd Hdt. cbv zeta.
  pose proof (linearDrag_range dt Hdt) as Hk.
  pose proof (angularDrag_range dt Hdt) as Ha.
  pose proof (hypot_nonneg (vx (velocity b)) (vy (velocity b))) as Hs0.
  unfold moveBody. rewrite Hd. cbv zeta.
  set (k := BASE_LINEAR_DAMPING * exp (- FLUID_LINEAR_VISCOSITY * dt)) in *.
  set (ka := BASE_ANGULAR_DAMPING * exp (- FLUID_ANGULAR_VISCOSITY * dt)) in *.
  unfold integrateRotation, bounceX, bounceY, scaleVec, speedOf. cbv zeta. simp_body.
  fold ka.
  assert (Rabs (angularVelocity b * ka) <= Rabs (angularVelocity b)) as Hw.
  { rewrite Rabs_mult. rewrite (Rabs_right ka) by lra.
    pose proof (Rabs_pos (angularVelocity b)). nra. }
  set (h := hypot (vx (velocity b)) (vy (velocity b))) in *.
  assert (k * h <= h) as Hkh by nra.
  split_ifs; simp_body;
    (split; [ match goal with |- hypot ?X ?Y <= _ =>
                replace (hypot X Y) with (k * h)
                  by (symmetry; apply hypot_scaled; [lra|ring|ring]) end;
              exact Hkh
            | try exact Hw; lra ]).
Qed.

Lemma Forall_setNth (P : Body -> Prop) (n : nat) (x : Body) (l : list Body) :
  Forall P l -> P x -> Forall P (setNth n x l).
Proof.
  intros Hl Hx. revert n. induction Hl as [|h t Hh Ht IH]; intros [|n]; cbn;
    constructor; auto.
Qed.

(** A contact between bodies that rest or part moves them apart and leaves
    their velocities, their spins and their flags as they are. *)
Lemma resolveContact_resting (ct : bool) (normal0 : Vec) (depth : R) (a b : Body) :
  0 <= relVelAlong (orientNormal a b normal0) a b ->
  stillMoving (fst (resolveContact ct normal0 depth a b)) = stillMoving a
  /\ stillMoving (snd (resolveContact ct normal0 depth a b)) = stillMoving b.
Proof.
  intros Hv. unfold resolveContact. cbv zeta. simp_body.
  fold (relVelAlong (orientNormal a b normal0) a b).
  rewrite (proj2 (Rltb_false _ _)) by lra.
  destruct (_ =? 0); cbn [fst snd]; split; reflexivity.
Qed.

Lemma collidePair_resting (ct : bool) (a b : Body) :
  restingOrApart a b ->
  exists a' b',
    collidePair ct a b = Some (a', b')
    /\ stillMoving a' = stillMoving a /\ stillMoving b' = stillMoving b.
Proof.
  unfold restingOrApart, collidePair.
  destruct (polygonPolygonSAT _ _) as [[[n d]|]|]; intros H.
  - destruct (resolveContact_resting ct n d a b H) as [Ha Hb].
    destruct (resolveContact ct n d a b) as [a' b']. exists a', b'. auto.
  - contradiction.
  - exists a, b. auto.
Qed.

Lemma quietInner_run (ct : bool) (i : nat) (js : list nat) :
  forall bs,
  quietInner ct i js bs ->
  Forall (fun b => stillMoving b = false) bs ->
  exists bs', innerLoop ct i js bs = Some bs'
              /\ Forall (fun b => stillMoving b = false) bs'.
Proof.
  induction js as [|j rest IH]; intros bs Hq Hc.
  - exists bs. split; [reflexivity|exact Hc].
  - cbn [quietInner] in Hq. destruct Hq as [Hpair Hrest].
    cbn [innerLoop].
    assert (exists bs1, pairStep ct i j bs = Some bs1
                        /\ Forall (fun b => stillMoving b = false) bs1) as (bs1 & E & Hc1).
    { unfold pairStep.
      destruct (nth_error bs i) as [a|] eqn:Ei; [|exists bs; auto].
      destruct (nth_error bs j) as [b|] eqn:Ej; [|exists bs; auto].
      destruct (collidePair_resting ct a b (Hpair a b eq_refl eq_refl))
        as (a' & b' & Ec & Sa & Sb).
      rewrite Ec. eexists. split; [reflexivity|].
      rewrite Forall_forall in Hc.
      apply Forall_setNth; [apply Forall_setNth|].
      - apply Forall_forall. exact Hc.
      - rewrite Sa. apply Hc. eapply nth_error_In; exact Ei.
      - rewrite Sb. apply Hc. eapply nth_error_In; exact Ej. }
    rewrite E. apply IH; [apply Hrest; exact E|exact Hc1].
Qed.

Lemma quietOuter_run (ct : bool) (n : nat) (idxs : list nat) :
  forall bs,
  quietOuter ct n idxs bs ->
  Forall (fun b => stillMoving b = false) bs ->
  exists bs', outerLoop ct n idxs bs = Some bs'
              /\ Forall (fun b => stillMoving b = false) bs'.
Proof.
  induction idxs as [|i rest IH]; intros bs Hq Hc.
  - exists bs. split; [reflexivity|exact Hc].
  - cbn [quietOuter] in Hq. destruct Hq as [Hin Hrest]. cbn [outerLoop].
    destruct (quietInner_run ct i _ bs Hin Hc) as (bs1 & E & Hc1).
    rewrite E. apply IH; [apply Hrest; exact E|exact Hc1].
Qed.

(** A free body below both thresholds is still below them after the move
    phase. *)
Lemma moveBody_calm (dt bx by_ : R) (b : Body) :
  0 <= dt ->
  isDragged b = false -> speedOf b < 0.02 -> Rabs (angularVelocity b) < 0.4 ->
  stillMoving (moveBody dt bx by_ b) = false.
Proof.
  intros Hdt Hd Hs Ha.
  destruct (moveBody_slows dt bx by_ b Hd Hdt) as [S1 S2].
  pose proof (moveBody_static dt bx by_ b) as St.
  assert (isDragged (moveBody dt bx by_ b) = false) as Hd'
    by (unfold sameStatic in St; intuition congruence).
  unfold stillMoving. cbv zeta. rewrite Hd'. unfold speedOf in *.
  apply orb_false_iff. split; apply Rltb_false; lra.
Qed.

(** The closing scan finds a body at rest exactly when it is non-dragged
    with both speeds at or below the thresholds. *)
Lemma stillMoving_false (b : Body) :
  stillMoving b = false <->
  isDragged b = false /\ speedOf b <= 0.02 /\ Rabs (angularVelocity b) <= 0.4.
Proof.
  unfold stillMoving, speedOf. cbv zeta. destruct (isDragged b).
  - split; [discriminate|]. intros [H _]. discriminate.
  - rewrite orb_false_iff. split.
    + intros [H1 H2]. apply Rltb_false in H1, H2. auto.
    + intros (_ & H1 & H2). split; apply Rltb_false; assumption.
Qed.

(** C5, amended.  Take a running step with a time step [dt >= 0] at the
    start of which every body is non-dragged with linear speed below the
    linear epsilon 0.02 and angular speed below the angular epsilon 0.4.
    The step ends paused exactly when the velocities left by its collision
    resolution are still within the epsilons: every body non-dragged, with
    linear speed at most 0.02 and angular speed at most 0.4.  This is so, and
    the step returns normally, whenever the pair loop of the step applies no
    impulse: each pair of bodies, when the loop reaches it, is found apart, or
    in contact along a normal with a normal velocity that is not negative. *)
Theorem auto_pause_without_impulse (dt : R) (w : World) :
  physicsEnabled w = true ->
  0 <= dt ->
  (forall b, In b (bodies w) ->
     isDragged b = false /\ speedOf b < 0.02 /\ Rabs (angularVelocity b) < 0.4) ->
  (forall w', updatePhysics dt w = Some w' ->
     (physicsEnabled w' = false <->
      forall b, In b (bodies w') ->
        isDragged b = false /\ speedOf b <= 0.02 /\ Rabs (angularVelocity b) <= 0.4))
  /\ (noImpulse (colorTransferEnabled w)
        (map (moveBody dt (worldBoundsX w) (worldBoundsY w)) (bodies w)) ->
      exists w', updatePhysics dt w = Some w' /\ physicsEnabled w' = false).
Proof.
  intros He Hdt Hslow. split.
  - intros w' H. unfold updatePhysics in H. rewrite He in H. cbn [negb] in H.
    cbv zeta in H.
    destruct (collideAll _ _) as [bs|]; [|discriminate].
    assert (existsb stillMoving bs = false <->
            forall b, In b bs ->
              isDragged b = false /\ speedOf b <= 0.02 /\ Rabs (angularVelocity b) <= 0.4)
      as Hscan.
    { split.
      - intros Hex b Hin. apply stillMoving_false.
        apply not_true_is_false. intros Hm.
        assert (existsb stillMoving bs = true) as C
          by (apply existsb_exists; exists b; auto).
        congruence.
      - intros Hall. apply not_true_is_false. intros Hex.
        apply existsb_exists in Hex. destruct Hex as (b & Hin & Hm).
        rewrite (proj2 (stillMoving_false b) (Hall b Hin)) in Hm. discriminate. }
    destruct (existsb stillMoving bs) eqn:Ex; cbn [negb] in H; injection H as <-;
      cbn [setPhysicsEnabled setBodies physicsEnabled bodies]; try rewrite He.
    + split; [discriminate|]. intros Hall. exact (proj2 Hscan Hall).
    + split; [intros _|reflexivity]. apply (proj1 Hscan eq_refl).
  - intros Hquiet.
    unfold updatePhysics. rewrite He. cbn [negb]. cbv zeta.
    assert (Forall (fun b => stillMoving b = false)
              (map (moveBody dt (worldBoundsX w) (worldBoundsY w)) (bodies w))) as Hc.
    { apply Forall_forall. intros b' Hin. apply in_map_iff in Hin.
      destruct Hin as (b & <- & Hb). destruct (Hslow b Hb) as (Hd & Hs & Ha).
      apply moveBody_calm; assumption. }
    destruct (quietOuter_run _ _ _ _ Hquiet Hc) as (bs & E & Hbs).
    unfold collideAll. rewrite E.
    assert (existsb stillMoving bs = false) as Hq.
    { apply not_true_is_false. intros Hex. apply existsb_exists in Hex.
      destruct Hex as (b & Hin & Hm). rewrite Forall_forall in Hbs.
      rewrite (Hbs b Hin) in Hm. discriminate. }
    rewrite Hq. cbn [negb]. eexists. split; reflexivity.
Qed.

(** An instance with a contact: in [partingWorld] the two boxes overlap and
    the large one moves away from the small one, so the contact only pushes
    them apart and the step of length [fixedStep] ends paused. *)
Lemma auto_pause_without_impulse_witness :
  exists w', updatePhysics fixedStep partingWorld = Some w' /\ physicsEnabled w' = false.
Proof.
  refine (proj2 (auto_pause_without_impulse fixedStep partingWorld _ _ _) _).
  - reflexivity.
  - unfold fixedStep. lra.
  - intros b [<-|[<-|[]]]; (split; [reflexivity|]); unfold speedOf;
      cbn [bigBox smallBox setVelocity velocity angularVelocity vx vy]; rewrite Rabs_R0.
    + rewrite (hypot_unique (- 0.019) 0 0.019) by lra. lra.
    + rewrite (hypot_unique 0 0 0) by lra. lra.
  - pose proof linearDrag_fixedStep as Hk.
    cbn [partingWorld bodies map worldBoundsX worldBoundsY colorTransferEnabled].
    rewrite (moveBody_drift fixedStep 4 2.2 (setVelocity bigBox (mkVec (- 0.019) 0))) by
      (try reflexivity;
       cbn [bigBox setVelocity posX posY velocity vx vy boundingRadius];
       unfold fixedStep in *; lra).
    rewrite (moveBody_drift fixedStep 4 2.2 smallBox) by
      (try reflexivity; cbn [smallBox posX posY velocity vx vy boundingRadius];
       unfold fixedStep in *; lra).
    set (k := BASE_LINEAR_DAMPING * exp (- FLUID_LINEAR_VISCOSITY * fixedStep)) in *.
    clearbody k.
    unfold noImpulse. cbn [length seq quietOuter quietInner Nat.sub].
    split; [|intros bs' _; split; [exact I|intros bs'' _; exact I]].
    split; [|intros bs' _; exact I].
    intros a b Ha Hb. cbn [nth_error] in Ha, Hb.
    injection Ha as <-. injection Hb as <-.
    unfold restingOrApart, getWorldVertices. simp_body.
    cbn [bigBox smallBox setVelocity localVerts rotZ posX posY velocity scaleVec vx vy].
    rewrite !transform_rect. unfold fixedStep.
    rewrite polygonPolygonSAT_boxes by (lra || span).
    rewrite (proj2 (Rltb_true _ _)) by span.
    unfold orientNormal, relVelAlong. cbv zeta. simp_body.
    cbn [bigBox smallBox setVelocity posX posY velocity scaleVec vx vy].
    rewrite (proj2 (Rltb_true _ _)) by lra. cbn [vx vy]. nra.
Defined.

(** ** The two-box scene as an instance of C6 and C8 *)

Lemma boxes_contact :
  polygonPolygonSAT (getWorldVertices bigBox) (getWorldVertices smallBox)
  = Some (Some (mkVec (-1) 0, spanOverlap 0 0.3 0.32 0.03)).
Proof.
  unfold getWorldVertices. cbn [bigBox smallBox localVerts posX posY rotZ].
  rewrite !transform_rect.
  rewrite polygonPolygonSAT_boxes by (lra || span).
  rewrite (proj2 (Rltb_true _ _)) by span. reflexivity.
Qed.

Lemma boxes_normal :
  orientNormal bigBox smallBox (mkVec (-1) 0) = mkVec (-1 * -1) (0 * -1).
Proof.
  unfold orientNormal. cbv zeta. cbn [bigBox smallBox posX posY vx vy].
  rewrite (proj2 (Rltb_true _ _)) by lra. reflexivity.
Qed.

Lemma boxes_approaching :
  relVelAlong (orientNormal bigBox smallBox (mkVec (-1) 0)) bigBox smallBox < 0.
Proof.
  rewrite boxes_normal. unfold relVelAlong. cbn [bigBox smallBox velocity vx vy]. lra.
Qed.

Lemma collision_impulse_witness :
  exists a' b',
    collidePair false bigBox smallBox = Some (a', b')
    /\ let n := orientNormal bigBox smallBox (mkVec (-1) 0) in
       let vn := relVelAlong n bigBox smallBox in
       let j := 2 * (- vn) / (invMass bigBox + invMass smallBox) in
       isUnit n
       /\ (vn < 0 ->
           relVelAlong n a' b' = - vn
           /\ vx (velocity a') = vx (velocity bigBox) - j * invMass bigBox * vx n
           /\ vy (velocity a') = vy (velocity bigBox) - j * invMass bigBox * vy n
           /\ vx (velocity b') = vx (velocity smallBox) + j * invMass smallBox * vx n
           /\ vy (velocity b') = vy (velocity smallBox) + j * invMass smallBox * vy n
           /\ Rabs (angularVelocity a') <= 4
           /\ Rabs (angularVelocity b') <= 4)
       /\ (0 <= vn ->
           velocity a' = velocity bigBox /\ velocity b' = velocity smallBox
           /\ angularVelocity a' = angularVelocity bigBox
           /\ angularVelocity b' = angularVelocity smallBox).
Proof.
  apply (collision_impulse false bigBox smallBox (mkVec (-1) 0)
           (spanOverlap 0 0.3 0.32 0.03)).
  - exact boxes_contact.
  - reflexivity.
  - reflexivity.
  - cbn. lra.
  - cbn. lra.
Defined.

(** With exchange enabled the two boxes, of colour indices 2 and 7, leave
    the contact with indices 7 and 2. *)
Lemma color_exchange_witness :
  exists a' b',
    collidePair true bigBox smallBox = Some (a', b')
    /\ colorIndex a' = 7%nat /\ colorIndex b' = 2%nat.
Proof.
  destruct (collidePair true bigBox smallBox) as [[a' b']|] eqn:E.
  - exists a', b'. split; [reflexivity|].
    apply (proj1 (proj1 color_exchange bigBox smallBox a' b' E)).
    exists (mkVec (-1) 0), (spanOverlap 0 0.3 0.32 0.03).
    split; [exact boxes_contact|]. split; [cbn; lra|exact boxes_approaching].
  - exfalso. unfold collidePair in E. rewrite boxes_contact in E. discriminate.
Defined.

(** ** Placement: the two points tangent to two circles *)

Lemma hypot_pos_sqr (x y : R) : 0 < hypot x y -> x <> 0 \/ y <> 0.
Proof.
  intros H. destruct (Req_dec x 0) as [Hx|Hx]; [|left; exact Hx].
  destruct (Req_dec y 0) as [Hy|Hy]; [|right; exact Hy].
  exfalso. assert (hypot x y = 0) by (apply hypot_zero_iff; auto). lra.
Qed.

Lemma Rabs_bound (x b : R) : Rabs x <= b -> - b <= x <= b.
Proof.
  intros H. pose proof (Rle_abs x) as H1. pose proof (Rle_abs (- x)) as H2.
  rewrite Rabs_Ropp in H2. lra.
Qed.

(** The circle-intersection construction shared by the special case and by
    the two-tangent tier: both points lie at distance [RA] from [(ax, ay)]
    and [RB] from [(bx, by)]. *)
Lemma tangent_geometry (ax ay bx by_ RA RB s : R) :
  let dx := bx - ax in
  let dy := by_ - ay in
  let d := hypot dx dy in
  let ex := dx / d in
  let ey := dy / d in
  let aLen := (RA * RA - RB * RB + d * d) / (2 * d) in
  let h2 := RA * RA - aLen * aLen in
  let h := sqrt h2 in
  let x0 := ax + ex * aLen in
  let y0 := ay + ey * aLen in
  0 < d -> d <= RA + RB -> Rabs (RA - RB) <= d -> 0 <= h2 ->
  s * s = 1 ->
  hypot (x0 - s * ey * h - ax) (y0 + s * ex * h - ay) = RA
  /\ hypot (x0 - s * ey * h - bx) (y0 + s * ex * h - by_) = RB.
Proof.
  cbv zeta. set (dx := bx - ax). set (dy := by_ - ay). set (d := hypot dx dy).
  set (ex := dx / d). set (ey := dy / d).
  set (aLen := (RA * RA - RB * RB + d * d) / (2 * d)).
  set (h2 := RA * RA - aLen * aLen). set (h := sqrt h2).
  intros Hd Hsum Hdiff Hh2 Hs.
  assert (d * d = dx * dx + dy * dy) as Hdd by apply hypot_sqr.
  assert (ex * ex + ey * ey = 1) as E1.
  { unfold ex, ey. replace (dx / d * (dx / d) + dy / d * (dy / d))
      with ((dx * dx + dy * dy) / (d * d)) by (field; lra).
    rewrite <- Hdd. field. lra. }
  assert (dx = d * ex) as E2 by (unfold ex; field; lra).
  assert (dy = d * ey) as E2' by (unfold ey; field; lra).
  assert (h * h = h2) as E3 by (apply sqrt_sqrt; exact Hh2).
  assert (2 * d * aLen = RA * RA - RB * RB + d * d) as E4 by (unfold aLen; field; lra).
  assert (0 <= RA /\ 0 <= RB) as [HRA HRB].
  { apply Rabs_bound in Hdiff. lra. }
  split; apply hypot_unique; try assumption.
  - replace ((ax + ex * aLen - s * ey * h - ax) * (ax + ex * aLen - s * ey * h - ax)
             + (ay + ey * aLen + s * ex * h - ay) * (ay + ey * aLen + s * ex * h - ay))
      with ((ex * ex + ey * ey) * (aLen * aLen + (s * s) * (h * h))) by ring.
    rewrite E1, Hs, E3. unfold h2. ring.
  - replace bx with (ax + d * ex) by (unfold dx in E2; lra).
    replace by_ with (ay + d * ey) by (unfold dy in E2'; lra).
    replace ((ax + ex * aLen - s * ey * h - (ax + d * ex))
             * (ax + ex * aLen - s * ey * h - (ax + d * ex))
             + (ay + ey * aLen + s * ex * h - (ay + d * ey))
               * (ay + ey * aLen + s * ex * h - (ay + d * ey)))
      with ((ex * ex + ey * ey)
            * (aLen * aLen - 2 * d * aLen + d * d + (s * s) * (h * h))) by ring.
    rewrite E1, Hs, E3, E4. unfold h2. ring.
Qed.

Lemma tangentCenters_exact (a b : Body) (r3 : R) (c : Vec) :
  In c (tangentCenters a b r3) ->
  hypot (vx c - posX a) (vy c - posY a) = contactRadius a + r3
  /\ hypot (vx c - posX b) (vy c - posY b) = contactRadius b + r3.
Proof.
  unfold tangentCenters. cbv zeta.
  destruct (_ >? 1e-6) eqn:Ed; [|intros []].
  destruct ((_ <=? _) && (_ >=? _)) eqn:Er; [|intros []].
  destruct (_ >=? 0) eqn:Eh; [|intros []].
  bools.
  assert (0 < hypot (posX b - posX a) (posY b - posY a)) as Hd by lra.
  intros [<-|[<-|[]]]; cbn [vx vy].
  - destruct (tangent_geometry (posX a) (posY a) (posX b) (posY b)
                (contactRadius a + r3) (contactRadius b + r3) 1) as [G1 G2];
      try assumption; try lra.
    split; (etransitivity; [|first [exact G1|exact G2]]); f_equal; ring.
  - destruct (tangent_geometry (posX a) (posY a) (posX b) (posY b)
                (contactRadius a + r3) (contactRadius b + r3) (-1)) as [G1 G2];
      try assumption; try lra.
    split; (etransitivity; [|first [exact G1|exact G2]]); f_equal; ring.
Qed.

(** The sum of the contact radii is not negative when the two tangent
    points exist. *)
Lemma tangentCenters_radii (a b : Body) (r3 : R) (c : Vec) :
  In c (tangentCenters a b r3) ->
  0 <= contactRadius a + r3 /\ 0 <= contactRadius b + r3.
Proof.
  intros H. destruct (tangentCenters_exact a b r3 c H) as [H1 H2].
  rewrite <- H1, <- H2. split; apply hypot_nonneg.
Qed.

(** ** C3: the third circle *)

(** X1 (C3).  When [placeMesh] is given a circle while exactly two bodies exist,
    both circles, and one of the two constructed tangent points passes the
    bounds and tolerance tests of the special case, the call succeeds, the two
    existing bodies are left as they were, and the new body is appended with
    its centre at distance [r1 + r3] from the first circle and [r2 + r3] from
    the second (exactly so over the reals, hence within any tolerance). *)
Theorem third_circle_tangent (sh : Shape) (w : World) (a b : Body) (c : Vec) :
  bodies w = [a; b] ->
  shType sh = circle -> shapeType a = circle -> shapeType b = circle ->
  In c (tangentCenters a b (shContactRadius sh)) ->
  tangentCenterOk w a b (shContactRadius sh) c = true ->
  exists new,
    fst (placeMesh sh w) = true
    /\ bodies (snd (placeMesh sh w)) = [a; b; new]
    /\ contactRadius new = shContactRadius sh
    /\ hypot (posX new - posX a) (posY new - posY a) = contactRadius a + contactRadius new
    /\ hypot (posX new - posX b) (posY new - posY b) = contactRadius b + contactRadius new
    /\ tangentCenterOk w a b (shContactRadius sh) (mkVec (posX new) (posY new)) = true.
Proof.
  intros Hb Hs Ha Hbt Hin Hok.
  unfold placeMesh, thirdCircleCenter. rewrite Hb, Hs, Ha, Hbt. cbn [isCircle andb].
  destruct (find _ _) as [p|] eqn:Ef.
  - apply find_some in Ef. destruct Ef as [Hp Hpok].
    destruct (tangentCenters_exact a b _ p Hp) as [D1 D2].
    eexists. cbn [fst snd]. split; [reflexivity|].
    unfold addBodyEntry. cbn [bodies]. rewrite Hb. cbn [app].
    split; [reflexivity|]. simp_body. unfold bodyAt. simp_body.
    split; [reflexivity|]. split; [exact D1|]. split; [exact D2|].
    destruct p. exact Hpok.
  - exfalso. pose proof (find_none _ _ Ef c Hin) as Hn. congruence.
Qed.

Lemma twoCircles_centers :
  exists c rest,
    tangentCenters leftCircle rightCircle 0.3 = c :: rest
    /\ vx c = 0.3 /\ 0 <= vy c <= 1.
Proof.
  unfold tangentCenters. cbv zeta.
  cbn [leftCircle rightCircle posX posY contactRadius].
  rewrite (hypot_unique (0.6 - 0) (0 - 0) 0.6) by lra.
  rewrite (proj2 (Rltb_true 1e-6 0.6)) by lra.
  rewrite (proj2 (Rleb_true 0.6 (0.3 + 0.3 + (0.3 + 0.3)))) by lra.
  rewrite (proj2 (Rleb_true (Rabs (0.3 + 0.3 - (0.3 + 0.3))) 0.6))
    by (replace (0.3 + 0.3 - (0.3 + 0.3)) with 0 by lra; rewrite Rabs_R0; lra).
  cbn [andb].
  match goal with |- context [sqrt ?e] => set (h2 := e) end.
  assert (h2 = 0.27) as Hh by (unfold h2; lra).
  rewrite (proj2 (Rleb_true 0 h2)) by lra.
  pose proof (sqrt_pos h2) as Hs0.
  assert (sqrt h2 <= 1) as Hs1.
  { rewrite <- sqrt_1. apply sqrt_le_1_alt. lra. }
  eexists. eexists. split; [reflexivity|]. cbn [vx vy]. split; lra.
Qed.

Lemma third_circle_tangent_witness :
  exists new,
    fst (placeMesh thirdCircle twoCircles) = true
    /\ bodies (snd (placeMesh thirdCircle twoCircles)) = [leftCircle; rightCircle; new]
    /\ contactRadius new = 0.3
    /\ hypot (posX new - 0) (posY new - 0) = 0.3 + contactRadius new
    /\ hypot (posX new - 0.6) (posY new - 0) = 0.3 + contactRadius new
    /\ tangentCenterOk twoCircles leftCircle rightCircle 0.3
         (mkVec (posX new) (posY new)) = true.
Proof.
  destruct twoCircles_centers as [c [rest [Hc [Hx Hy]]]].
  assert (In c (tangentCenters leftCircle rightCircle 0.3)) as Hin
    by (rewrite Hc; left; reflexivity).
  destruct (tangentCenters_exact _ _ _ _ Hin) as [D1 D2].
  cbn [leftCircle rightCircle posX posY contactRadius] in D1, D2.
  apply (third_circle_tangent thirdCircle twoCircles leftCircle rightCircle c);
    try reflexivity; try exact Hin.
  unfold tangentCenterOk. cbv zeta.
  cbn [twoCircles worldBoundsX worldBoundsY leftCircle rightCircle posX posY contactRadius
       thirdCircle shContactRadius shContactRadiusArg].
  rewrite D1, D2.
  replace (0.3 + 0.3 - (0.3 + 0.3)) with 0 by lra. rewrite Rabs_R0.
  repeat (rewrite (proj2 (Rltb_false _ _)) by lra). reflexivity.
Defined.

(** ** Placement: what [placeMesh] guarantees *)

Lemma hypot_flip (x y x' y' : R) : hypot (x - x') (y - y') = hypot (x' - x) (y' - y).
Proof. unfold hypot. f_equal. ring. Qed.

Lemma evaluateCandidate_ok (w : World) (sh : Shape) (x y : R) (c : Candidate) :
  evaluateCandidate w sh x y = Some c ->
  cx c = x /\ cy c = y
  /\ Forall (fun a => withinTolerance a (bodyAt sh x y)) (bodies w).
Proof.
  unfold evaluateCandidate. cbv zeta.
  destruct (existsb (outsideBounds w 0.001) _) eqn:Eo; [discriminate|].
  destruct (existsb (rejectsCandidate sh _ x y) (bodies w)) eqn:Er; [discriminate|].
  destruct (fold_left _ _ _) as [[cnt mc] mg]. intros H. injection H as <-.
  cbn [cx cy]. split; [reflexivity|]. split; [reflexivity|].
  apply Forall_forall. intros a Ha.
  assert (rejectsCandidate sh (transformVerts (shLocalVerts sh) x y (meshRot sh)) x y a
          = false) as Hr.
  { destruct (rejectsCandidate sh _ x y a) eqn:E; [|reflexivity].
    assert (existsb (rejectsCandidate sh (transformVerts (shLocalVerts sh) x y (meshRot sh))
                       x y) (bodies w) = true) as C
      by (apply existsb_exists; exists a; auto).
    congruence. }
  unfold rejectsCandidate in Hr. unfold withinTolerance, bodyAt, getWorldVertices.
  cbv zeta in *. simp_body.
  destruct (isCircle (shType sh) && isCircle (shapeType a)) eqn:Ec.
  - bools. lra.
  - unfold tooDeep in Hr.
    destruct (polygonPolygonSAT _ _) as [[[n d]|]|]; try discriminate; [|exact I].
    bools. exact Hr.
Qed.

Lemma pushIf_in (c : Candidate) (o : option Candidate) : In c (pushIf o) -> o = Some c.
Proof. destruct o; cbn; [intros [H|[]]; congruence|intros []]. Qed.

(** Every candidate comes out of [evaluateCandidate]. *)
Lemma candidatesOf_evaluated (w : World) (sh : Shape) (c : Candidate) :
  In c (candidatesOf w sh) -> exists x y, evaluateCandidate w sh x y = Some c.
Proof.
  assert (In c (twoTangent w sh) -> exists x y, evaluateCandidate w sh x y = Some c) as H1.
  { unfold twoTangent. destruct (_ <=? _)%nat; [|intros []].
    rewrite in_flat_map. intros [ab [_ H]]. unfold twoTangentFor in H. cbv zeta in H.
    repeat (match type of H with In _ (if ?t then _ else _) => destruct t end;
            try contradiction).
    apply in_app_or in H. destruct H as [H|H]; apply pushIf_in in H; eauto. }
  assert (In c (oneTangent w sh) -> exists x y, evaluateCandidate w sh x y = Some c) as H2.
  { unfold oneTangent. rewrite in_flat_map. intros [b [_ H]].
    unfold oneTangentFor in H. cbv zeta in H. rewrite in_flat_map in H.
    destruct H as [k [_ H]]. apply pushIf_in in H. eauto. }
  assert (In c (gridScan w sh) -> exists x y, evaluateCandidate w sh x y = Some c) as H3.
  { unfold gridScan. cbv zeta. rewrite in_flat_map. intros [y [_ H]].
    rewrite in_flat_map in H. destruct H as [x [_ H]]. apply pushIf_in in H. eauto. }
  unfold candidatesOf. cbv zeta.
  destruct (twoTangent w sh) as [|c1 t1] eqn:E1.
  - destruct (oneTangent w sh) as [|c2 t2] eqn:E2; [exact H3|exact H2].
  - exact H1.
Qed.

Lemma selectStep_fold (required : nat) (cs : list Candidate) :
  forall acc c,
  fst (fold_left (selectStep required) cs acc) = Some c ->
  fst acc = Some c \/ In c cs.
Proof.
  induction cs as [|c0 rest IH]; intros acc c H; [left; exact H|].
  cbn [fold_left] in H. apply IH in H. destruct H as [H|H]; [|right; right; exact H].
  unfold selectStep in H.
  destruct (contacts c0 <? required)%nat; [left; exact H|].
  destruct (ext_ltb (score c0) (snd acc)); [|left; exact H].
  cbn in H. injection H as <-. right. left. reflexivity.
Qed.

Lemma selectBest_in (w : World) (cs : list Candidate) (c : Candidate) :
  selectBest w cs = Some c -> In c cs.
Proof.
  unfold selectBest. cbv zeta.
  match goal with |- context [selectStep ?r] => set (req := r) end.
  destruct (fst (fold_left (selectStep req) cs (None, Infinity))) as [c1|] eqn:E1.
  - intros H. injection H as <-. apply selectStep_fold in E1.
    destruct E1 as [E1|E1]; [discriminate|exact E1].
  - intros H. apply selectStep_fold in H. destruct H as [H|H]; [congruence|exact H].
Qed.

(** [placeMesh] either fails and changes nothing, or appends one body, at a
    position where it is within tolerance of every body already placed. *)
Lemma placeMesh_result (sh : Shape) (w : World) :
  (placeMesh sh w = (false, w))
  \/ (exists x y,
        placeMesh sh w = (true, addBodyEntry (bodyAt sh x y) w)
        /\ Forall (fun a => withinTolerance a (bodyAt sh x y)) (bodies w)).
Proof.
  unfold placeMesh. destruct (bodies w) as [|b0 rest] eqn:Eb.
  - destruct (firstShapeOutside w _); [left; reflexivity|].
    right. exists 0, 0. split; [reflexivity|constructor].
  - destruct (thirdCircleCenter w sh) as [p|] eqn:Et.
    + right. exists (vx p), (vy p). split; [reflexivity|].
      unfold thirdCircleCenter in Et. rewrite Eb in Et.
      destruct rest as [|b1 [|b2 rest]]; try discriminate.
      destruct (isCircle (shType sh) && isCircle (shapeType b0) && isCircle (shapeType b1))
        eqn:Ec; [|discriminate].
      apply andb_true_iff in Ec. destruct Ec as [Ec C1].
      apply andb_true_iff in Ec. destruct Ec as [Cs C0].
      apply find_some in Et. destruct Et as [Hin _].
      destruct (tangentCenters_exact _ _ _ _ Hin) as [D1 D2].
      destruct (tangentCenters_radii _ _ _ _ Hin) as [R1 R2].
      repeat constructor; unfold withinTolerance, bodyAt; simp_body;
        [rewrite Cs, C0|rewrite Cs, C1]; cbn [andb]; cbv zeta;
        rewrite hypot_flip; [rewrite D1|rewrite D2]; lra.
    + destruct (candidatesOf w sh) as [|c0 cs] eqn:Ecs; [left; reflexivity|].
      destruct (selectBest w (c0 :: cs)) as [best|] eqn:Es; [|left; reflexivity].
      right. exists (cx best), (cy best). split; [reflexivity|].
      apply selectBest_in in Es. rewrite <- Ecs in Es.
      apply candidatesOf_evaluated in Es. destruct Es as [x [y Ev]].
      apply evaluateCandidate_ok in Ev. destruct Ev as [-> [-> Hall]].
      rewrite <- Eb. exact Hall.
Qed.

(** ** Placement: invariants of a sequence of [placeMesh] calls *)

Lemma placedFrom_trans (w1 w2 w3 : World) :
  placedFrom w1 w2 -> placedFrom w2 w3 -> placedFrom w1 w3.
Proof.
  intros H12 H23. induction H23 as [|w sh _ IH]; [exact H12|].
  apply placed_more. exact IH.
Qed.

Lemma ordPairs_snoc (A : Type) (Rel : A -> A -> Prop) (l : list A) (x : A) :
  ForallOrdPairs Rel l -> Forall (fun a => Rel a x) l -> ForallOrdPairs Rel (l ++ [x]).
Proof.
  induction 1 as [|a l Ha Hl IH]; intros Hx; cbn.
  - constructor; constructor.
  - inversion Hx; subst. constructor.
    + apply Forall_app. split; [exact Ha|constructor; [assumption|constructor]].
    + apply IH. assumption.
Qed.

Lemma withinTolerance_registered (a b : Body) (n : Z) :
  withinTolerance a b -> withinTolerance a (setMagnetAnchored (setId b n) false).
Proof. intros H. exact H. Qed.

Lemma placeMesh_placedApart (sh : Shape) (w : World) :
  placedApart (bodies w) -> placedApart (bodies (snd (placeMesh sh w))).
Proof.
  intros H. destruct (placeMesh_result sh w) as [->|[x [y [-> Hall]]]]; [exact H|].
  cbn [snd]. unfold addBodyEntry. cbn [bodies].
  apply ordPairs_snoc; [exact H|].
  eapply Forall_impl; [|exact Hall]. intros a Ha.
  apply withinTolerance_registered. exact Ha.
Qed.

Lemma placeMesh_idsInOrder (sh : Shape) (w : World) :
  idsInOrder w -> idsInOrder (snd (placeMesh sh w)).
Proof.
  intros [Hids Hnext]. destruct (placeMesh_result sh w) as [->|[x [y [-> _]]]];
    [split; assumption|].
  cbn [snd]. unfold idsInOrder, addBodyEntry. cbn [bodies nextBodyId].
  rewrite length_app. cbn [length]. rewrite Nat.add_1_r.
  split.
  - rewrite map_app. cbn [map]. simp_body. rewrite Hids, Hnext.
    rewrite seq_S. rewrite map_app. reflexivity.
  - rewrite Hnext. lia.
Qed.

(** What no call of [placeMesh] touches, and what it only extends. *)
Lemma placeMesh_frame (sh : Shape) (w : World) :
  let w' := snd (placeMesh sh w) in
  worldBoundsX w' = worldBoundsX w /\ worldBoundsY w' = worldBoundsY w
  /\ colorTransferEnabled w' = colorTransferEnabled w
  /\ sceneRef w' = sceneRef w /\ physicsEnabled w' = physicsEnabled w
  /\ exists more, bodies w' = bodies w ++ more.
Proof.
  cbv zeta. destruct (placeMesh_result sh w) as [->|[x [y [-> _]]]]; cbn [snd].
  - repeat split. exists []. rewrite app_nil_r. reflexivity.
  - unfold addBodyEntry. cbn. repeat split. eexists. reflexivity.
Qed.

Lemma placedFrom_placedApart (w w' : World) :
  placedFrom w w' -> placedApart (bodies w) -> placedApart (bodies w').
Proof.
  induction 1 as [|w1 sh _ IH]; intros H; [exact H|].
  apply placeMesh_placedApart. apply IH. exact H.
Qed.

Lemma placedFrom_idsInOrder (w w' : World) :
  placedFrom w w' -> idsInOrder w -> idsInOrder w'.
Proof.
  induction 1 as [|w1 sh _ IH]; intros H; [exact H|].
  apply placeMesh_idsInOrder. apply IH. exact H.
Qed.

Lemma placedFrom_frame (w w' : World) :
  placedFrom w w' ->
  worldBoundsX w' = worldBoundsX w /\ worldBoundsY w' = worldBoundsY w
  /\ colorTransferEnabled w' = colorTransferEnabled w
  /\ sceneRef w' = sceneRef w /\ physicsEnabled w' = physicsEnabled w
  /\ exists more, bodies w' = bodies w ++ more.
Proof.
  induction 1 as [|w1 sh _ IH].
  - repeat split. exists []. rewrite app_nil_r. reflexivity.
  - destruct IH as [A [B [C [D [E [m1 F]]]]]].
    destruct (placeMesh_frame sh w1) as [A' [B' [C' [D' [E' [m2 F']]]]]].
    repeat split; try congruence.
    exists (m1 ++ m2). rewrite F', F. rewrite app_assoc. reflexivity.
Qed.

(** *** The steps of [createShapes] are sequences of [placeMesh] calls *)

Lemma draw_world (st : Build) : world (snd (draw st)) = world st.
Proof. unfold draw. destruct (rngNext (rng st)). reflexivity. Qed.

Lemma randomColor_world (st : Build) : world (randomColor st) = world st.
Proof. unfold randomColor. rewrite !draw_world. reflexivity. Qed.

Lemma takePresetIndex_world (st : Build) : world (snd (takePresetIndex st)) = world st.
Proof.
  unfold takePresetIndex. destruct (availablePresetIndices st); [reflexivity|].
  pose proof (draw_world st) as H. destruct (draw st) as [r st1]. cbn in *. exact H.
Qed.

Lemma makeMaterialFromPreset_world (p : option PresetKind) (st : Build) :
  world (makeMaterialFromPreset p st) = world st.
Proof. destruct p as [[|]|]; cbn; auto using randomColor_world. Qed.

Lemma triangleColors_world (p : option PresetKind) (st : Build) :
  world (triangleColors p st) = world st.
Proof. destruct p as [[|]|]; cbn; auto using randomColor_world. Qed.

Lemma placeIn_world (sh : Shape) (st : Build) :
  world (snd (placeIn sh st)) = snd (placeMesh sh (world st)).
Proof. unfold placeIn. destruct (placeMesh sh (world st)). reflexivity. Qed.

Lemma tryRotations_placed (n : nat) (mk : R -> Shape) :
  forall st, placedFrom (world st) (world (tryRotations n mk st)).
Proof.
  induction n as [|n IH]; intros st; [apply placed_none|].
  cbn [tryRotations].
  pose proof (draw_world st) as Hd. destruct (draw st) as [r st1]. cbn [snd] in Hd.
  pose proof (placeIn_world (mk (r * PI * 2)) st1) as Hp.
  destruct (placeIn (mk (r * PI * 2)) st1) as [ok st2]. cbn [snd] in Hp.
  assert (placedFrom (world st) (world st2)) as H2.
  { rewrite Hp, Hd. apply placed_more. apply placed_none. }
  destruct ok; [exact H2|].
  eapply placedFrom_trans; [exact H2|apply IH].
Qed.

Lemma addCircle_placed (radius : R) (st : Build) :
  placedFrom (world st) (world (addCircle radius st)).
Proof.
  unfold addCircle. cbv zeta.
  pose proof (takePresetIndex_world st) as Ht.
  destruct (takePresetIndex st) as [idx st1]. cbn [snd] in Ht.
  rewrite placeIn_world, makeMaterialFromPreset_world, Ht.
  apply placed_more. apply placed_none.
Qed.

Lemma addRect_placed (width height : R) (st : Build) :
  placedFrom (world st) (world (addRect width height st)).
Proof.
  unfold addRect. cbv zeta.
  pose proof (takePresetIndex_world st) as Ht.
  destruct (takePresetIndex st) as [idx st1]. cbn [snd] in Ht.
  rewrite <- Ht. rewrite <- (makeMaterialFromPreset_world (nth_error COLOR_PRESETS idx) st1).
  apply tryRotations_placed.
Qed.

Lemma addTriangle_placed (size : R) (st : Build) :
  placedFrom (world st) (world (addTriangle size st)).
Proof.
  unfold addTriangle. cbv zeta.
  pose proof (takePresetIndex_world st) as Ht.
  destruct (takePresetIndex st) as [idx st1]. cbn [snd] in Ht.
  rewrite <- Ht. rewrite <- (triangleColors_world (nth_error COLOR_PRESETS idx) st1).
  apply tryRotations_placed.
Qed.

(** *** The closing loop of [createShapes] only sets the motion *)

Lemma samePlacement_refl (b : Body) : samePlacement b b.
Proof. unfold samePlacement. repeat split. Qed.

Lemma kickBody_placement (b : Body) (h : Z) : samePlacement b (fst (kickBody b h)).
Proof.
  unfold kickBody, randomVelocity. cbv zeta.
  repeat match goal with
         | |- context [rngNext ?x] => destruct (rngNext x)
         | |- context [if ?c then _ else _] => destruct c
         end; cbn [fst]; unfold samePlacement; simp_body; repeat split.
Qed.

Lemma kickBodies_placement (bs : list Body) :
  forall h, Forall2 samePlacement bs (fst (kickBodies bs h)).
Proof.
  induction bs as [|b rest IH]; intros h; cbn [kickBodies]; [constructor|].
  pose proof (kickBody_placement b h) as Hb.
  destruct (kickBody b h) as [b' h1]. cbn [fst] in Hb.
  specialize (IH h1). destruct (kickBodies rest h1) as [rest' h2]. cbn [fst] in *.
  constructor; assumption.
Qed.

Lemma withinTolerance_placement (a a' b b' : Body) :
  samePlacement a a' -> samePlacement b b' -> withinTolerance a b -> withinTolerance a' b'.
Proof.
  unfold samePlacement, withinTolerance, getWorldVertices.
  intros [_ [A1 [A2 [A3 [A4 [A5 [A6 _]]]]]]] [_ [B1 [B2 [B3 [B4 [B5 [B6 _]]]]]]].
  rewrite A1, A2, A3, A4, A5, A6, B1, B2, B3, B4, B5, B6. auto.
Qed.

Lemma placedApart_placement (l l' : list Body) :
  Forall2 samePlacement l l' -> placedApart l -> placedApart l'.
Proof.
  unfold placedApart. induction 1 as [|a a' l l' Ha Hl IH]; intros H; [constructor|].
  inversion H as [|? ? Hall Hrest]; subst. constructor; [|apply IH; exact Hrest].
  clear IH H Hrest. induction Hl as [|b b' l l' Hb _ IHl]; [constructor|].
  inversion Hall; subst. constructor.
  - eapply withinTolerance_placement; eauto.
  - apply IHl. assumption.
Qed.

Lemma Forall2_map_eq (A : Type) (f : Body -> A) (Rel : Body -> Body -> Prop)
  (l l' : list Body) :
  (forall x y, Rel x y -> f y = f x) -> Forall2 Rel l l' -> map f l' = map f l.
Proof.
  intros Hf. induction 1 as [|x y l l' Hxy _ IH]; [reflexivity|].
  cbn. rewrite IH, (Hf x y Hxy). reflexivity.
Qed.

Lemma placeShapes_placed (st0 : Build) : placedFrom (world st0) (world (placeShapes st0)).
Proof.
  unfold placeShapes, addSquare. cbv zeta.
  eapply placedFrom_trans; [|apply addRect_placed].
  eapply placedFrom_trans; [|apply addCircle_placed].
  eapply placedFrom_trans; [|apply addTriangle_placed].
  eapply placedFrom_trans; [|apply addRect_placed].
  eapply placedFrom_trans; [|apply addRect_placed].
  eapply placedFrom_trans; [|apply addCircle_placed].
  eapply placedFrom_trans; [|apply addRect_placed].
  eapply placedFrom_trans; [|apply addTriangle_placed].
  eapply placedFrom_trans; [|apply addRect_placed].
  apply addCircle_placed.
Qed.

(** [createShapes] is a sequence of [placeMesh] calls followed by the
    closing loop. *)
Lemma createShapes_phases (h : Z) (w : World) :
  exists st,
    placedFrom w (world st)
    /\ bodies (world (createShapes h w)) = fst (kickBodies (bodies (world st)) (rng st))
    /\ nextBodyId (world (createShapes h w)) = nextBodyId (world st)
    /\ physicsEnabled (world (createShapes h w)) = true
    /\ worldBoundsX (world (createShapes h w)) = worldBoundsX (world st)
    /\ worldBoundsY (world (createShapes h w)) = worldBoundsY (world st)
    /\ colorTransferEnabled (world (createShapes h w)) = colorTransferEnabled (world st)
    /\ sceneRef (world (createShapes h w)) = sceneRef (world st).
Proof.
  exists (placeShapes (mkBuild h (seq 0 (length COLOR_PRESETS)) w)).
  split; [exact (placeShapes_placed (mkBuild h (seq 0 (length COLOR_PRESETS)) w))|].
  unfold createShapes. cbv zeta.
  generalize (placeShapes (mkBuild h (seq 0 (length COLOR_PRESETS)) w)) as st.
  intros st. unfold setPhysicsEnabled. cbn [bodies].
  destruct (kickBodies (bodies (world st)) (rng st)) as [bs h']. cbn.
  repeat split.
Qed.

Lemma ordPairs_nth (bs : list Body) :
  placedApart bs ->
  forall i j a b, (i < j)%nat -> nth_error bs i = Some a -> nth_error bs j = Some b ->
                  withinTolerance a b.
Proof.
  unfold placedApart. induction 1 as [|x l Hx Hl IH]; intros i j a b Hij Hi Hj.
  - destruct i; discriminate.
  - destruct j as [|j]; [lia|]. cbn in Hj. destruct i as [|i].
    + cbn in Hi. injection Hi as <-. rewrite Forall_forall in Hx.
      apply Hx. eapply nth_error_In; eauto.
    + cbn in Hi. apply (IH i j); auto. lia.
Qed.

(** ** C2: overlap tolerance after the placement phase *)

(** X2 (C2).  After [createShapes] has run from a state without bodies (all
    shapes placed by [placeMesh], no simulation step run), every pair of
    placed bodies, earlier one first, is within the placement tolerance: for
    two circles the deficit of the centre distance below the sum of the
    contact radii is at most 3% of that sum, and for any other pair the
    separating-axis test reports no contact or a depth of at most 0.002. *)
Theorem placement_within_tolerance (h : Z) (w : World) :
  bodies w = [] ->
  placedApart (bodies (world (createShapes h w)))
  /\ forall i j a b,
       (i < j)%nat ->
       nth_error (bodies (world (createShapes h w))) i = Some a ->
       nth_error (bodies (world (createShapes h w))) j = Some b ->
       withinTolerance a b.
Proof.
  intros Hb.
  assert (placedApart (bodies (world (createShapes h w)))) as H.
  { destruct (createShapes_phases h w) as [st [Hp [Hbs _]]]. rewrite Hbs.
    eapply placedApart_placement; [apply kickBodies_placement|].
    eapply placedFrom_placedApart; [exact Hp|]. rewrite Hb. constructor. }
  split; [exact H|apply ordPairs_nth; exact H].
Qed.

Lemma placement_within_tolerance_witness :
  placedApart (bodies (world (createShapes (Rng.createRng "seed") initialWorld)))
  /\ forall i j a b,
       (i < j)%nat ->
       nth_error (bodies (world (createShapes (Rng.createRng "seed") initialWorld))) i
         = Some a ->
       nth_error (bodies (world (createShapes (Rng.createRng "seed") initialWorld))) j
         = Some b ->
       withinTolerance a b.
Proof.
  apply (placement_within_tolerance (Rng.createRng "seed") initialWorld).
  reflexivity.
Defined.

(** ** C10: body identifiers *)

Lemma createShapes_idsInOrder (h : Z) (w : World) :
  idsInOrder w -> idsInOrder (world (createShapes h w)).
Proof.
  intros Hw. destruct (createShapes_phases h w) as [st [Hp [Hbs [Hn _]]]].
  pose proof (placedFrom_idsInOrder _ _ Hp Hw) as [Hids Hnext].
  pose proof (kickBodies_placement (bodies (world st)) (rng st)) as HF.
  unfold idsInOrder. rewrite Hbs, Hn.
  rewrite (Forall2_map_eq Z id samePlacement _ _
             (fun x y (H : samePlacement x y) => proj1 H) HF).
  rewrite <- (Forall2_length HF). split; assumption.
Qed.

Lemma idsInOrder_NoDup (w : World) : idsInOrder w -> NoDup (map id (bodies w)).
Proof.
  intros [H _]. rewrite H. apply Finite.Injective_map_NoDup.
  - intros x y. apply Nat2Z.inj.
  - apply seq_NoDup.
Qed.

Lemma updatePhysics_ids (dt : R) (w w' : World) :
  updatePhysics dt w = Some w' ->
  map id (bodies w') = map id (bodies w) /\ nextBodyId w' = nextBodyId w.
Proof.
  unfold updatePhysics. destruct (physicsEnabled w); cbn [negb].
  - destruct (collideAll _ _) as [bs|] eqn:Ec; [|discriminate].
    intros H.
    assert (bodies w' = bs /\ nextBodyId w' = nextBodyId w) as [-> ->]
      by (destruct (existsb stillMoving bs); cbn in H; injection H as <-; auto).
    split; [|reflexivity].
    pose proof (collideAll_pointwise sameStatic (colorTransferEnabled w)
                  sameStatic_refl sameStatic_trans collidePair_static _ _ Ec) as HF.
    rewrite (Forall2_map_eq Z id sameStatic _ _
               (fun x y (H : sameStatic x y) => proj1 H) HF).
    rewrite map_map. apply map_ext. intros b.
    exact (proj1 (moveBody_static dt (worldBoundsX w) (worldBoundsY w) b)).
  - intros H. injection H as <-. auto.
Qed.

(** X3 (C10, amended).  Within one composition the identifiers are unique and
    handed out by a counter that grows by one per registered body: after
    [createScene] and after every [regenerateComposition] the bodies carry
    the identifiers 1, 2, ..., n in insertion order and the counter holds
    n + 1; a simulation step changes neither an identifier nor the counter.
    (A rebuild starts the counter at 1 again.) *)
Theorem ids_within_composition :
  (forall seed halfWidth halfHeight,
     idsInOrder (createScene seed halfWidth halfHeight initialWorld)
     /\ NoDup (map id (bodies (createScene seed halfWidth halfHeight initialWorld))))
  /\ (forall seed w,
        sceneRef w = true ->
        idsInOrder (regenerateComposition seed w)
        /\ NoDup (map id (bodies (regenerateComposition seed w))))
  /\ (forall dt w w',
        updatePhysics dt w = Some w' ->
        map id (bodies w') = map id (bodies w) /\ nextBodyId w' = nextBodyId w).
Proof.
  split; [|split].
  - intros seed hw hh.
    assert (idsInOrder (createScene seed hw hh initialWorld)) as H.
    { unfold createScene. apply createShapes_idsInOrder. split; reflexivity. }
    split; [exact H|apply idsInOrder_NoDup; exact H].
  - intros seed w Hs.
    assert (idsInOrder (regenerateComposition seed w)) as H.
    { unfold regenerateComposition. rewrite Hs. cbn [negb].
      apply createShapes_idsInOrder. split; reflexivity. }
    split; [exact H|apply idsInOrder_NoDup; exact H].
  - apply updatePhysics_ids.
Qed.

(** ** The generator *)

Lemma toInt32_range (z : Z) : (- 2147483648 <= Rng.toInt32 z < 2147483648)%Z.
Proof.
  unfold Rng.toInt32.
  pose proof (Z.mod_pos_bound (z + 2147483648) 4294967296 eq_refl). lia.
Qed.

Lemma toInt32_small (z : Z) :
  (- 2147483648 <= z < 2147483648)%Z -> Rng.toInt32 z = z.
Proof.
  intros H. unfold Rng.toInt32. rewrite Z.mod_small by lia. lia.
Qed.

Lemma toInt32_mod (z : Z) : (Rng.toInt32 z mod 4294967296 = z mod 4294967296)%Z.
Proof.
  unfold Rng.toInt32.
  rewrite Zminus_mod, Zmod_mod, <- Zminus_mod. f_equal. lia.
Qed.

Lemma toInt32_eqm (a b : Z) :
  (a mod 4294967296 = b mod 4294967296)%Z -> Rng.toInt32 a = Rng.toInt32 b.
Proof.
  intros H. unfold Rng.toInt32.
  rewrite (Zplus_mod a), (Zplus_mod b), H. reflexivity.
Qed.

Lemma or32_zero (z : Z) : Rng.or32 z 0 = Rng.toInt32 z.
Proof.
  unfold Rng.or32. change (Rng.toInt32 0) with 0%Z. rewrite Z.lor_0_r.
  apply toInt32_small, toInt32_range.
Qed.

Lemma mulberry32_next (h : Z) :
  snd (Rng.mulberry32 h) = Rng.toInt32 (h + 1831565813).
Proof.
  unfold Rng.mulberry32. cbn [snd]. rewrite !or32_zero.
  apply toInt32_eqm. rewrite Zplus_mod, toInt32_mod, <- Zplus_mod. reflexivity.
Qed.

Lemma mulberry32_numerator (h : Z) :
  (0 <= fst (Rng.mulberry32 h) < 4294967296)%Z.
Proof.
  unfold Rng.mulberry32. cbn [fst]. unfold Rng.toUint32.
  apply Z.mod_pos_bound. reflexivity.
Qed.

Lemma rngNext_fst (h : Z) : fst (rngNext h) = IZR (fst (Rng.mulberry32 h)) / 4294967296.
Proof. unfold rngNext. destruct (Rng.mulberry32 h). reflexivity. Qed.

Lemma rngNext_snd (h : Z) : snd (rngNext h) = snd (Rng.mulberry32 h).
Proof. unfold rngNext. destruct (Rng.mulberry32 h). reflexivity. Qed.

Lemma rngNext_unit (h : Z) : 0 <= fst (rngNext h) < 1.
Proof.
  rewrite rngNext_fst.
  destruct (mulberry32_numerator h) as [H0 H1].
  apply IZR_le in H0. apply IZR_lt in H1.
  split.
  - apply Rmult_le_pos; [exact H0|]. apply Rlt_le, Rinv_0_lt_compat. lra.
  - apply Rmult_lt_reg_r with 4294967296; [lra|].
    unfold Rdiv. rewrite Rmult_assoc, Rinv_l by lra. lra.
Qed.

(** X4. Every Number returned by the generator lies in [0, 1), and the
    state after [n >= 1] calls is the state before, advanced [n] times by
    the constant 0x6d2b79f5 and wrapped to a signed 32-bit integer: the
    state is a counter, whatever the outputs are. *)
Theorem rng_outputs_and_state (h : Z) (n : nat) :
  0 <= fst (rngNext (rngSkip n h)) < 1
  /\ rngSkip (S n) h = Rng.toInt32 (h + Z.of_nat (S n) * 1831565813).
Proof.
  split; [apply rngNext_unit|].
  induction n as [|n IH].
  - change (rngSkip 1 h) with (snd (Rng.mulberry32 h)).
    rewrite mulberry32_next. f_equal.
  - change (rngSkip (S (S n)) h) with (snd (Rng.mulberry32 (rngSkip (S n) h))).
    rewrite mulberry32_next, IH. apply toInt32_eqm.
    rewrite Zplus_mod, toInt32_mod, <- Zplus_mod. f_equal. lia.
Qed.

(** ** Colour presets: each one is handed out once *)

Lemma floor_range (r : R) (n : nat) :
  0 <= r < 1 -> (0 < n)%nat -> (Z.to_nat (floor (r * INR n)) < n)%nat.
Proof.
  intros [H0 H1] Hn. unfold floor.
  assert (Hpos : 0 < INR n) by (apply lt_0_INR; exact Hn).
  destruct (base_Int_part (r * INR n)) as [Hle Hgt].
  assert (Hlt : IZR (Int_part (r * INR n)) < INR n) by nra.
  assert (Hge : (0 <= Int_part (r * INR n))%Z).
  { apply Z.lt_succ_r. apply lt_IZR. rewrite succ_IZR.
    assert (0 <= r * INR n) by nra. lra. }
  apply Nat2Z.inj_lt. rewrite Z2Nat.id by assumption.
  apply lt_IZR. rewrite <- INR_IZR_INZ. exact Hlt.
Qed.

Lemma draw_fst (st : Build) : fst (draw st) = fst (rngNext (rng st)).
Proof. unfold draw. destruct (rngNext (rng st)). reflexivity. Qed.

Lemma draw_pool (st : Build) :
  availablePresetIndices (snd (draw st)) = availablePresetIndices st.
Proof. unfold draw. destruct (rngNext (rng st)). reflexivity. Qed.

Lemma spliceOut_perm (idx : nat) (l : list nat) :
  (idx < length l)%nat -> Permutation l (nth idx l O :: spliceOut idx l).
Proof.
  revert idx. induction l as [|x l IH]; intros idx H; [cbn in H; lia|].
  destruct idx as [|idx].
  - cbn. apply Permutation_refl.
  - cbn [nth]. unfold spliceOut. cbn [firstn skipn app].
    eapply perm_trans; [|apply perm_swap].
    apply perm_skip. apply IH. cbn in H. lia.
Qed.

Lemma takePresetIndex_cases (st : Build) :
  availablePresetIndices st <> [] ->
  exists idx,
    (idx < length (availablePresetIndices st))%nat
    /\ fst (takePresetIndex st) = nth idx (availablePresetIndices st) O
    /\ availablePresetIndices (snd (takePresetIndex st))
       = spliceOut idx (availablePresetIndices st)
    /\ world (snd (takePresetIndex st)) = world st.
Proof.
  intros Hne. unfold takePresetIndex.
  destruct (availablePresetIndices st) as [|x l] eqn:E; [congruence|].
  pose proof (draw_fst st) as Hf. pose proof (draw_world st) as Hw.
  destruct (draw st) as [r st1]. cbn [fst snd] in *.
  exists (Z.to_nat (floor (r * INR (length (x :: l))))).
  repeat split; try assumption.
  apply floor_range; [rewrite Hf; apply rngNext_unit | cbn; lia].
Qed.

(** X5. [takePresetIndex] on a non-empty pool returns a member of the pool
    and removes exactly that occurrence: the old pool is a permutation of the
    returned index followed by the new pool, the index is gone from the new
    pool when the old one had no duplicates, and the global state is left
    alone. *)
Theorem takePresetIndex_removes (st : Build) :
  availablePresetIndices st <> [] ->
  let i := fst (takePresetIndex st) in
  let st' := snd (takePresetIndex st) in
  Permutation (availablePresetIndices st) (i :: availablePresetIndices st')
  /\ In i (availablePresetIndices st)
  /\ (NoDup (availablePresetIndices st) -> ~ In i (availablePresetIndices st'))
  /\ S (length (availablePresetIndices st')) = length (availablePresetIndices st)
  /\ world st' = world st.
Proof.
  intros Hne i st'.
  destruct (takePresetIndex_cases st Hne) as (idx & Hlt & Hi & Hp & Hw).
  fold i in Hi. fold st' in Hp, Hw.
  assert (P : Permutation (availablePresetIndices st) (i :: availablePresetIndices st')).
  { rewrite Hi, Hp. apply spliceOut_perm, Hlt. }
  split; [exact P|]. split.
  - eapply Permutation_in; [apply Permutation_sym, P|]. left. reflexivity.
  - split.
    + intros ND. eapply Permutation_NoDup in ND; [|exact P].
      inversion ND; assumption.
    + split; [|exact Hw]. apply Permutation_length in P. cbn in P. lia.
Qed.

Lemma takePresetIndex_removes_witness :
  S (length (availablePresetIndices
               (snd (takePresetIndex (mkBuild 0 [0; 1; 2]%nat initialWorld))))) = 3%nat.
Proof.
  refine (proj1 (proj2 (proj2 (proj2
            (takePresetIndex_removes (mkBuild 0 [0; 1; 2]%nat initialWorld) _))))).
  cbn. discriminate.
Defined.

Lemma placeIn_cases (sh : Shape) (st : Build) :
  availablePresetIndices (snd (placeIn sh st)) = availablePresetIndices st
  /\ ((fst (placeIn sh st) = false /\ world (snd (placeIn sh st)) = world st)
      \/ (fst (placeIn sh st) = true
          /\ exists b, bodies (world (snd (placeIn sh st))) = bodies (world st) ++ [b]
                       /\ colorIndex b = shColorIndex sh)).
Proof.
  unfold placeIn.
  destruct (placeMesh_result sh (world st)) as [E|[x [y [E _]]]]; rewrite E; cbn [fst snd].
  - split; [reflexivity|]. left. split; reflexivity.
  - split; [reflexivity|]. right. split; [reflexivity|].
    eexists. split; [reflexivity|]. reflexivity.
Qed.

Lemma tryRotations_cases (i : nat) (mk : R -> Shape) :
  (forall r, shColorIndex (mk r) = i) ->
  forall attempts st,
    availablePresetIndices (tryRotations attempts mk st) = availablePresetIndices st
    /\ (bodies (world (tryRotations attempts mk st)) = bodies (world st)
        \/ exists b, bodies (world (tryRotations attempts mk st)) = bodies (world st) ++ [b]
                     /\ colorIndex b = i).
Proof.
  intros Hmk attempts. induction attempts as [|n IH]; intros st.
  - cbn. split; [reflexivity|]. left. reflexivity.
  - cbn [tryRotations].
    pose proof (draw_pool st) as Hp. pose proof (draw_world st) as Hw.
    destruct (draw st) as [r st1]. cbn [snd] in Hp, Hw.
    destruct (placeIn_cases (mk (r * PI * 2)) st1) as [Hq Hc].
    destruct (placeIn (mk (r * PI * 2)) st1) as [ok st2]. cbn [fst snd] in Hq, Hc.
    destruct Hc as [[-> Hs]|[-> [b [Hb Hi]]]].
    + destruct (IH st2) as [IH1 IH2]. rewrite IH1, Hq, Hp. split; [reflexivity|].
      rewrite Hs, Hw in IH2. exact IH2.
    + rewrite Hq, Hp. split; [reflexivity|]. right. exists b.
      rewrite Hb, Hw, Hi, Hmk. split; reflexivity.
Qed.

Lemma randomColor_pool (st : Build) :
  availablePresetIndices (randomColor st) = availablePresetIndices st.
Proof. unfold randomColor. rewrite !draw_pool. reflexivity. Qed.

Lemma makeMaterialFromPreset_pool (p : option PresetKind) (st : Build) :
  availablePresetIndices (makeMaterialFromPreset p st) = availablePresetIndices st.
Proof. destruct p as [[|]|]; cbn; [reflexivity|reflexivity|apply randomColor_pool]. Qed.

Lemma triangleColors_pool (p : option PresetKind) (st : Build) :
  availablePresetIndices (triangleColors p st) = availablePresetIndices st.
Proof. destruct p as [[|]|]; cbn; [reflexivity|reflexivity|apply randomColor_pool]. Qed.

Lemma addCircle_takesOne (radius : R) (st : Build) :
  availablePresetIndices st <> [] -> takesOne st (addCircle radius st).
Proof.
  intros Hne. unfold addCircle.
  destruct (takePresetIndex_cases st Hne) as (idx & Hlt & Hi & Hp & Hw).
  destruct (takePresetIndex st) as [i st1]. cbn [fst snd] in *.
  set (st2 := makeMaterialFromPreset _ st1).
  set (sh := mkShape _ _ _ _ _ _).
  destruct (placeIn_cases sh st2) as [Hq Hc].
  exists i. split.
  - rewrite Hq. unfold st2. rewrite makeMaterialFromPreset_pool, Hp, Hi.
    apply spliceOut_perm, Hlt.
  - assert (Hw2 : world st2 = world st)
      by (unfold st2; rewrite makeMaterialFromPreset_world; exact Hw).
    destruct Hc as [[_ Hs]|[_ [b [Hb Hc]]]].
    + left. rewrite Hs, Hw2. reflexivity.
    + right. exists b. rewrite Hb, Hw2. split; [reflexivity|exact Hc].
Qed.

Lemma addRect_takesOne (width height : R) (st : Build) :
  availablePresetIndices st <> [] -> takesOne st (addRect width height st).
Proof.
  intros Hne. unfold addRect.
  destruct (takePresetIndex_cases st Hne) as (idx & Hlt & Hi & Hp & Hw).
  destruct (takePresetIndex st) as [i st1]. cbn [fst snd] in *.
  set (st2 := makeMaterialFromPreset _ st1).
  match goal with |- takesOne _ (tryRotations ?n ?mk _) =>
    destruct (tryRotations_cases i mk (fun _ => eq_refl) n st2) as [Hq Hc] end.
  exists i. split.
  - rewrite Hq. unfold st2. rewrite makeMaterialFromPreset_pool, Hp, Hi.
    apply spliceOut_perm, Hlt.
  - assert (Hw2 : world st2 = world st)
      by (unfold st2; rewrite makeMaterialFromPreset_world; exact Hw).
    rewrite Hw2 in Hc. exact Hc.
Qed.

Lemma addTriangle_takesOne (size : R) (st : Build) :
  availablePresetIndices st <> [] -> takesOne st (addTriangle size st).
Proof.
  intros Hne. unfold addTriangle.
  destruct (takePresetIndex_cases st Hne) as (idx & Hlt & Hi & Hp & Hw).
  destruct (takePresetIndex st) as [i st1]. cbn [fst snd] in *.
  set (st2 := triangleColors _ st1).
  match goal with |- takesOne _ (tryRotations ?n ?mk _) =>
    destruct (tryRotations_cases i mk (fun _ => eq_refl) n st2) as [Hq Hc] end.
  exists i. split.
  - rewrite Hq. unfold st2. rewrite triangleColors_pool, Hp, Hi.
    apply spliceOut_perm, Hlt.
  - assert (Hw2 : world st2 = world st)
      by (unfold st2; rewrite triangleColors_world; exact Hw).
    rewrite Hw2 in Hc. exact Hc.
Qed.

(** What [takesOne] does to the colours in use, to the size of the pool and
    to the number of bodies. *)
Lemma takesOne_colours (st st' : Build) (k : nat) :
  takesOne st st' ->
  length (availablePresetIndices st) = S k ->
  NoDup (coloursOf st) ->
  length (availablePresetIndices st') = k
  /\ NoDup (coloursOf st')
  /\ incl (coloursOf st') (coloursOf st)
  /\ (length (bodies (world st')) <= S (length (bodies (world st))))%nat.
Proof.
  intros [i [P Hb]] Hl ND. unfold coloursOf in *.
  assert (Hl' : length (availablePresetIndices st') = k).
  { apply Permutation_length in P. cbn in P. lia. }
  split; [exact Hl'|].
  assert (ND2 : NoDup (map colorIndex (bodies (world st)) ++ i :: availablePresetIndices st')).
  { eapply Permutation_NoDup; [|exact ND]. apply Permutation_app_head. exact P. }
  assert (I2 : incl (map colorIndex (bodies (world st)) ++ i :: availablePresetIndices st')
                    (map colorIndex (bodies (world st)) ++ availablePresetIndices st)).
  { intros x Hx. eapply Permutation_in; [|exact Hx].
    apply Permutation_app_head. apply Permutation_sym. exact P. }
  destruct Hb as [E|[b [E Hc]]]; rewrite E.
  - split; [|split; [|lia]].
    + apply NoDup_remove_1 in ND2. exact ND2.
    + intros x Hx. apply I2. apply in_app_iff in Hx. apply in_app_iff.
      destruct Hx; [left; assumption|right; right; assumption].
  - rewrite map_app, <- app_assoc. cbn [map app]. rewrite Hc.
    split; [exact ND2|]. split; [exact I2|]. rewrite length_app. cbn. lia.
Qed.

Lemma takesOne_invariant (k : nat) (st st' : Build) :
  takesOne st st' -> poolInvariant (S k) st -> poolInvariant k st'.
Proof.
  intros T (Hl & ND & Hi & Hn).
  destruct (takesOne_colours st st' k T Hl ND) as (L & N & I & B).
  repeat split; try assumption.
  - intros x Hx. apply Hi, I, Hx.
  - lia.
Qed.

Lemma pool_nonempty (k : nat) (st : Build) :
  poolInvariant (S k) st -> availablePresetIndices st <> [].
Proof. intros [Hl _] E. rewrite E in Hl. discriminate. Qed.

Lemma addCircle_invariant (radius : R) (k : nat) (st : Build) :
  poolInvariant (S k) st -> poolInvariant k (addCircle radius st).
Proof.
  intros H. eapply takesOne_invariant; [|exact H].
  apply addCircle_takesOne. eapply pool_nonempty, H.
Qed.

Lemma addRect_invariant (width height : R) (k : nat) (st : Build) :
  poolInvariant (S k) st -> poolInvariant k (addRect width height st).
Proof.
  intros H. eapply takesOne_invariant; [|exact H].
  apply addRect_takesOne. eapply pool_nonempty, H.
Qed.

Lemma addSquare_invariant (size : R) (k : nat) (st : Build) :
  poolInvariant (S k) st -> poolInvariant k (addSquare size st).
Proof. unfold addSquare. apply addRect_invariant. Qed.

Lemma addTriangle_invariant (size : R) (k : nat) (st : Build) :
  poolInvariant (S k) st -> poolInvariant k (addTriangle size st).
Proof.
  intros H. eapply takesOne_invariant; [|exact H].
  apply addTriangle_takesOne. eapply pool_nonempty, H.
Qed.

Lemma placeShapes_invariant (st0 : Build) :
  poolInvariant 10 st0 -> poolInvariant 0 (placeShapes st0).
Proof.
  intros H. unfold placeShapes. cbv zeta.
  apply addSquare_invariant, addCircle_invariant, addTriangle_invariant,
    addRect_invariant, addSquare_invariant, addCircle_invariant,
    addRect_invariant, addTriangle_invariant, addSquare_invariant,
    addCircle_invariant, H.
Qed.

Lemma kickBodies_colours (bs : list Body) (h : Z) :
  map colorIndex (fst (kickBodies bs h)) = map colorIndex bs.
Proof.
  pose proof (kickBodies_placement bs h) as F.
  induction F as [|b b' l l' Hb _ IH]; [reflexivity|].
  cbn [map]. rewrite IH. f_equal. unfold samePlacement in Hb. tauto.
Qed.

Lemma createShapes_bodies (h : Z) (w : World) :
  bodies (world (createShapes h w))
  = fst (kickBodies
           (bodies (world (placeShapes (mkBuild h (seq 0 (length COLOR_PRESETS)) w))))
           (rng (placeShapes (mkBuild h (seq 0 (length COLOR_PRESETS)) w)))).
Proof.
  unfold createShapes. cbv zeta.
  generalize (placeShapes (mkBuild h (seq 0 (length COLOR_PRESETS)) w)). intros st.
  cbn [bodies setPhysicsEnabled].
  destruct (kickBodies _ _). reflexivity.
Qed.

Lemma initial_poolInvariant (h : Z) (w : World) :
  bodies w = [] -> poolInvariant 10 (mkBuild h (seq 0 (length COLOR_PRESETS)) w).
Proof.
  intros Hw. unfold poolInvariant, coloursOf. cbn [availablePresetIndices world].
  rewrite Hw. cbn [map app bodies length]. rewrite length_seq.
  split; [reflexivity|]. split; [apply seq_NoDup|]. split; [apply incl_refl|].
  cbn. lia.
Qed.
Lemma createShapes_pool (h : Z) (w : World) :
  bodies w = [] ->
  NoDup (map colorIndex (bodies (world (createShapes h w))))
  /\ incl (map colorIndex (bodies (world (createShapes h w)))) (seq 0 (length COLOR_PRESETS))
  /\ (length (bodies (world (createShapes h w))) <= length COLOR_PRESETS)%nat.
Proof.
  intros Hw.
  pose proof (placeShapes_invariant _ (initial_poolInvariant h w Hw)) as (Hl & ND & Hi & Hn).
  pose proof (kickBodies_colours
                (bodies (world (placeShapes (mkBuild h (seq 0 (length COLOR_PRESETS)) w))))
                (rng (placeShapes (mkBuild h (seq 0 (length COLOR_PRESETS)) w)))) as E.
  rewrite <- createShapes_bodies in E.
  revert Hl ND Hi Hn E. unfold coloursOf.
  generalize (placeShapes (mkBuild h (seq 0 (length COLOR_PRESETS)) w)).
  generalize (bodies (world (createShapes h w))).
  intros bs st Hl ND Hi Hn E.
  apply length_zero_iff_nil in Hl. rewrite Hl, app_nil_r in ND, Hi.
  rewrite <- E in ND, Hi.
  split; [exact ND|]. split; [exact Hi|].
  rewrite <- (length_map colorIndex), E, length_map. lia.
Qed.

(** X6. A composition built on an empty scene uses every colour preset
    at most once: the colour indices of its bodies are pairwise distinct, each
    is the index of a preset, and there are at most ten bodies. *)
Theorem createShapes_colours_distinct (h : Z) (w : World) :
  bodies w = [] ->
  NoDup (map colorIndex (bodies (world (createShapes h w))))
  /\ Forall (fun b => (colorIndex b < length COLOR_PRESETS)%nat)
       (bodies (world (createShapes h w)))
  /\ (length (bodies (world (createShapes h w))) <= length COLOR_PRESETS)%nat.
Proof.
  intros Hw. destruct (createShapes_pool h w Hw) as (ND & Hi & Hn).
  split; [exact ND|]. split; [|exact Hn].
  revert Hi. generalize (bodies (world (createShapes h w))). intros bs Hi.
  apply Forall_forall. intros b Hb.
  assert (In (colorIndex b) (seq 0 (length COLOR_PRESETS))) as Hin
    by (apply Hi, in_map, Hb).
  apply in_seq in Hin. lia.
Qed.

Lemma createShapes_colours_distinct_witness :
  NoDup (map colorIndex (bodies (world (createShapes 0 initialWorld)))).
Proof.
  exact (proj1 (createShapes_colours_distinct 0 initialWorld eq_refl)).
Defined.

(** ** The polygons of a composition *)

Lemma placedWith_trans (P : Shape -> Prop) (w1 w2 w3 : World) :
  placedWith P w1 w2 -> placedWith P w2 w3 -> placedWith P w1 w3.
Proof.
  intros H12 H23. induction H23; [exact H12|].
  apply placedWith_more; assumption.
Qed.

Lemma placeIn_placedWith (P : Shape -> Prop) (sh : Shape) (st : Build) :
  P sh -> placedWith P (world st) (world (snd (placeIn sh st))).
Proof.
  intros H. unfold placeIn.
  pose proof (placedWith_more P (world st) (world st) sh (placedWith_none P _) H) as G.
  destruct (placeMesh sh (world st)) as [ok w']. exact G.
Qed.

Lemma tryRotations_placedWith (P : Shape -> Prop) (mk : R -> Shape) :
  (forall r, P (mk r)) ->
  forall attempts st, placedWith P (world st) (world (tryRotations attempts mk st)).
Proof.
  intros Hmk attempts. induction attempts as [|n IH]; intros st.
  - apply placedWith_none.
  - cbn [tryRotations].
    pose proof (draw_world st) as Hw.
    destruct (draw st) as [r st1]. cbn [snd] in Hw. rewrite <- Hw.
    pose proof (placeIn_placedWith P (mk (r * PI * 2)) st1 (Hmk _)) as G.
    destruct (placeIn (mk (r * PI * 2)) st1) as [ok st2]. cbn [snd] in G.
    destruct ok; [exact G|].
    eapply placedWith_trans; [exact G|apply IH].
Qed.

Lemma addCircle_placedWith (P : Shape -> Prop) (radius : R) (st : Build) :
  (forall i, P (mkShape 0 (radius * 1.0) (circleVerts (radius * 1.0)) circle
                  (Some (radius * 1.0)) i)) ->
  placedWith P (world st) (world (addCircle radius st)).
Proof.
  intros H. unfold addCircle.
  pose proof (takePresetIndex_world st) as Hw.
  destruct (takePresetIndex st) as [i st1]. cbn [snd] in Hw.
  rewrite <- Hw, <- (makeMaterialFromPreset_world (nth_error COLOR_PRESETS i) st1).
  apply placeIn_placedWith, H.
Qed.

Lemma addRect_placedWith (P : Shape -> Prop) (width height : R) (st : Build) :
  (forall rot i,
     P (mkShape rot (maxRadius (rectLocal (width * 1.0 * 0.5) (height * 1.0 * 0.5)))
          (rectLocal (width * 1.0 * 0.5) (height * 1.0 * 0.5)) rect
          (Some (Rmin (width * 1.0 * 0.5) (height * 1.0 * 0.5) * 0.7)) i)) ->
  placedWith P (world st) (world (addRect width height st)).
Proof.
  intros H. unfold addRect.
  pose proof (takePresetIndex_world st) as Hw.
  destruct (takePresetIndex st) as [i st1]. cbn [snd] in Hw.
  rewrite <- Hw, <- (makeMaterialFromPreset_world (nth_error COLOR_PRESETS i) st1).
  apply tryRotations_placedWith. intros r. apply H.
Qed.

Lemma addTriangle_placedWith (P : Shape -> Prop) (size : R) (st : Build) :
  (forall rot i,
     P (mkShape rot
          (maxRadius [mkVec 0 (size * 1.0);
                      mkVec (- (size * 1.0) * 0.866) (- (size * 1.0) * 0.5);
                      mkVec (size * 1.0 * 0.866) (- (size * 1.0) * 0.5)])
          [mkVec 0 (size * 1.0);
           mkVec (- (size * 1.0) * 0.866) (- (size * 1.0) * 0.5);
           mkVec (size * 1.0 * 0.866) (- (size * 1.0) * 0.5)] tri
          (Some (maxRadius [mkVec 0 (size * 1.0);
                            mkVec (- (size * 1.0) * 0.866) (- (size * 1.0) * 0.5);
                            mkVec (size * 1.0 * 0.866) (- (size * 1.0) * 0.5)] * 0.6)) i)) ->
  placedWith P (world st) (world (addTriangle size st)).
Proof.
  intros H. unfold addTriangle.
  pose proof (takePresetIndex_world st) as Hw.
  destruct (takePresetIndex st) as [i st1]. cbn [snd] in Hw.
  rewrite <- Hw, <- (triangleColors_world (nth_error COLOR_PRESETS i) st1).
  apply tryRotations_placedWith. intros r. apply H.
Qed.

Lemma maxRadius_fold (verts : list Vec) (acc : R) :
  let f := fun acc v => let r := hypot (vx v) (vy v) in if r >? acc then r else acc in
  acc <= fold_left f verts acc
  /\ forall v, In v verts -> hypot (vx v) (vy v) <= fold_left f verts acc.
Proof.
  cbv zeta. revert acc. induction verts as [|x l IH]; intros acc.
  - cbn. split; [lra|]. intros v [].
  - cbn [fold_left].
    set (acc' := if hypot (vx x) (vy x) >? acc then hypot (vx x) (vy x) else acc).
    assert (Ha : acc <= acc' /\ hypot (vx x) (vy x) <= acc').
    { unfold acc'. destruct (hypot (vx x) (vy x) >? acc) eqn:E; bools; lra. }
    destruct (IH acc') as [I1 I2]. split; [lra|].
    intros v [<-|Hv]; [lra|]. apply I2, Hv.
Qed.

Lemma maxRadius_ge (verts : list Vec) (v : Vec) :
  In v verts -> hypot (vx v) (vy v) <= maxRadius verts.
Proof. intros H. apply (proj2 (maxRadius_fold verts 0)), H. Qed.

Lemma hypot_pos (x y : R) : x <> 0 \/ y <> 0 -> 0 < hypot x y.
Proof.
  intros H. destruct (hypot_nonneg x y) as [Hp|Hz]; [exact Hp|].
  symmetry in Hz. apply hypot_zero_iff in Hz. destruct Hz. destruct H; contradiction.
Qed.

Lemma axes_intro (verts : list Vec) (i : nat) :
  (i < length verts)%nat ->
  nth ((i + 1) mod length verts) verts (mkVec 0 0) <> nth i verts (mkVec 0 0) ->
  axesOf verts <> [].
Proof.
  intros Hi Hne.
  exact (proper_intro (mkBody 0 0 0 0 verts 0 0 0 0 (mkVec 0 0) 0 circle 0 false false None)
           i Hi Hne).
Qed.

Lemma circleVerts_solid (r : R) : 0 < r -> axesOf (circleVerts r) <> [].
Proof.
  intros Hr. apply (axes_intro _ 0).
  - unfold circleVerts. rewrite length_map, length_seq. lia.
  - unfold circleVerts. rewrite length_map, length_seq.
    change ((0 + 1) mod 20)%nat with 1%nat. cbn [seq map nth].
    intros H. injection H as _ Hy.
    pose proof PI_RGT_0 as Hpi.
    match type of Hy with
    | sin ?a * _ = sin ?b * _ =>
        assert (Ea : a = PI / 10) by lra; assert (Eb : b = 0) by lra;
        rewrite Ea, Eb, sin_0 in Hy
    end.
    assert (S1 : 0 < sin (PI / 10)) by (apply sin_gt_0; lra).
    nra.
Qed.

Lemma rectLocal_solid (hw hh : R) : 0 < hw -> axesOf (rectLocal hw hh) <> [].
Proof.
  intros H. apply (axes_intro _ 0); cbn; [lia|].
  intros E. injection E as E. lra.
Qed.

Lemma maxRadius_le (verts : list Vec) (bound : R) :
  0 <= bound -> Forall (fun v => hypot (vx v) (vy v) <= bound) verts ->
  maxRadius verts <= bound.
Proof.
  intros Hb F. unfold maxRadius.
  assert (G : forall l acc, acc <= bound ->
                Forall (fun v => hypot (vx v) (vy v) <= bound) l ->
                fold_left (fun acc v => let r := hypot (vx v) (vy v) in
                                        if r >? acc then r else acc) l acc <= bound).
  { induction l as [|v l IH]; intros acc Ha Hl; [exact Ha|].
    inversion Hl; subst. cbn [fold_left]. apply IH; [|assumption].
    cbv zeta. destruct (_ >? _); assumption. }
  apply G; assumption.
Qed.

Lemma maxRadius_within (verts : list Vec) :
  Forall (fun v => hypot (vx v) (vy v) <= maxRadius verts) verts.
Proof. apply Forall_forall. intros v Hv. apply maxRadius_ge, Hv. Qed.

Lemma hypot_le_1 (x y : R) : x * x + y * y <= 1 -> hypot x y <= 1.
Proof.
  intros H. unfold hypot. rewrite <- sqrt_1. apply sqrt_le_1_alt. exact H.
Qed.

Lemma hypot_circle (angle r : R) : 0 <= r -> hypot (cos angle * r) (sin angle * r) = r.
Proof.
  intros Hr. apply hypot_unique; [exact Hr|].
  pose proof (sin2_cos2 angle) as H. unfold Rsqr in H.
  transitivity (r * r * (sin angle * sin angle + cos angle * cos angle)); [ring|].
  rewrite H. ring.
Qed.

Lemma circle_pageShape (rot r : R) (i : nat) :
  0 < r <= 1 -> pageShape (mkShape rot r (circleVerts r) circle (Some r) i).
Proof.
  intros H. split; [exact H|]. split; [apply circleVerts_solid; lra|].
  split; [|intros _; cbn; lra].
  cbn [shLocalVerts shBoundingRadius]. unfold circleVerts.
  apply Forall_forall. intros v Hv. apply in_map_iff in Hv.
  destruct Hv as [k [<- _]]. cbn [vx vy]. rewrite hypot_circle by lra. lra.
Qed.

Lemma rect_pageShape (rot hw hh : R) (cr : option R) (i : nat) :
  0 < hw -> hw * hw + hh * hh <= 1 ->
  pageShape (mkShape rot (maxRadius (rectLocal hw hh)) (rectLocal hw hh) rect cr i).
Proof.
  intros H H1. unfold pageShape. cbn [shBoundingRadius shLocalVerts shType].
  split; [split|split; [apply rectLocal_solid, H
                       |split; [apply maxRadius_within|discriminate]]].
  - eapply Rlt_le_trans; [|apply (maxRadius_ge _ (mkVec hw hh)); cbn; tauto].
    apply hypot_pos. cbn. left. lra.
  - apply maxRadius_le; [lra|]. unfold rectLocal.
    repeat (apply Forall_cons; [cbn [vx vy]; apply hypot_le_1; lra|]). apply Forall_nil.
Qed.

Lemma tri_pageShape (rot s : R) (cr : option R) (i : nat) :
  0 < s <= 1 ->
  pageShape
    (mkShape rot
       (maxRadius [mkVec 0 s; mkVec (- s * 0.866) (- s * 0.5); mkVec (s * 0.866) (- s * 0.5)])
       [mkVec 0 s; mkVec (- s * 0.866) (- s * 0.5); mkVec (s * 0.866) (- s * 0.5)] tri cr i).
Proof.
  intros H. unfold pageShape. cbn [shBoundingRadius shLocalVerts shType].
  split; [split|split; [|split; [apply maxRadius_within|discriminate]]].
  - eapply Rlt_le_trans; [|apply (maxRadius_ge _ (mkVec 0 s)); cbn; tauto].
    apply hypot_pos. cbn. right. lra.
  - apply maxRadius_le; [lra|].
    repeat (apply Forall_cons; [cbn [vx vy]; apply hypot_le_1; nra|]). apply Forall_nil.
  - apply (axes_intro _ 0); cbn; [lia|].
    intros E. injection E as E1 E2. lra.
Qed.

Lemma placeShapes_page (st0 : Build) :
  placedWith pageShape (world st0) (world (placeShapes st0)).
Proof.
  unfold placeShapes. cbv zeta.
  eapply placedWith_trans;
    [|apply addRect_placedWith; intros; apply rect_pageShape; lra].
  eapply placedWith_trans;
    [|apply addCircle_placedWith; intros; apply circle_pageShape; lra].
  eapply placedWith_trans;
    [|apply addTriangle_placedWith; intros; apply tri_pageShape; lra].
  eapply placedWith_trans;
    [|apply addRect_placedWith; intros; apply rect_pageShape; lra].
  eapply placedWith_trans;
    [|apply addRect_placedWith; intros; apply rect_pageShape; lra].
  eapply placedWith_trans;
    [|apply addCircle_placedWith; intros; apply circle_pageShape; lra].
  eapply placedWith_trans;
    [|apply addRect_placedWith; intros; apply rect_pageShape; lra].
  eapply placedWith_trans;
    [|apply addTriangle_placedWith; intros; apply tri_pageShape; lra].
  eapply placedWith_trans;
    [|apply addRect_placedWith; intros; apply rect_pageShape; lra].
  apply addCircle_placedWith; intros; apply circle_pageShape; lra.
Qed.

Lemma pageShape_body (sh : Shape) (x y : R) (i : Z) :
  pageShape sh -> freshBody (setMagnetAnchored (setId (bodyAt sh x y) i) false).
Proof.
  intros (Hr & Ha & Hv & _). unfold freshBody, proper. cbn. repeat split; try assumption; lra.
Qed.

Lemma placeMesh_fresh (sh : Shape) (w : World) :
  pageShape sh -> Forall freshBody (bodies w) ->
  Forall freshBody (bodies (snd (placeMesh sh w))).
Proof.
  intros Hs Hw.
  destruct (placeMesh_result sh w) as [E|[x [y [E _]]]]; rewrite E; cbn [snd].
  - exact Hw.
  - unfold addBodyEntry. cbn [bodies]. apply Forall_app. split; [exact Hw|].
    constructor; [|constructor]. apply pageShape_body, Hs.
Qed.

Lemma placedWith_fresh (w w' : World) :
  placedWith pageShape w w' -> Forall freshBody (bodies w) -> Forall freshBody (bodies w').
Proof.
  intros H Hw. induction H; [exact Hw|]. apply placeMesh_fresh; assumption.
Qed.

Lemma fresh_solid (b : Body) : freshBody b -> solidBody b.
Proof. intros (Hr & Hp & _ & Hm & Hi & _). unfold solidBody. repeat split; tauto || lra. Qed.

Lemma kickBody_mass (b : Body) (h : Z) :
  mass (fst (kickBody b h)) = mass b /\ invMass (fst (kickBody b h)) = invMass b
  /\ isDragged (fst (kickBody b h)) = isDragged b.
Proof.
  unfold kickBody. cbv zeta.
  destruct (_ && _); [destruct (randomVelocity _ _)|]; destruct (rngNext _);
    cbn; repeat split; reflexivity.
Qed.

Lemma kickBody_solid (b : Body) (h : Z) : solidBody b -> solidBody (fst (kickBody b h)).
Proof.
  intros (Hr & Hp & Hm & Hi).
  pose proof (kickBody_placement b h) as S. unfold samePlacement in S.
  destruct (kickBody_mass b h) as (Em & Ei & _).
  unfold solidBody, proper in *.
  destruct S as (_ & _ & _ & _ & -> & _ & _ & _ & ->). rewrite Em, Ei.
  repeat split; assumption.
Qed.

Lemma kickBodies_solid (bs : list Body) (h : Z) :
  Forall solidBody bs -> Forall solidBody (fst (kickBodies bs h)).
Proof.
  revert h. induction bs as [|b l IH]; intros h H; [constructor|].
  inversion H as [|? ? Hb Hl]; subst. cbn [kickBodies].
  pose proof (kickBody_solid b h Hb) as Kb.
  destruct (kickBody b h) as [b' h1]. cbn [fst] in Kb.
  pose proof (IH h1 Hl) as Kl.
  destruct (kickBodies l h1) as [l' h2]. cbn [fst] in *.
  constructor; assumption.
Qed.

Lemma createShapes_solid (h : Z) (w : World) :
  Forall freshBody (bodies w) -> Forall solidBody (bodies (world (createShapes h w))).
Proof.
  intros Hw. rewrite createShapes_bodies. apply kickBodies_solid.
  eapply Forall_impl; [apply fresh_solid|].
  eapply placedWith_fresh; [apply placeShapes_page|]. exact Hw.
Qed.

(** ** Runs of the simulation *)

Lemma updatePhysics_static (dt : R) (w w' : World) :
  updatePhysics dt w = Some w' -> Forall2 sameStatic (bodies w) (bodies w').
Proof.
  unfold updatePhysics. destruct (physicsEnabled w); cbn [negb].
  - destruct (collideAll _ _) as [bs|] eqn:Ec; [|discriminate].
    intros H.
    assert (bodies w' = bs) as -> by (destruct (existsb stillMoving bs);
                                      cbn in H; injection H as <-; reflexivity).
    pose proof (collideAll_pointwise sameStatic (colorTransferEnabled w)
                  sameStatic_refl sameStatic_trans collidePair_static _ _ Ec) as HF.
    clear Ec H. revert bs HF. induction (bodies w) as [|b l IH]; intros bs HF.
    + inversion HF. constructor.
    + cbn [map] in HF. inversion HF as [|? b' ? l' Hb Hl]; subst.
      constructor.
      * eapply sameStatic_trans; [apply moveBody_static|exact Hb].
      * apply IH, Hl.
  - intros H. injection H as <-.
    induction (bodies w); constructor; [apply sameStatic_refl|assumption].
Qed.

Lemma updatePhysics_frame (dt : R) (w w' : World) :
  updatePhysics dt w = Some w' ->
  worldBoundsX w' = worldBoundsX w /\ worldBoundsY w' = worldBoundsY w
  /\ colorTransferEnabled w' = colorTransferEnabled w /\ sceneRef w' = sceneRef w
  /\ nextBodyId w' = nextBodyId w.
Proof.
  unfold updatePhysics. destruct (physicsEnabled w); cbn [negb].
  - destruct (collideAll _ _) as [bs|]; [|discriminate].
    destruct (existsb stillMoving bs); cbn; intros H; injection H as <-; cbn; auto.
  - intros H. injection H as <-. auto.
Qed.

Lemma updatePhysics_total (dt : R) (w : World) :
  Forall proper (bodies w) ->
  exists w', updatePhysics dt w = Some w' /\ Forall proper (bodies w').
Proof.
  intros Hp.
  assert (exists w', updatePhysics dt w = Some w') as [w' E].
  { destruct (physicsEnabled w) eqn:He.
    - destruct (updatePhysics_running dt w He Hp) as [bs [_ Eu]]. eexists. exact Eu.
    - exists w. unfold updatePhysics. rewrite He. reflexivity. }
  exists w'. split; [exact E|].
  eapply Forall2_static_proper; [eapply updatePhysics_static, E|exact Hp].
Qed.

Lemma run_total (n : nat) (dt : R) (w : World) :
  Forall proper (bodies w) ->
  exists w', run n dt w = Some w' /\ Forall proper (bodies w').
Proof.
  revert w. induction n as [|n IH]; intros w Hp.
  - exists w. split; [reflexivity|exact Hp].
  - destruct (updatePhysics_total dt w Hp) as [w1 [E1 P1]].
    destruct (IH w1 P1) as [w' [E' P']].
    exists w'. cbn [run]. rewrite E1. split; assumption.
Qed.

Lemma solid_proper (bs : list Body) : Forall solidBody bs -> Forall proper bs.
Proof. apply Forall_impl. intros b H. apply H. Qed.

(** X7. The exception path of the pair loop (a contact reported with a
    null normal) cannot be reached from a composition the page builds.  For
    every seed and every size of the visible area, any number of calls of
    [updatePhysics], with any time step, on the scene made by [createScene]
    return normally; the same holds after any rebuild by
    [regenerateComposition]. *)
Theorem built_scene_runs (seed seed' : string) (halfWidth halfHeight dt : R) (n : nat) :
  let w := createScene seed halfWidth halfHeight initialWorld in
  (exists w', run n dt w = Some w')
  /\ (exists w', run n dt (regenerateComposition seed' w) = Some w').
Proof.
  intros w.
  assert (Hw : Forall solidBody (bodies w)).
  { unfold w, createScene. apply createShapes_solid. cbn. constructor. }
  split.
  - destruct (run_total n dt w (solid_proper _ Hw)) as [w' [E _]]. exists w'. exact E.
  - assert (Hr : Forall solidBody (bodies (regenerateComposition seed' w))).
    { unfold regenerateComposition. destruct (negb (sceneRef w)); [exact Hw|].
      apply createShapes_solid. cbn. constructor. }
    destruct (run_total n dt _ (solid_proper _ Hr)) as [w' [E _]]. exists w'. exact E.
Qed.

Lemma updatePhysics_colours (dt : R) (w w' : World) :
  updatePhysics dt w = Some w' ->
  Permutation (map colorIndex (bodies w)) (map colorIndex (bodies w')).
Proof.
  unfold updatePhysics. destruct (physicsEnabled w); cbn [negb].
  - destruct (collideAll _ _) as [bs|] eqn:Ec; [|discriminate].
    intros H.
    assert (bodies w' = bs) as -> by (destruct (existsb stillMoving bs);
                                      cbn in H; injection H as <-; reflexivity).
    eapply perm_trans.
    2:{ eapply (collideAll_rel
                  (fun b1 b2 => Permutation (map colorIndex b1) (map colorIndex b2)));
        [intros; apply Permutation_refl
        |intros; eapply perm_trans; eauto
        |intros i j b1 b2 Hij Hs; eapply pairStep_colors_perm; eauto
        |exact Ec]. }
    rewrite map_map. erewrite map_ext; [apply Permutation_refl|].
    intros b. cbv beta. rewrite moveBody_color. reflexivity.
  - intros H. injection H as <-. apply Permutation_refl.
Qed.

Lemma run_colours (n : nat) (dt : R) (w w' : World) :
  run n dt w = Some w' ->
  Permutation (map colorIndex (bodies w)) (map colorIndex (bodies w')).
Proof.
  revert w. induction n as [|n IH]; intros w H.
  - injection H as <-. apply Permutation_refl.
  - cbn [run] in H. destruct (updatePhysics dt w) as [w1|] eqn:E; [|discriminate].
    eapply perm_trans; [eapply updatePhysics_colours, E|apply IH, H].
Qed.

(** X8. Colours are never duplicated or lost while a built composition
    runs.  After any number of calls of [updatePhysics] on the scene made by
    [createScene], whether or not the colour button was clicked first, the
    colour indices of the bodies are pairwise distinct and are, as a multiset,
    those the composition was built with. *)
Theorem built_scene_keeps_colours (seed : string) (halfWidth halfHeight dt : R) (n : nat)
  (clicked : bool) (w' : World) :
  run n dt (if clicked
            then onColorClick (createScene seed halfWidth halfHeight initialWorld)
            else createScene seed halfWidth halfHeight initialWorld) = Some w' ->
  Permutation
    (map colorIndex (bodies (createScene seed halfWidth halfHeight initialWorld)))
    (map colorIndex (bodies w'))
  /\ NoDup (map colorIndex (bodies w')).
Proof.
  assert (ND : NoDup (map colorIndex
                        (bodies (createScene seed halfWidth halfHeight initialWorld)))).
  { unfold createScene.
    refine (proj1 (createShapes_pool _ _ _)). reflexivity. }
  revert ND. generalize (createScene seed halfWidth halfHeight initialWorld).
  intros w0 ND H.
  assert (P : Permutation (map colorIndex (bodies w0)) (map colorIndex (bodies w'))).
  { apply run_colours in H. destruct clicked; exact H. }
  split; [exact P|]. eapply Permutation_NoDup; [exact P|exact ND].
Qed.

Lemma built_scene_keeps_colours_witness :
  NoDup (map colorIndex (bodies (onColorClick (createScene "a" 4 2.2 initialWorld)))).
Proof.
  exact (proj2 (built_scene_keeps_colours "a" 4 2.2 fixedStep 0 true _ eq_refl)).
Defined.

(** ** Contacts: what an impulse conserves *)

Lemma elastic_algebra (ma mb vxa vya vxb vyb nx ny : R) :
  0 < ma -> 0 < mb -> nx * nx + ny * ny = 1 ->
  let vn := (vxb - vxa) * nx + (vyb - vya) * ny in
  let j := 2 * - vn / (1 / ma + 1 / mb) in
  let xa := vxa - j * (1 / ma) * nx in
  let ya := vya - j * (1 / ma) * ny in
  let xb := vxb + j * (1 / mb) * nx in
  let yb := vyb + j * (1 / mb) * ny in
  ma * xa + mb * xb = ma * vxa + mb * vxb
  /\ ma * ya + mb * yb = ma * vya + mb * vyb
  /\ ma * (xa * xa + ya * ya) + mb * (xb * xb + yb * yb)
     = ma * (vxa * vxa + vya * vya) + mb * (vxb * vxb + vyb * vyb).
Proof.
  intros Ha Hb Hu vn j xa ya xb yb.
  assert (Hs : 0 < 1 / ma + 1 / mb).
  { assert (0 < 1 / ma) by (apply Rdiv_lt_0_compat; lra).
    assert (0 < 1 / mb) by (apply Rdiv_lt_0_compat; lra). lra. }
  assert (Hj : j * (1 / ma + 1 / mb) = - 2 * vn) by (unfold j; field; lra).
  clearbody j. unfold xa, ya, xb, yb. clear xa ya xb yb.
  split; [field; lra|]. split; [field; lra|].
  transitivity (ma * (vxa * vxa + vya * vya) + mb * (vxb * vxb + vyb * vyb)
                + j * (2 * vn + j * (1 / ma + 1 / mb) * (nx * nx + ny * ny))).
  - unfold vn. field. lra.
  - rewrite Hu, Rmult_1_r, Hj. ring.
Qed.

Lemma collidePair_conserves (ct : bool) (a b a' b' : Body) :
  isDragged a = false -> isDragged b = false ->
  0 < mass a -> 0 < mass b ->
  invMass a = 1 / mass a -> invMass b = 1 / mass b ->
  collidePair ct a b = Some (a', b') ->
  mass a * vx (velocity a') + mass b * vx (velocity b')
  = mass a * vx (velocity a) + mass b * vx (velocity b)
  /\ mass a * vy (velocity a') + mass b * vy (velocity b')
     = mass a * vy (velocity a) + mass b * vy (velocity b)
  /\ mass a * (vx (velocity a') * vx (velocity a') + vy (velocity a') * vy (velocity a'))
     + mass b * (vx (velocity b') * vx (velocity b') + vy (velocity b') * vy (velocity b'))
     = mass a * (vx (velocity a) * vx (velocity a) + vy (velocity a) * vy (velocity a))
       + mass b * (vx (velocity b) * vx (velocity b) + vy (velocity b) * vy (velocity b)).
Proof.
  intros Da Db Ma Mb Ia Ib H.
  unfold collidePair in H.
  destruct (polygonPolygonSAT _ _) as [[[n d]|]|] eqn:Es; try discriminate.
  2:{ injection H as <- <-. repeat split; reflexivity. }
  injection H as H.
  destruct (polygonPolygonSAT_hit _ _ _ _ Es) as [Hu _].
  assert (Pa : 0 < invMass a) by (rewrite Ia; apply Rdiv_lt_0_compat; lra).
  assert (Pb : 0 < invMass b) by (rewrite Ib; apply Rdiv_lt_0_compat; lra).
  pose proof (resolveContact_impulse ct n d a b Hu Da Db Pa Pb) as [Hyes Hno].
  cbv zeta in Hyes, Hno. rewrite H in Hyes, Hno. cbn [fst snd] in Hyes, Hno.
  pose proof (orientNormal_unit a b n Hu) as Hn. unfold isUnit in Hn.
  destruct (Rlt_le_dec (relVelAlong (orientNormal a b n) a b) 0) as [Hv|Hv].
  - destruct (Hyes Hv) as (_ & Ex & Ey & Fx & Fy & _).
    rewrite Ex, Ey, Fx, Fy. rewrite Ia, Ib. unfold relVelAlong.
    exact (elastic_algebra (mass a) (mass b) (vx (velocity a)) (vy (velocity a))
             (vx (velocity b)) (vy (velocity b))
             (vx (orientNormal a b n)) (vy (orientNormal a b n)) Ma Mb Hn).
  - destruct (Hno Hv) as (-> & -> & _). repeat split; reflexivity.
Qed.

(** X9. A contact between two free bodies conserves linear momentum and
    the kinetic energy of translation.  Whatever the body of the pair loop
    does to a pair of non-dragged bodies whose inverse mass is the inverse of
    their positive mass (separate them, reflect the approach, exchange
    colours, or nothing at all), the sum of mass times velocity and the sum of
    mass times squared speed are the same before and after. *)
Theorem contact_conserves (ct : bool) (a b a' b' : Body) :
  isDragged a = false -> isDragged b = false ->
  0 < mass a -> 0 < mass b ->
  invMass a = 1 / mass a -> invMass b = 1 / mass b ->
  collidePair ct a b = Some (a', b') ->
  mass a' = mass a /\ mass b' = mass b
  /\ momentumOf a' b' = momentumOf a b
  /\ kineticOf a' b' = kineticOf a b.
Proof.
  intros Da Db Ma Mb Ia Ib H.
  destruct (collidePair_static ct a b a' b' H) as [Sa Sb].
  assert (Ema : mass a' = mass a) by (unfold sameStatic in Sa; tauto).
  assert (Emb : mass b' = mass b) by (unfold sameStatic in Sb; tauto).
  destruct (collidePair_conserves ct a b a' b' Da Db Ma Mb Ia Ib H) as (G1 & G2 & G3).
  split; [exact Ema|]. split; [exact Emb|].
  unfold momentumOf, kineticOf. rewrite Ema, Emb. split.
  - f_equal; [exact G1|exact G2].
  - f_equal. exact G3.
Qed.

Lemma contact_conserves_witness :
  exists a' b',
    collidePair true bigBox smallBox = Some (a', b')
    /\ momentumOf a' b' = momentumOf bigBox smallBox
    /\ kineticOf a' b' = kineticOf bigBox smallBox.
Proof.
  destruct (collidePair true bigBox smallBox) as [[a' b']|] eqn:E.
  - exists a', b'. split; [reflexivity|].
    refine (proj2 (proj2 (contact_conserves true bigBox smallBox a' b' _ _ _ _ _ _ E)));
      cbn; try reflexivity; lra.
  - exfalso. unfold collidePair in E. rewrite boxes_contact in E. discriminate.
Defined.

Lemma applyImpulse_pos (ct : bool) (n : Vec) (rvx rvy v : R) (a b : Body) :
  posX (fst (applyImpulse ct n rvx rvy v a b)) = posX a
  /\ posY (fst (applyImpulse ct n rvx rvy v a b)) = posY a
  /\ posX (snd (applyImpulse ct n rvx rvy v a b)) = posX b
  /\ posY (snd (applyImpulse ct n rvx rvy v a b)) = posY b.
Proof.
  unfold applyImpulse, transferColorOnCollision. cbv zeta.
  split_ifs; cbn; repeat split; reflexivity.
Qed.

Lemma orientNormal_gap (a b : Body) (n : Vec) : 0 <= gapAlong (orientNormal a b n) a b.
Proof.
  unfold gapAlong, orientNormal. cbv zeta.
  destruct (_ <? 0) eqn:E; bools; cbn [vx vy]; lra.
Qed.

(** X10. The positional correction of a contact.  When the test reports a
    contact of depth [d] between [a] and [b] and at least one of the two can
    move (the inverse masses in use do not sum to zero), the pair loop moves
    the centres apart by exactly [d] along the unit normal, which points from
    [a] towards [b]; the share of each body is proportional to its inverse
    mass in use, so a dragged body is not moved and the other takes the
    whole correction. *)
Theorem contact_pushes_apart (ct : bool) (a b a' b' : Body) (n0 : Vec) (d : R) :
  polygonPolygonSAT (getWorldVertices a) (getWorldVertices b) = Some (Some (n0, d)) ->
  (if isDragged a then 0 else invMass a) + (if isDragged b then 0 else invMass b) <> 0 ->
  collidePair ct a b = Some (a', b') ->
  let n := orientNormal a b n0 in
  let ia := if isDragged a then 0 else invMass a in
  let ib := if isDragged b then 0 else invMass b in
  isUnit n
  /\ 0 <= gapAlong n a b
  /\ gapAlong n a' b' = gapAlong n a b + d
  /\ posX a' = posX a - vx n * (d * (ia / (ia + ib)))
  /\ posY a' = posY a - vy n * (d * (ia / (ia + ib)))
  /\ posX b' = posX b + vx n * (d * (ib / (ia + ib)))
  /\ posY b' = posY b + vy n * (d * (ib / (ia + ib))).
Proof.
  intros Es Hm H n ia ib.
  destruct (polygonPolygonSAT_hit _ _ _ _ Es) as [Hu _].
  pose proof (orientNormal_unit a b n0 Hu) as Hn. fold n in Hn.
  split; [exact Hn|]. split; [apply orientNormal_gap|].
  unfold collidePair in H. rewrite Es in H. injection H as H.
  assert (P : posX a' = posX a - vx n * (d * (ia / (ia + ib)))
              /\ posY a' = posY a - vy n * (d * (ia / (ia + ib)))
              /\ posX b' = posX b + vx n * (d * (ib / (ia + ib)))
              /\ posY b' = posY b + vy n * (d * (ib / (ia + ib)))).
  { unfold resolveContact in H. cbv zeta in H. fold n ia ib in H.
    destruct (ia + ib =? 0) eqn:E0; [bools; contradiction|].
    match type of H with (if ?c then _ else _) = _ => destruct c end.
    - match type of H with applyImpulse ?c ?m ?x ?y ?v ?p ?q = _ =>
        destruct (applyImpulse_pos c m x y v p q) as (Q1 & Q2 & Q3 & Q4) end.
      rewrite H in Q1, Q2, Q3, Q4. cbn [fst snd] in Q1, Q2, Q3, Q4.
      exact (conj Q1 (conj Q2 (conj Q3 Q4))).
    - injection H as <- <-. simp_body. repeat split; reflexivity. }
  split; [|exact P]. unfold gapAlong. destruct P as (-> & -> & -> & ->).
  unfold isUnit in Hn.
  transitivity ((posX b - posX a) * vx n + (posY b - posY a) * vy n
                + d * ((ia + ib) / (ia + ib)) * (vx n * vx n + vy n * vy n)).
  - field. exact Hm.
  - rewrite Hn. field. exact Hm.
Qed.

Lemma contact_pushes_apart_witness :
  exists a' b',
    collidePair false bigBox smallBox = Some (a', b')
    /\ gapAlong (orientNormal bigBox smallBox (mkVec (-1) 0)) a' b'
       = gapAlong (orientNormal bigBox smallBox (mkVec (-1) 0)) bigBox smallBox
         + spanOverlap 0 0.3 0.32 0.03.
Proof.
  destruct (collidePair false bigBox smallBox) as [[a' b']|] eqn:E.
  - exists a', b'. split; [reflexivity|].
    refine (proj1 (proj2 (proj2
              (contact_pushes_apart false bigBox smallBox a' b' _ _ boxes_contact _ E)))).
    cbn. lra.
  - exfalso. unfold collidePair in E. rewrite boxes_contact in E. discriminate.
Defined.

(** ** The separating-axis test does not depend on the order of its arguments *)

Lemma overlapOn_sym (A B : list Vec) (axis : Vec) : overlapOn A B axis = overlapOn B A axis.
Proof.
  unfold overlapOn, overlapIntervals.
  destruct (projectOntoAxis A axis) as [[a1 a2]|], (projectOntoAxis B axis) as [[b1 b2]|];
    try reflexivity.
  rewrite (Rmin_comm a2 b2), (Rmax_comm a1 b1). reflexivity.
Qed.

Lemma separates_sym (A B : list Vec) (axis : Vec) : separates A B axis -> separates B A axis.
Proof. unfold separates. rewrite (overlapOn_sym B A). tauto. Qed.

Lemma polygonPolygonSAT_None_sym (A B : list Vec) :
  polygonPolygonSAT A B = None -> polygonPolygonSAT B A = None.
Proof.
  intros H. apply polygonPolygonSAT_None in H. destruct H as [axis [Hin Hs]].
  apply polygonPolygonSAT_None. exists axis. split; [|apply separates_sym, Hs].
  apply in_app_iff in Hin. apply in_app_iff. tauto.
Qed.

Lemma polygonPolygonSAT_depth_le (A B : list Vec) (n n' : Vec) (d d' : R) :
  polygonPolygonSAT A B = Some (Some (n, d)) ->
  polygonPolygonSAT B A = Some (Some (n', d')) -> d <= d'.
Proof.
  intros H H'. apply polygonPolygonSAT_Some in H, H'. cbn in H, H'.
  destruct H as (_ & _ & Hmin). destruct H' as (Hin & Ho & _).
  apply (Hmin n').
  - apply in_app_iff in Hin. apply in_app_iff. tauto.
  - rewrite overlapOn_sym. exact Ho.
Qed.

(** X11. The verdict of [polygonPolygonSAT] does not depend on which
    polygon is passed first.  The two calls agree on whether there is no
    contact, on whether the degenerate object with a null normal comes back
    (neither polygon has an edge of non-zero length), and, when both report a
    contact, on its depth; only the normal may differ. *)
Theorem polygonPolygonSAT_symmetric (A B : list Vec) :
  (polygonPolygonSAT A B = None <-> polygonPolygonSAT B A = None)
  /\ (polygonPolygonSAT A B = Some None <-> polygonPolygonSAT B A = Some None)
  /\ (forall n d n' d',
        polygonPolygonSAT A B = Some (Some (n, d)) ->
        polygonPolygonSAT B A = Some (Some (n', d')) -> d = d').
Proof.
  assert (Hnull : forall X Y, polygonPolygonSAT X Y = Some None ->
                              polygonPolygonSAT Y X = Some None).
  { intros X Y H.
    pose proof (polygonPolygonSAT_Some _ _ _ H) as Hl. cbn in Hl.
    apply app_eq_nil in Hl. destruct Hl as [HX HY].
    destruct (polygonPolygonSAT Y X) as [[[n d]|]|] eqn:E; [| reflexivity |].
    - apply polygonPolygonSAT_Some in E. cbn in E. destruct E as [Hin _].
      rewrite HX, HY in Hin. destruct Hin.
    - apply polygonPolygonSAT_None_sym in E. congruence. }
  split; [split; apply polygonPolygonSAT_None_sym|].
  split; [split; apply Hnull|].
  intros n d n' d' H H'. apply Rle_antisym.
  - exact (polygonPolygonSAT_depth_le A B n n' d d' H H').
  - exact (polygonPolygonSAT_depth_le B A n' n d' d H' H).
Qed.

(** ** Dragging *)

Lemma hypot_scale (x y k : R) : 0 <= k -> hypot (x * k) (y * k) = k * hypot x y.
Proof. intros Hk. apply hypot_scaled; [exact Hk|reflexivity|reflexivity]. Qed.

(** The factor by which [onPointerMove] shortens twice the displacement. *)
Lemma dragVelocity_factor (newPos lastPos : Vec) :
  let rx := (vx newPos - vx lastPos) * 2 in
  let ry := (vy newPos - vy lastPos) * 2 in
  exists k,
    0 < k <= 1 /\ k * hypot rx ry <= 3.5
    /\ (hypot rx ry <= 3.5 -> k = 1)
    /\ dragVelocity newPos lastPos = mkVec (rx * k) (ry * k).
Proof.
  intros rx ry. unfold dragVelocity. cbv zeta. fold rx ry.
  set (len := hypot rx ry).
  assert (Hl : 0 <= len) by apply hypot_nonneg.
  destruct ((len >? 3.5) && (len >? 0)) eqn:E.
  - bools. exists (3.5 / len).
    assert (Hk : 3.5 / len * len = 3.5) by (field; lra).
    split; [split; [apply Rdiv_lt_0_compat; lra|]|].
    + apply Rmult_le_reg_r with len; [lra|]. rewrite Hk. lra.
    + split; [lra|]. split; [lra|reflexivity].
  - assert (Hle : len <= 3.5).
    { apply andb_false_iff in E. destruct E as [E|E]; bools; lra. }
    exists 1. split; [lra|]. split; [lra|]. split; [reflexivity|].
    f_equal; lra.
Qed.

Lemma dragVelocity_bound (newPos lastPos : Vec) :
  hypot (vx (dragVelocity newPos lastPos)) (vy (dragVelocity newPos lastPos)) <= 3.5.
Proof.
  destruct (dragVelocity_factor newPos lastPos) as (k & [Hk _] & Hb & _ & ->).
  cbn [vx vy]. rewrite hypot_scale by lra. exact Hb.
Qed.

(** X12. The throw velocity of a drag is capped.  The velocity
    [onPointerMove] derives from two pointer positions is the displacement
    times 2 scaled by a factor in (0, 1]; its length never exceeds 3.5, and
    the factor is 1 whenever twice the displacement is at most 3.5 long. *)
Theorem dragVelocity_capped (newPos lastPos : Vec) :
  let raw := mkVec ((vx newPos - vx lastPos) * 2) ((vy newPos - vy lastPos) * 2) in
  hypot (vx (dragVelocity newPos lastPos)) (vy (dragVelocity newPos lastPos)) <= 3.5
  /\ (exists k, 0 < k <= 1 /\ dragVelocity newPos lastPos = scaleVec raw k)
  /\ (hypot (vx raw) (vy raw) <= 3.5 -> dragVelocity newPos lastPos = raw).
Proof.
  intros raw.
  destruct (dragVelocity_factor newPos lastPos) as (k & Hk & Hb & H1 & E).
  cbv zeta in Hb, H1, E.
  split; [|split].
  - rewrite E. cbn [vx vy]. rewrite hypot_scale by lra. exact Hb.
  - exists k. split; [exact Hk|]. rewrite E. reflexivity.
  - intros Hle. rewrite E, (H1 Hle). unfold raw. f_equal; lra.
Qed.

Lemma clamp_inside (lo hi x : R) : lo <= hi -> lo <= Rmax lo (Rmin hi x) <= hi.
Proof.
  intros H. unfold Rmax, Rmin.
  destruct (Rle_dec hi x); destruct (Rle_dec lo _); lra.
Qed.

Lemma clamp_id (lo hi x : R) : lo <= x <= hi -> Rmax lo (Rmin hi x) = x.
Proof.
  intros H. unfold Rmax, Rmin.
  destruct (Rle_dec hi x); destruct (Rle_dec lo _); lra.
Qed.

Lemma clamp_idem (lo hi x : R) :
  Rmax lo (Rmin hi (Rmax lo (Rmin hi x))) = Rmax lo (Rmin hi x).
Proof.
  destruct (Rle_dec lo hi) as [H|H].
  - apply clamp_id, clamp_inside, H.
  - assert (G : forall y, Rmax lo (Rmin hi y) = lo).
    { intros y. unfold Rmax, Rmin.
      destruct (Rle_dec hi y); destruct (Rle_dec lo _); lra. }
    rewrite !G. reflexivity.
Qed.

Lemma clampBodyToWorld_bounds (w : World) (body : Body) :
  boundingRadius body <= worldBoundsX w ->
  boundingRadius body <= worldBoundsY w ->
  Rabs (posX (clampBodyToWorld w body)) <= worldBoundsX w - boundingRadius body
  /\ Rabs (posY (clampBodyToWorld w body)) <= worldBoundsY w - boundingRadius body.
Proof.
  intros Hx Hy. unfold clampBodyToWorld. cbv zeta. simp_body.
  set (r := boundingRadius body) in *.
  pose proof (clamp_inside (- worldBoundsX w + r) (worldBoundsX w - r) (posX body)
                ltac:(lra)) as Cx.
  pose proof (clamp_inside (- worldBoundsY w + r) (worldBoundsY w - r) (posY body)
                ltac:(lra)) as Cy.
  split; apply Rabs_le; lra.
Qed.

(** X13. [clampBodyToWorld] brings a body whose bounding circle fits
    between the walls to a position where the circle lies inside the bounds,
    leaves a body that is already inside where it is, touches nothing but the
    position, and clamping twice is the same as clamping once (this last
    fact also when the body does not fit). *)
Theorem clampBodyToWorld_inside (w : World) (body : Body) :
  (boundingRadius body <= worldBoundsX w ->
   boundingRadius body <= worldBoundsY w ->
   Rabs (posX (clampBodyToWorld w body)) <= worldBoundsX w - boundingRadius body
   /\ Rabs (posY (clampBodyToWorld w body)) <= worldBoundsY w - boundingRadius body)
  /\ (Rabs (posX body) <= worldBoundsX w - boundingRadius body ->
      Rabs (posY body) <= worldBoundsY w - boundingRadius body ->
      clampBodyToWorld w body = setPos body (posX body) (posY body))
  /\ clampBodyToWorld w (clampBodyToWorld w body) = clampBodyToWorld w body
  /\ setPos (clampBodyToWorld w body) (posX body) (posY body)
     = setPos body (posX body) (posY body).
Proof.
  split; [apply clampBodyToWorld_bounds|]. split; [|split].
  - intros Ax Ay. apply Rabs_bound in Ax, Ay.
    unfold clampBodyToWorld. cbv zeta. rewrite !clamp_id by lra. reflexivity.
  - unfold clampBodyToWorld, setPos. cbv zeta. simp_body.
    rewrite !clamp_idem. reflexivity.
  - reflexivity.
Qed.

Lemma nth_error_setNth_eq (k : nat) (x y : Body) (l : list Body) :
  nth_error l k = Some y -> nth_error (setNth k x l) k = Some x.
Proof.
  revert k. induction l as [|h t IH]; intros [|k] H; cbn in *; try discriminate.
  - reflexivity.
  - apply IH, H.
Qed.

Lemma nth_error_setNth_neq (k j : nat) (x : Body) (l : list Body) :
  j <> k -> nth_error (setNth k x l) j = nth_error l j.
Proof.
  revert k j. induction l as [|h t IH]; intros [|k] [|j] H; cbn; try reflexivity.
  - contradiction.
  - apply IH. intros E. apply H. f_equal. exact E.
Qed.

(** X14. One [pointermove] during a drag.  The dragged body ends with its
    bounding circle inside the bounds (when it fits between the walls), with
    a speed of at most 3.5 once a previous pointer position is known, and with
    nothing static changed; every other body is left alone, and the pointer
    position remembered for the next move is the unclamped one. *)
Theorem onPointerMove_dragged (ev : PointerEvent) (d : Drag) (w : World) (k : nat)
  (body : Body) (p : Vec) :
  draggedBody d = Some k ->
  nth_error (bodies w) k = Some body ->
  planePoint ev = Some p ->
  boundingRadius body <= worldBoundsX w ->
  boundingRadius body <= worldBoundsY w ->
  let d' := fst (onPointerMove ev d w) in
  let w' := snd (onPointerMove ev d w) in
  let offset := match dragOffset d k with Some o => o | None => mkVec 0 0 end in
  exists b',
    nth_error (bodies w') k = Some b'
    /\ Rabs (posX b') <= worldBoundsX w - boundingRadius body
    /\ Rabs (posY b') <= worldBoundsY w - boundingRadius body
    /\ (lastDragPos d <> None -> speedOf b' <= 3.5)
    /\ (lastDragPos d = None -> velocity b' = velocity body)
    /\ sameStatic body b'
    /\ (forall j, j <> k -> nth_error (bodies w') j = nth_error (bodies w) j)
    /\ draggedBody d' = Some k
    /\ lastDragPos d' = Some (mkVec (vx p - vx offset) (vy p - vy offset)).
Proof.
  intros Hd Hk Hp Hx Hy d' w' offset.
  unfold d', w', onPointerMove. rewrite Hd, Hp, Hk. cbv zeta. cbn [fst snd].
  fold offset.
  set (newPos := mkVec (vx p - vx offset) (vy p - vy offset)).
  set (b1 := match lastDragPos d with
             | Some l => setVelocity body (dragVelocity newPos l)
             | None => body
             end).
  assert (S1 : boundingRadius b1 = boundingRadius body /\ sameStatic body b1).
  { unfold b1. destruct (lastDragPos d); split; try reflexivity;
      unfold sameStatic; cbn; repeat split; reflexivity. }
  destruct S1 as [Er S1].
  set (b0 := setPos b1 (vx newPos) (vy newPos)).
  assert (Er0 : boundingRadius b0 = boundingRadius body) by exact Er.
  destruct (clampBodyToWorld_bounds w b0) as (Cx & Cy); [rewrite Er0; exact Hx
                                                        |rewrite Er0; exact Hy|].
  rewrite Er0 in Cx, Cy.
  exists (clampBodyToWorld w b0). cbn [bodies setBodies].
  split; [eapply nth_error_setNth_eq; exact Hk|].
  split; [exact Cx|]. split; [exact Cy|]. split; [|split; [|split; [|split]]].
  - intros Hl. unfold speedOf, clampBodyToWorld, b0, b1. cbv zeta.
    destruct (lastDragPos d) as [l|]; [|congruence]. simp_body.
    apply (dragVelocity_bound newPos l).
  - intros Hl. unfold clampBodyToWorld, b0, b1. rewrite Hl. reflexivity.
  - unfold clampBodyToWorld, b0. cbv zeta.
    unfold sameStatic in *. simp_body. exact S1.
  - intros j Hj. apply nth_error_setNth_neq, Hj.
  - split; reflexivity.
Qed.

Lemma onPointerMove_dragged_witness :
  exists b',
    nth_error (bodies (snd (onPointerMove farRight heldDrag heldWorld))) 0 = Some b'
    /\ Rabs (posX b') <= worldBoundsX heldWorld - boundingRadius heldTriangle
    /\ speedOf b' <= 3.5.
Proof.
  destruct (onPointerMove_dragged farRight heldDrag heldWorld 0 heldTriangle (mkVec 9 0)
              eq_refl eq_refl eq_refl) as (b' & A & B & _ & C & _).
  - cbn. lra.
  - cbn. lra.
  - exists b'. split; [exact A|]. split; [exact B|]. apply C. discriminate.
Defined.

(** ** Pressing, holding and releasing a body *)

Lemma heldStill_refl (b : Body) : heldStill b b.
Proof. split; [apply sameStatic_refl|]. intros _. auto. Qed.

Lemma heldStill_trans (b1 b2 b3 : Body) : heldStill b1 b2 -> heldStill b2 b3 -> heldStill b1 b3.
Proof.
  intros [S1 H1] [S2 H2]. split; [eapply sameStatic_trans; eassumption|].
  intros Hd. destruct (H1 Hd) as (X1 & Y1 & V1).
  assert (Hd2 : isDragged b2 = true) by (unfold sameStatic in S1; intuition congruence).
  destruct (H2 Hd2) as (X2 & Y2 & V2).
  split; [congruence|]. split; [congruence|]. intros Hv. apply V2, V1, Hv.
Qed.

Lemma moveBody_heldStill (dt bx by_ : R) (b : Body) : heldStill b (moveBody dt bx by_ b).
Proof.
  split; [apply moveBody_static|]. intros Hd. rewrite moveBody_dragged by exact Hd.
  simp_body. split; [reflexivity|]. split; [reflexivity|].
  intros ->. unfold scaleVec. cbn [vx vy]. f_equal; lra.
Qed.

Lemma pinned_heldStill (b b' : Body) : pinned b b' -> heldStill b b'.
Proof.
  intros [S H]. split; [exact S|]. intros Hd. destruct (H Hd) as (X & Y & V).
  split; [exact X|]. split; [exact Y|]. intros Hv. congruence.
Qed.

Lemma Forall2_map_left (Rel : Body -> Body -> Prop) (f : Body -> Body) (l l' : list Body) :
  (forall x y, Rel (f x) y -> Rel x y) -> Forall2 Rel (map f l) l' -> Forall2 Rel l l'.
Proof.
  intros Hf. revert l'. induction l as [|x l IH]; intros l' H; cbn in H.
  - inversion H. constructor.
  - inversion H; subst. constructor; [apply Hf; assumption|apply IH; assumption].
Qed.

Lemma Forall2_same (Rel : Body -> Body -> Prop) (l : list Body) :
  (forall x, Rel x x) -> Forall2 Rel l l.
Proof. intros H. induction l; constructor; [apply H|assumption]. Qed.

Lemma Forall2_compose (Rel : Body -> Body -> Prop) (l1 l2 l3 : list Body) :
  (forall x y z, Rel x y -> Rel y z -> Rel x z) ->
  Forall2 Rel l1 l2 -> Forall2 Rel l2 l3 -> Forall2 Rel l1 l3.
Proof.
  intros Ht H12. revert l3. induction H12; intros l3 H23; inversion H23; subst.
  - constructor.
  - constructor; [eapply Ht; eassumption|apply IHForall2; assumption].
Qed.

Lemma updatePhysics_heldStill (dt : R) (w w' : World) :
  updatePhysics dt w = Some w' -> Forall2 heldStill (bodies w) (bodies w').
Proof.
  unfold updatePhysics. destruct (physicsEnabled w); cbn [negb].
  - destruct (collideAll _ _) as [bs|] eqn:Ec; [|discriminate].
    intros H.
    assert (bodies w' = bs) as -> by (destruct (existsb stillMoving bs);
                                      cbn in H; injection H as <-; reflexivity).
    pose proof (collideAll_pointwise pinned (colorTransferEnabled w)
                  pinned_refl pinned_trans collidePair_pinned _ _ Ec) as HF.
    eapply Forall2_map_left; [|eapply Forall2_impl; [|exact HF]].
    + intros x y Hxy. eapply heldStill_trans; [apply moveBody_heldStill|exact Hxy].
    + intros x y. apply pinned_heldStill.
  - intros H. injection H as <-. apply Forall2_same, heldStill_refl.
Qed.

Lemma run_heldStill (n : nat) (dt : R) (w w' : World) :
  run n dt w = Some w' -> Forall2 heldStill (bodies w) (bodies w').
Proof.
  revert w. induction n as [|n IH]; intros w H.
  - injection H as <-. apply Forall2_same, heldStill_refl.
  - cbn [run] in H. destruct (updatePhysics dt w) as [w1|] eqn:E; [|discriminate].
    eapply Forall2_compose; [apply heldStill_trans|eapply updatePhysics_heldStill, E|].
    apply IH, H.
Qed.

(** X15. Pressing a body, letting the simulation run and releasing it
    without moving the pointer puts nothing in motion.  After [pointerdown]
    on body [k], any number of simulation steps and [pointerup], body [k] is
    where it was picked up, at rest, with the dragged flag cleared, and no
    drag is in progress. *)
Theorem press_hold_release (ev : PointerEvent) (d : Drag) (w w2 : World) (k n : nat)
  (dt : R) (body : Body) :
  picked ev = Some k ->
  nth_error (bodies w) k = Some body ->
  run n dt (snd (onPointerDown ev d w)) = Some w2 ->
  let d3 := fst (endDrag (fst (onPointerDown ev d w)) w2) in
  let w3 := snd (endDrag (fst (onPointerDown ev d w)) w2) in
  exists b3,
    nth_error (bodies w3) k = Some b3
    /\ posX b3 = posX body /\ posY b3 = posY body
    /\ velocity b3 = mkVec 0 0
    /\ isDragged b3 = false
    /\ id b3 = id body
    /\ draggedBody d3 = None /\ lastDragPos d3 = None /\ dragOffset d3 k = None.
Proof.
  intros Hp Hk Hrun d3 w3.
  set (b1 := setAngularVelocity (setVelocity (setDragged body true) (mkVec 0 0)) 0).
  assert (E1 : draggedBody (fst (onPointerDown ev d w)) = Some k
               /\ bodies (snd (onPointerDown ev d w)) = setNth k b1 (bodies w)).
  { unfold onPointerDown. rewrite Hp, Hk. cbv zeta. fold b1.
    destruct (planePoint ev); split; reflexivity. }
  destruct E1 as [Ed Eb].
  pose proof (run_heldStill n dt _ _ Hrun) as HF. rewrite Eb in HF.
  destruct (Forall2_nth_error_left _ _ _ HF k b1 (nth_error_setNth_eq _ _ _ _ Hk))
    as (b2 & Hb2 & Hs & Hh).
  destruct (Hh eq_refl) as (X & Y & V).
  unfold d3, w3, endDrag. rewrite Ed, Hb2. cbn [fst snd bodies setBodies].
  exists (setDragged b2 false).
  split; [eapply nth_error_setNth_eq; exact Hb2|].
  unfold sameStatic in Hs. simp_body.
  split; [exact X|]. split; [exact Y|]. split; [apply V; reflexivity|].
  split; [reflexivity|]. split; [tauto|]. split; [reflexivity|]. split; [reflexivity|].
  cbn. rewrite Nat.eqb_refl. reflexivity.
Qed.

Lemma press_hold_release_witness :
  exists b3,
    nth_error (bodies (snd (endDrag (fst (onPointerDown pressFirst noDrag crowdedWorld))
                              (snd (onPointerDown pressFirst noDrag crowdedWorld))))) 0
    = Some b3
    /\ velocity b3 = mkVec 0 0 /\ isDragged b3 = false.
Proof.
  destruct (press_hold_release pressFirst noDrag crowdedWorld
              (snd (onPointerDown pressFirst noDrag crowdedWorld)) 0 0 fixedStep bigBox
              eq_refl eq_refl eq_refl) as (b3 & A & _ & _ & B & C & _).
  exists b3. split; [exact A|]. split; [exact B|exact C].
Defined.

(** X16. Only the body picked last is released.  When a second
    [pointerdown] hits another body before the first one is released (two
    fingers), the single variable [draggedBody] moves on to the second body;
    the following [pointerup] clears the dragged flag of the second body only,
    the first body keeps its flag, and a further [pointerup] changes nothing,
    so no [pointerup] releases the first body. *)
Theorem second_press_orphans_first (ev1 ev2 : PointerEvent) (d : Drag) (w : World)
  (k1 k2 : nat) (body1 body2 : Body) :
  k1 <> k2 ->
  picked ev1 = Some k1 -> picked ev2 = Some k2 ->
  nth_error (bodies w) k1 = Some body1 ->
  nth_error (bodies w) k2 = Some body2 ->
  let s1 := onPointerDown ev1 d w in
  let s2 := onPointerDown ev2 (fst s1) (snd s1) in
  let s3 := endDrag (fst s2) (snd s2) in
  draggedBody (fst s3) = None
  /\ (exists b, nth_error (bodies (snd s3)) k1 = Some b /\ isDragged b = true)
  /\ (exists b, nth_error (bodies (snd s3)) k2 = Some b /\ isDragged b = false)
  /\ endDrag (fst s3) (snd s3) = s3.
Proof.
  intros Hne P1 P2 H1 H2 s1 s2 s3.
  set (a1 := setAngularVelocity (setVelocity (setDragged body1 true) (mkVec 0 0)) 0).
  set (a2 := setAngularVelocity (setVelocity (setDragged body2 true) (mkVec 0 0)) 0).
  assert (E1 : bodies (snd s1) = setNth k1 a1 (bodies w)).
  { unfold s1, onPointerDown. rewrite P1, H1. cbv zeta. fold a1.
    destruct (planePoint ev1); reflexivity. }
  assert (N2 : nth_error (bodies (snd s1)) k2 = Some body2).
  { rewrite E1, nth_error_setNth_neq by (intros E; apply Hne; symmetry; exact E).
    exact H2. }
  assert (E2 : draggedBody (fst s2) = Some k2
               /\ bodies (snd s2) = setNth k2 a2 (setNth k1 a1 (bodies w))).
  { unfold s2, onPointerDown. rewrite P2, N2. cbv zeta. fold a2. rewrite E1.
    destruct (planePoint ev2); split; reflexivity. }
  destruct E2 as [Ed2 Eb2].
  assert (M2 : nth_error (bodies (snd s2)) k2 = Some a2).
  { rewrite Eb2. eapply nth_error_setNth_eq. rewrite <- E1. exact N2. }
  assert (E3 : draggedBody (fst s3) = None
               /\ bodies (snd s3) = setNth k2 (setDragged a2 false) (bodies (snd s2))).
  { unfold s3, endDrag. rewrite Ed2, M2. split; reflexivity. }
  destruct E3 as [Ed3 Eb3].
  split; [exact Ed3|]. split; [|split].
  - exists a1. split; [|reflexivity].
    rewrite Eb3, Eb2, !nth_error_setNth_neq by exact Hne.
    eapply nth_error_setNth_eq. exact H1.
  - exists (setDragged a2 false). split; [|reflexivity].
    rewrite Eb3. eapply nth_error_setNth_eq. exact M2.
  - unfold endDrag at 1. rewrite Ed3. symmetry. apply surjective_pairing.
Qed.

Lemma second_press_orphans_first_witness :
  exists b,
    nth_error
      (bodies (snd (endDrag
                      (fst (onPointerDown pressSecond
                              (fst (onPointerDown pressFirst noDrag crowdedWorld))
                              (snd (onPointerDown pressFirst noDrag crowdedWorld))))
                      (snd (onPointerDown pressSecond
                              (fst (onPointerDown pressFirst noDrag crowdedWorld))
                              (snd (onPointerDown pressFirst noDrag crowdedWorld))))))) 0
    = Some b
    /\ isDragged b = true.
Proof.
  refine (proj1 (proj2 (second_press_orphans_first pressFirst pressSecond noDrag
                          crowdedWorld 0 1 bigBox smallBox _ eq_refl eq_refl eq_refl eq_refl))).
  discriminate.
Defined.

(** ** The animation loop *)

Lemma stepLoop_run (n : nat) :
  forall (fuel : nat) (acc : R) (w : World),
    (n <= fuel)%nat ->
    INR n * fixedStep <= acc < (INR n + 1) * fixedStep ->
    stepLoop fuel acc w
    = match run n fixedStep w with
      | Some w' => Done (acc - INR n * fixedStep, w')
      | None => Thrown
      end.
Proof.
  induction n as [|n IH]; intros fuel acc w Hf Ha.
  - cbn [INR run] in *.
    assert (E : (acc >=? fixedStep) = false) by (apply Rleb_false; lra).
    destruct fuel; cbn [stepLoop]; rewrite E; do 2 f_equal; lra.
  - rewrite S_INR in Ha.
    assert (Hn : 0 <= INR n) by apply pos_INR.
    assert (Hs : 0 < fixedStep) by (unfold fixedStep; lra).
    assert (E : (acc >=? fixedStep) = true) by (apply Rleb_true; nra).
    destruct fuel as [|fuel]; [lia|]. cbn [stepLoop run]. rewrite E.
    destruct (updatePhysics fixedStep w) as [w1|]; [|reflexivity].
    rewrite (IH fuel (acc - fixedStep) w1) by (try lia; lra).
    destruct (run n fixedStep w1); [|reflexivity].
    do 2 f_equal. rewrite S_INR. lra.
Qed.

Lemma frameFuel_spec (acc : R) :
  0 <= acc ->
  INR (frameFuel acc) * fixedStep <= acc < (INR (frameFuel acc) + 1) * fixedStep.
Proof.
  intros Ha. unfold frameFuel, floor.
  assert (Hs : 0 < fixedStep) by (unfold fixedStep; lra).
  set (x := acc / fixedStep).
  assert (Hx : 0 <= x) by (apply Rmult_le_pos; [lra|apply Rlt_le, Rinv_0_lt_compat, Hs]).
  assert (Ex : acc = x * fixedStep) by (unfold x; field; lra).
  destruct (base_Int_part x) as [Hle Hgt].
  assert (Hge : (0 <= Int_part x)%Z).
  { apply Z.lt_succ_r. apply lt_IZR. rewrite succ_IZR. lra. }
  rewrite INR_IZR_INZ, Z2Nat.id by exact Hge.
  rewrite Ex. split.
  - apply Rmult_le_compat_r; lra.
  - apply Rmult_lt_compat_r; lra.
Qed.

(** X17. What one animation frame does to the simulation.  With the
    accumulator in [0, fixedStep) and a timestamp that is not earlier than the
    previous one, [animate] runs [updatePhysics(fixedStep)] exactly [n] times
    in a row, where [n] is at most 5 whatever time has passed (the elapsed
    time is capped at 0.05 s), and leaves the accumulator again in
    [0, fixedStep) holding the time not yet simulated; on the very first frame
    no step is run.  The loop always ends: the frame stops early only if a
    step throws. *)
Theorem animate_frame (time : R) (c : Clock) (w : World) :
  0 <= accumulator c < fixedStep ->
  (forall l, lastTime c = Some l -> l <= time) ->
  exists (n : nat) (acc' : R),
    (n <= 5)%nat
    /\ 0 <= acc' < fixedStep
    /\ acc' + INR n * fixedStep
       = accumulator c
         + Rmin ((time - match lastTime c with None => time | Some l => l end) / 1000) 0.05
    /\ (lastTime c = None -> n = O)
    /\ animate time c w
       = match run n fixedStep w with
         | Some w' => Done (mkClock (Some time) acc', w')
         | None => Thrown
         end.
Proof.
  intros Hacc Hmono. unfold animate. cbv zeta.
  pose proof Hacc as Hacc'. unfold fixedStep in Hacc'.
  set (last := match lastTime c with None => time | Some l => l end).
  set (dt := Rmin ((time - last) / 1000) 0.05).
  assert (Hl : last <= time).
  { unfold last. destruct (lastTime c) as [l|]; [apply Hmono; reflexivity|lra]. }
  assert (Hdt : 0 <= dt <= 0.05).
  { unfold dt, Rmin. destruct (Rle_dec _ _); lra. }
  set (acc := accumulator c + dt).
  assert (Ha : 0 <= acc) by (unfold acc; lra).
  pose proof (frameFuel_spec acc Ha) as Hn.
  exists (frameFuel acc), (acc - INR (frameFuel acc) * fixedStep).
  pose proof Hn as Hn'. unfold fixedStep in Hn'.
  split; [|split; [|split; [|split]]].
  - assert (acc < 0.06) by (unfold acc; lra).
    assert (Hlt : INR (frameFuel acc) < INR 6).
    { change (INR 6) with (1 + 1 + 1 + 1 + 1 + 1). lra. }
    apply INR_lt in Hlt. lia.
  - lra.
  - lra.
  - intros Hnone. apply INR_eq. cbn [INR].
    assert (dt = 0).
    { unfold dt, last. rewrite Hnone. unfold Rmin. destruct (Rle_dec _ _); lra. }
    assert (acc < 0.01) by (unfold acc; lra).
    assert (INR (frameFuel acc) < 1) by lra.
    destruct (frameFuel acc) as [|m]; [reflexivity|].
    rewrite S_INR in *. pose proof (pos_INR m). lra.
  - rewrite (stepLoop_run (frameFuel acc) (frameFuel acc) acc w (le_n _) Hn).
    destruct (run _ _ _); reflexivity.
Qed.

Lemma animate_frame_witness :
  exists (n : nat) (acc' : R),
    (n <= 5)%nat /\ 0 <= acc' < fixedStep
    /\ animate 16 initialClock loneWorld
       = match run n fixedStep loneWorld with
         | Some w' => Done (mkClock (Some 16) acc', w')
         | None => Thrown
         end.
Proof.
  destruct (animate_frame 16 initialClock loneWorld) as (n & acc' & A & B & _ & _ & C).
  - cbn. unfold fixedStep. lra.
  - intros l H. discriminate.
  - exists n, acc'. split; [exact A|]. split; [exact B|exact C].
Defined.

(** ** Angles *)

Lemma floor_bounds (x : R) : IZR (floor x) <= x < IZR (floor x) + 1.
Proof. unfold floor. destruct (base_Int_part x). lra. Qed.

Lemma floor_unique (x : R) (k : Z) : IZR k <= x < IZR k + 1 -> floor x = k.
Proof.
  intros H. unfold floor. symmetry. apply Int_part_spec. lra.
Qed.

(** The remainder keeps the sign of the dividend and is smaller than the
    divisor. *)
Lemma jsRem_cases (a b : R) :
  0 < b ->
  (exists k : Z, jsRem a b = a - b * IZR k)
  /\ (0 <= a -> 0 <= jsRem a b < b)
  /\ (a < 0 -> - b < jsRem a b <= 0).
Proof.
  intros Hb. unfold jsRem, truncate.
  split; [eexists; reflexivity|].
  assert (Hq : a = b * (a / b)) by (field; lra).
  destruct (a / b <? 0) eqn:E; bools.
  - assert (Ha : a < 0) by nra.
    split; [intros; lra|]. intros _.
    pose proof (floor_bounds (- (a / b))) as F.
    rewrite opp_IZR. set (f := IZR (floor (- (a / b)))) in *. nra.
  - assert (Ha : 0 <= a) by nra.
    split; [|intros; lra]. intros _.
    pose proof (floor_bounds (a / b)) as F.
    set (f := IZR (floor (a / b))) in *. nra.
Qed.

Lemma jsRem_small (a b : R) : 0 <= a < b -> jsRem a b = a.
Proof.
  intros H. unfold jsRem, truncate.
  assert (Hq : 0 <= a / b < 1).
  { split; [apply Rmult_le_pos; [lra|apply Rlt_le, Rinv_0_lt_compat; lra]|].
    apply Rmult_lt_reg_r with b; [lra|]. unfold Rdiv.
    rewrite Rmult_assoc, Rinv_l by lra. lra. }
  rewrite (proj2 (Rltb_false (a / b) 0)) by lra.
  rewrite (floor_unique (a / b) 0) by (cbn; lra). cbn. lra.
Qed.

Lemma jsRem_second (a b : R) : b <= a < 2 * b -> 0 < b -> jsRem a b = a - b.
Proof.
  intros H Hb. unfold jsRem, truncate.
  assert (Hq : 1 <= a / b < 2).
  { split.
    - apply Rmult_le_reg_r with b; [lra|]. unfold Rdiv.
      rewrite Rmult_assoc, Rinv_l by lra. lra.
    - apply Rmult_lt_reg_r with b; [lra|]. unfold Rdiv.
      rewrite Rmult_assoc, Rinv_l by lra. lra. }
  rewrite (proj2 (Rltb_false (a / b) 0)) by lra.
  rewrite (floor_unique (a / b) 1) by (cbn; lra). cbn. lra.
Qed.

(** X18. [normalizeAngle] returns an angle in [-PI, PI) that differs from
    its argument by a whole number of turns, and returns an argument that is
    already in that interval unchanged. *)
Theorem normalizeAngle_range (angle : R) :
  - PI <= normalizeAngle angle < PI
  /\ (exists k : Z, normalizeAngle angle = angle + IZR k * (2 * PI))
  /\ (- PI <= angle < PI -> normalizeAngle angle = angle).
Proof.
  pose proof PI_RGT_0 as Hpi.
  assert (Hb : 0 < PI * 2) by lra.
  unfold normalizeAngle. cbv zeta.
  destruct (jsRem_cases (angle + PI) (PI * 2) Hb) as ([k1 E1] & P1 & N1).
  set (m := jsRem (angle + PI) (PI * 2)) in *.
  assert (Hm : - (PI * 2) < m < PI * 2).
  { destruct (Rle_lt_dec 0 (angle + PI)) as [H|H]; [apply P1 in H|apply N1 in H]; lra. }
  destruct (jsRem_cases (m + PI * 2) (PI * 2) Hb) as ([k2 E2] & P2 & _).
  assert (H2 : 0 <= jsRem (m + PI * 2) (PI * 2) < PI * 2) by (apply P2; lra).
  split; [lra|]. split.
  - exists (1 - k1 - k2)%Z. rewrite E2, E1, !minus_IZR. ring.
  - intros Ha.
    assert (Em : m = angle + PI) by (unfold m; apply jsRem_small; lra).
    rewrite jsRem_second by lra. lra.
Qed.

(** ** Squares and rectangles *)

Lemma boxStep_rectLocal (hw hh : R) :
  0 < hw -> 0 < hh ->
  fold_left boxStep (rectLocal hw hh) None = Some (- hw, hw, - hh, hh).
Proof.
  intros Hw Hh. unfold rectLocal. cbn [fold_left boxStep vx vy].
  repeat first
    [ rewrite (proj2 (Rltb_false hw (- hw))) by lra
    | rewrite (proj2 (Rltb_true (- hw) hw)) by lra
    | rewrite (proj2 (Rltb_false hh (- hh))) by lra
    | rewrite (proj2 (Rltb_true (- hh) hh)) by lra
    | rewrite (proj2 (Rltb_false (- hw) (- hw))) by lra
    | rewrite (proj2 (Rltb_false (- hh) (- hh))) by lra
    | rewrite (proj2 (Rltb_false hw hw)) by lra
    | rewrite (proj2 (Rltb_false hh hh)) by lra ].
  reflexivity.
Qed.

(** X19. [isSquareBody] and [isRectBody] on the rectangles of the page.
    For a body of type 'rect' whose polygon is the one [addRect] builds from
    positive half-extents [hw] and [hh], [isSquareBody] holds exactly when
    [0.9 < hw / hh < 1.1], whatever the position and rotation of the body,
    and [isRectBody] is its negation; so the bodies of [addSquare] are squares
    and a rectangle whose width is at most 0.9 times or at least 1.1 times its
    height is not.  A body of another type is neither. *)
Theorem isSquareBody_rect (b : Body) (hw hh : R) :
  (shapeType b = rect -> localVerts b = rectLocal hw hh -> 0 < hw -> 0 < hh ->
   isSquareBody b = (hw / hh >? 0.9) && (hw / hh <? 1.1)
   /\ isRectBody b = negb (isSquareBody b)
   /\ (hw = hh -> isSquareBody b = true)
   /\ (hw <= 0.9 * hh \/ 1.1 * hh <= hw -> isRectBody b = true))
  /\ (shapeType b <> rect -> isSquareBody b = false /\ isRectBody b = false).
Proof.
  split.
  - intros Ht Hv Hw Hh.
    assert (E : isSquareBody b = (hw / hh >? 0.9) && (hw / hh <? 1.1)).
    { unfold isSquareBody. rewrite Ht, Hv. cbn [isRectType negb].
      rewrite boxStep_rectLocal by assumption. cbv zeta.
      rewrite (proj2 (Rleb_false (hw - - hw) 0)) by lra.
      rewrite (proj2 (Rleb_false (hh - - hh) 0)) by lra. cbn [orb].
      replace ((hw - - hw) / (hh - - hh)) with (hw / hh) by (field; lra).
      reflexivity. }
    assert (Er : isRectBody b = negb (isSquareBody b)).
    { unfold isRectBody. rewrite Ht. reflexivity. }
    split; [exact E|]. split; [exact Er|]. split.
    + intros ->. rewrite E.
      replace (hh / hh) with 1 by (field; lra).
      rewrite (proj2 (Rltb_true 0.9 1)), (proj2 (Rltb_true 1 1.1)) by lra. reflexivity.
    + intros Hr. rewrite Er, E. apply negb_true_iff, andb_false_iff.
      assert (Hq : hw = hw / hh * hh) by (field; lra).
      destruct Hr as [Hr|Hr].
      * left. apply Rltb_false. nra.
      * right. apply Rltb_false. nra.
  - intros Ht. unfold isRectBody, isSquareBody.
    destruct (shapeType b); [| contradiction |]; split; reflexivity.
Qed.

Lemma isSquareBody_rect_witness :
  isSquareBody (rectBody 0.6 0.6) = true /\ isRectBody (rectBody 0.5 0.1) = true.
Proof.
  split.
  - refine (proj1 (proj2 (proj2 (proj1 (isSquareBody_rect (rectBody 0.6 0.6) 0.6 0.6)
                                   eq_refl eq_refl _ _))) eq_refl); lra.
  - refine (proj2 (proj2 (proj2 (proj1 (isSquareBody_rect (rectBody 0.5 0.1) 0.5 0.1)
                                   eq_refl eq_refl _ _))) _); lra.
Defined.

(** ** The support radius *)

(** The loop of [getSupportRadius] seen on the local vertices: the position
    of the body cancels. *)
Lemma getSupportRadius_local (body : Body) (dirX dirY : R) :
  getSupportRadius body dirX dirY
  = fold_left
      (fun radius v =>
         let d := Rabs ((vx v * cos (rotZ body) - vy v * sin (rotZ body)) * dirX
                        + (vx v * sin (rotZ body) + vy v * cos (rotZ body)) * dirY) in
         if d >? radius then d else radius)
      (localVerts body) 0.
Proof.
  unfold getSupportRadius, getWorldVertices, transformVerts. cbv zeta.
  generalize 0. induction (localVerts body) as [|v l IH]; intros acc; [reflexivity|].
  cbn [map fold_left vx vy].
  match goal with
  | |- fold_left _ _ (if Rabs ?a >? _ then _ else _)
       = fold_left _ _ (if Rabs ?b >? _ then _ else _) =>
      replace a with b by ring
  end.
  apply IH.
Qed.

Lemma supportFold_bounds (f : Vec -> R) (verts : list Vec) (acc bound : R) :
  (forall v, In v verts -> 0 <= f v <= bound) -> 0 <= acc <= bound ->
  0 <= fold_left (fun radius v => if f v >? radius then f v else radius) verts acc
    <= bound.
Proof.
  revert acc. induction verts as [|v l IH]; intros acc Hf Ha; [exact Ha|].
  cbn [fold_left]. apply IH.
  - intros x Hx. apply Hf. right. exact Hx.
  - destruct (f v >? acc); [apply Hf; left; reflexivity|exact Ha].
Qed.

Lemma maxRadius_nonneg (verts : list Vec) : 0 <= maxRadius verts.
Proof. apply (proj1 (maxRadius_fold verts 0)). Qed.

Lemma rotated_dot_bound (x y c s dx dy : R) :
  c * c + s * s = 1 -> dx * dx + dy * dy = 1 ->
  Rabs ((x * c - y * s) * dx + (x * s + y * c) * dy) <= hypot x y.
Proof.
  intros Hc Hd.
  set (p := (x * c - y * s) * dx + (x * s + y * c) * dy).
  set (q := (x * c - y * s) * dy - (x * s + y * c) * dx).
  assert (E : p * p + q * q = x * x + y * y).
  { transitivity ((x * x + y * y) * (c * c + s * s) * (dx * dx + dy * dy)).
    - unfold p, q. ring.
    - rewrite Hc, Hd. ring. }
  pose proof (hypot_nonneg x y) as Hn. pose proof (hypot_sqr x y) as Hs.
  pose proof (Rle_0_sqr q) as Hq. unfold Rsqr in Hq.
  apply Rabs_le. split; nra.
Qed.

Lemma getSupportRadius_nonneg (body : Body) (dirX dirY : R) :
  0 <= getSupportRadius body dirX dirY.
Proof.
  rewrite getSupportRadius_local. cbv zeta.
  set (f := fun v : Vec =>
              Rabs ((vx v * cos (rotZ body) - vy v * sin (rotZ body)) * dirX
                    + (vx v * sin (rotZ body) + vy v * cos (rotZ body)) * dirY)).
  assert (B : forall l acc, 0 <= acc ->
                0 <= fold_left (fun radius v => if f v >? radius then f v else radius) l acc).
  { induction l as [|v l IH]; intros acc Ha; [exact Ha|]. cbn [fold_left].
    apply IH. destruct (f v >? acc); [apply Rabs_pos|exact Ha]. }
  apply B. lra.
Qed.

(** X20. [getSupportRadius] is never negative, is the same for a direction
    and its opposite, does not depend on where the body is, and along a unit
    direction never exceeds the largest distance of a local vertex from the
    origin (the bounding radius of the rectangles and triangles). *)
Theorem getSupportRadius_spec (body : Body) (dirX dirY : R) :
  0 <= getSupportRadius body dirX dirY
  /\ getSupportRadius body (- dirX) (- dirY) = getSupportRadius body dirX dirY
  /\ (forall x y, getSupportRadius (setPos body x y) dirX dirY
                  = getSupportRadius body dirX dirY)
  /\ (dirX * dirX + dirY * dirY = 1 ->
      getSupportRadius body dirX dirY <= maxRadius (localVerts body)).
Proof.
  split; [|split; [|split]].
  - apply getSupportRadius_nonneg.
  - rewrite !getSupportRadius_local. cbv zeta.
    generalize 0. induction (localVerts body) as [|v l IH]; intros acc; [reflexivity|].
    cbn [fold_left].
    match goal with
    | |- fold_left _ _ (if Rabs ?a >? _ then _ else _)
         = fold_left _ _ (if Rabs ?b >? _ then _ else _) =>
        replace (Rabs a) with (Rabs b)
          by (rewrite <- (Rabs_Ropp b); f_equal; ring)
    end.
    apply IH.
  - intros x y. rewrite !getSupportRadius_local. reflexivity.
  - intros Hd. rewrite getSupportRadius_local. cbv zeta.
    apply (supportFold_bounds
             (fun v => Rabs ((vx v * cos (rotZ body) - vy v * sin (rotZ body)) * dirX
                             + (vx v * sin (rotZ body) + vy v * cos (rotZ body)) * dirY))).
    + intros v Hv. split; [apply Rabs_pos|].
      eapply Rle_trans; [|apply maxRadius_ge, Hv].
      apply rotated_dot_bound; [|exact Hd].
      pose proof (sin2_cos2 (rotZ body)) as H. unfold Rsqr in H. lra.
    + split; [lra|apply maxRadius_nonneg].
Qed.

(** ** Colour strings *)

Lemma nine_chars (col : string) :
  String.length col = 9%nat ->
  exists c1 c2 c3 c4 c5 c6 c7 c8 c9,
    col = String c1 (String c2 (String c3 (String c4 (String c5 (String c6
            (String c7 (String c8 (String c9 EmptyString)))))))).
Proof.
  intros H.
  do 9 (destruct col as [|? col]; [discriminate|]).
  destruct col; [|discriminate].
  repeat eexists.
Qed.

(** X21. [toOpaqueHex] cuts exactly the strings of nine characters that
    start with '#' down to their first seven characters and returns every
    other string unchanged; the result is always a prefix of the argument, it
    never is a nine-character string starting with '#', and applying the
    function twice is the same as applying it once. *)
Theorem toOpaqueHex_spec (col : string) :
  prefix (toOpaqueHex col) col = true
  /\ (startsWithHash col = true -> String.length col = 9%nat ->
      String.length (toOpaqueHex col) = 7%nat
      /\ startsWithHash (toOpaqueHex col) = true)
  /\ (startsWithHash col = false \/ String.length col <> 9%nat -> toOpaqueHex col = col)
  /\ (startsWithHash (toOpaqueHex col) && (String.length (toOpaqueHex col) =? 9)%nat = false)
  /\ toOpaqueHex (toOpaqueHex col) = toOpaqueHex col.
Proof.
  assert (Pref : forall s, prefix s s = true).
  { induction s as [|c s IH]; [reflexivity|]. cbn.
    destruct (ascii_dec c c); [exact IH|contradiction]. }
  unfold toOpaqueHex.
  destruct (startsWithHash col) eqn:Hh; cbn [andb].
  - destruct (String.length col =? 9)%nat eqn:Hl.
    + apply Nat.eqb_eq in Hl.
      destruct (nine_chars col Hl) as (c1 & c2 & c3 & c4 & c5 & c6 & c7 & c8 & c9 & ->).
      cbn [substring]. cbn [startsWithHash] in Hh.
      split.
      { cbn. repeat (match goal with
                     | |- context [ascii_dec ?c ?c] =>
                         destruct (ascii_dec c c); [|contradiction]
                     end). reflexivity. }
      split; [intros _ _; split; [reflexivity|exact Hh]|].
      split; [intros [H|H]; [discriminate|contradiction]|].
      cbn [startsWithHash String.length]. rewrite Hh. cbn. split; reflexivity.
    + split; [apply Pref|]. split; [intros _ H; rewrite H in Hl; discriminate|].
      split; [reflexivity|]. rewrite Hh, Hl. split; reflexivity.
  - split; [apply Pref|]. split; [discriminate|]. split; [reflexivity|].
    rewrite Hh. split; reflexivity.
Qed.

(** ** The Play button *)

Lemma speedScaleOr1_nonzero (b : Body) : speedScaleOr1 b <> 0.
Proof.
  unfold speedScaleOr1. destruct (speedScale b) as [s|]; [|lra].
  destruct (s =? 0) eqn:E; bools; lra.
Qed.

Lemma hypot_polar (angle v : R) : hypot (cos angle * v) (sin angle * v) = Rabs v.
Proof.
  apply hypot_unique; [apply Rabs_pos|].
  pose proof (sin2_cos2 angle) as H. unfold Rsqr in H.
  transitivity (v * v * (sin angle * sin angle + cos angle * cos angle)); [ring|].
  rewrite H, Rmult_1_r. unfold Rabs. destruct (Rcase_abs v); ring.
Qed.

Lemma playKick_kicked (random : nat -> R) (b : Body) (k : nat) :
  (forall i, 0 <= random i < 1) -> playKicked b (fst (playKick random b k)).
Proof.
  intros Hr. unfold playKick, playKicked. cbv zeta.
  destruct (isDragged b) eqn:Hd; cbn [fst].
  - split; [apply sameStatic_refl|]. repeat (split; [reflexivity|]). discriminate.
  - rewrite spins_true. cbn [fst].
    split; [unfold sameStatic; cbn; rewrite Hd; repeat split; reflexivity|].
    simp_body. repeat (split; [reflexivity|]).
    split; [discriminate|]. intros _.
    pose proof (speedScaleOr1_nonzero b) as Hs.
    apply Rabs_pos_lt in Hs.
    set (s := speedScaleOr1 b) in *. unfold speedOf. simp_body.
    rewrite hypot_polar, !Rabs_mult.
    pose proof (Hr k) as H0. pose proof (Hr (S k)) as H1. pose proof (Hr (S (S k))) as H2.
    split.
    + rewrite (Rabs_pos_eq (0.8 + random (S k) * 1.2)) by lra. nra.
    + assert (Rabs (random (S (S k)) - 0.5) <= 0.5) by (apply Rabs_le; lra).
      rewrite (Rabs_pos_eq 0.6) by lra. nra.
Qed.

Lemma playKicks_kicked (random : nat -> R) (bs : list Body) (k : nat) :
  (forall i, 0 <= random i < 1) -> Forall2 playKicked bs (fst (playKicks random bs k)).
Proof.
  intros Hr. revert k. induction bs as [|b l IH]; intros k; [constructor|].
  cbn [playKicks].
  pose proof (playKick_kicked random b k Hr) as Hb.
  destruct (playKick random b k) as [b' k1]. cbn [fst] in Hb.
  pose proof (IH k1) as Hl.
  destruct (playKicks random l k1) as [l' k2]. cbn [fst] in *.
  constructor; assumption.
Qed.

(** X22. A click on Play.  The click flips [physicsEnabled]; when it
    switches the simulation on, every body that is not dragged gets a new
    velocity whose length lies between 0.8 and 2 times its speed scale and a
    spin of at most 0.3 times its speed scale (whatever [Math.random]
    returns), dragged bodies are left as they are, and no body changes place,
    rotation, colour or static data; when it switches the simulation off, no
    body changes at all. *)
Theorem onPlayClick_kicks (random : nat -> R) (w : World) :
  (forall i, 0 <= random i < 1) ->
  physicsEnabled (onPlayClick random w) = negb (physicsEnabled w)
  /\ (physicsEnabled w = false ->
      Forall2 playKicked (bodies w) (bodies (onPlayClick random w)))
  /\ (physicsEnabled w = true -> bodies (onPlayClick random w) = bodies w)
  /\ nextBodyId (onPlayClick random w) = nextBodyId w
  /\ colorTransferEnabled (onPlayClick random w) = colorTransferEnabled w.
Proof.
  intros Hr. unfold onPlayClick, applyPlayImpulse. cbv zeta.
  destruct (physicsEnabled w) eqn:He; cbn [negb].
  - split; [reflexivity|]. split; [discriminate|]. repeat split; reflexivity.
  - split; [reflexivity|]. split; [|split; [discriminate|split; reflexivity]].
    intros _. cbn [bodies setBodies setPhysicsEnabled]. apply playKicks_kicked, Hr.
Qed.

Lemma onPlayClick_kicks_witness :
  Forall2 playKicked (bodies twoCircles) (bodies (onPlayClick alwaysHalf twoCircles)).
Proof.
  refine (proj1 (proj2 (onPlayClick_kicks alwaysHalf twoCircles _)) eq_refl).
  intros i. unfold alwaysHalf. lra.
Defined.

(** ** Energy over a step *)

Lemma freeBody_static (b b' : Body) : sameStatic b b' -> freeBody b -> freeBody b'.
Proof.
  unfold sameStatic, freeBody. intros (_ & _ & _ & _ & Hm & Hi & _ & Hd & _) (D & M & I).
  rewrite Hm, Hi, Hd. auto.
Qed.

Lemma Forall2_static_free (bs bs' : list Body) :
  Forall2 sameStatic bs bs' -> Forall freeBody bs -> Forall freeBody bs'.
Proof.
  intros H. induction H as [|b b' l l' Hb _ IH]; intros F; [constructor|].
  inversion F; subst. constructor; [eapply freeBody_static; eassumption|apply IH; assumption].
Qed.

Lemma totalEnergy_setNth (i : nat) (a a' : Body) (l : list Body) :
  nth_error l i = Some a ->
  totalEnergy (setNth i a' l) = totalEnergy l - energyOf a + energyOf a'.
Proof.
  revert i. induction l as [|x l IH]; intros [|i] H; cbn in H; try discriminate.
  - injection H as ->. cbn. lra.
  - cbn [setNth totalEnergy fold_right]. fold (totalEnergy (setNth i a' l)).
    fold (totalEnergy l). rewrite (IH i H). lra.
Qed.

Lemma pairStep_energy (ct : bool) (i j : nat) (bs bs' : list Body) :
  (i < j)%nat -> Forall freeBody bs -> pairStep ct i j bs = Some bs' ->
  totalEnergy bs' = totalEnergy bs.
Proof.
  intros Hij F H. unfold pairStep in H.
  destruct (nth_error bs i) as [a|] eqn:Ea; [|injection H as <-; reflexivity].
  destruct (nth_error bs j) as [b|] eqn:Eb; [|injection H as <-; reflexivity].
  destruct (collidePair ct a b) as [[a' b']|] eqn:Ec; [|discriminate].
  injection H as <-.
  rewrite Forall_forall in F.
  destruct (F a (nth_error_In _ _ Ea)) as (Da & Ma & Ia).
  destruct (F b (nth_error_In _ _ Eb)) as (Db & Mb & Ib).
  destruct (collidePair_conserves ct a b a' b' Da Db Ma Mb Ia Ib Ec) as (_ & _ & G).
  destruct (collidePair_static ct a b a' b' Ec) as [Sa Sb].
  assert (Ema : mass a' = mass a) by (unfold sameStatic in Sa; tauto).
  assert (Emb : mass b' = mass b) by (unfold sameStatic in Sb; tauto).
  rewrite (totalEnergy_setNth j b b').
  2:{ rewrite nth_error_setNth_neq by lia. exact Eb. }
  rewrite (totalEnergy_setNth i a a') by exact Ea.
  unfold energyOf. rewrite Ema, Emb. lra.
Qed.

Lemma collideAll_energy (ct : bool) (bs bs' : list Body) :
  Forall freeBody bs -> collideAll ct bs = Some bs' ->
  totalEnergy bs' = totalEnergy bs /\ Forall freeBody bs'.
Proof.
  intros F H. revert F.
  apply (collideAll_rel
           (fun b1 b2 => Forall freeBody b1 ->
                         totalEnergy b2 = totalEnergy b1 /\ Forall freeBody b2) )
    with (ct := ct) (bs := bs) (bs' := bs'); [| | |exact H].
  - intros l F. split; [reflexivity|exact F].
  - intros l1 l2 l3 H12 H23 F. destruct (H12 F) as [E12 F2].
    destruct (H23 F2) as [E23 F3]. split; [congruence|exact F3].
  - intros i j l l' Hij Hs F. split; [eapply pairStep_energy; eassumption|].
    eapply Forall2_static_free; [|exact F].
    eapply (pairStep_pointwise sameStatic sameStatic_refl collidePair_static); exact Hs.
Qed.

Lemma moveBody_energy (dt bx by_ : R) (b : Body) :
  freeBody b -> 0 <= dt -> energyOf (moveBody dt bx by_ b) <= energyOf b.
Proof.
  intros (D & M & _) Hdt.
  destruct (moveBody_slows dt bx by_ b D Hdt) as [Hs _]. cbv zeta in Hs.
  pose proof (moveBody_static dt bx by_ b) as S.
  assert (Em : mass (moveBody dt bx by_ b) = mass b) by (unfold sameStatic in S; tauto).
  unfold energyOf. rewrite Em. unfold speedOf in Hs.
  rewrite <- !hypot_sqr.
  pose proof (hypot_nonneg (vx (velocity (moveBody dt bx by_ b)))
                (vy (velocity (moveBody dt bx by_ b)))) as H1.
  pose proof (hypot_nonneg (vx (velocity b)) (vy (velocity b))) as H2.
  set (s' := hypot _ _) in *. set (s := hypot (vx (velocity b)) _) in *.
  assert (s' * s' <= s * s) by nra. nra.
Qed.

Lemma map_move_energy (dt bx by_ : R) (bs : list Body) :
  Forall freeBody bs -> 0 <= dt ->
  totalEnergy (map (moveBody dt bx by_) bs) <= totalEnergy bs
  /\ Forall freeBody (map (moveBody dt bx by_) bs).
Proof.
  intros F Hdt. induction F as [|b l Hb _ IH]; [split; [cbn; lra|constructor]|].
  destruct IH as [IE IF]. cbn [map totalEnergy fold_right].
  fold (totalEnergy (map (moveBody dt bx by_) l)). fold (totalEnergy l). split.
  - pose proof (moveBody_energy dt bx by_ b Hb Hdt). lra.
  - constructor; [|exact IF]. eapply freeBody_static; [apply moveBody_static|exact Hb].
Qed.

Lemma updatePhysics_energy (dt : R) (w w' : World) :
  0 <= dt -> Forall freeBody (bodies w) -> updatePhysics dt w = Some w' ->
  totalEnergy (bodies w') <= totalEnergy (bodies w) /\ Forall freeBody (bodies w').
Proof.
  intros Hdt F. unfold updatePhysics. destruct (physicsEnabled w); cbn [negb].
  - destruct (collideAll _ _) as [bs|] eqn:Ec; [|discriminate].
    intros H.
    assert (bodies w' = bs) as -> by (destruct (existsb stillMoving bs);
                                      cbn in H; injection H as <-; reflexivity).
    destruct (map_move_energy dt (worldBoundsX w) (worldBoundsY w) (bodies w) F Hdt)
      as [ME MF].
    destruct (collideAll_energy _ _ _ MF Ec) as [CE CF]. split; [lra|exact CF].
  - intros H. injection H as <-. split; [lra|exact F].
Qed.

(** X23. Without a body held by the pointer the simulation never gains
    kinetic energy.  If no body is dragged and every body has a positive mass
    with [invMass = 1 / mass], then over any number of steps with a
    non-negative time step the total kinetic energy of translation does not
    increase: the move phase only damps velocities, wall bounces only flip a
    component, and the pair loop conserves the total exactly. *)
Theorem run_energy (n : nat) (dt : R) (w w' : World) :
  0 <= dt ->
  Forall freeBody (bodies w) ->
  run n dt w = Some w' ->
  totalEnergy (bodies w') <= totalEnergy (bodies w)
  /\ Forall freeBody (bodies w').
Proof.
  intros Hdt. revert w. induction n as [|n IH]; intros w F H.
  - injection H as <-. split; [lra|exact F].
  - cbn [run] in H. destruct (updatePhysics dt w) as [w1|] eqn:E; [|discriminate].
    destruct (updatePhysics_energy dt w w1 Hdt F E) as [E1 F1].
    destruct (IH w1 F1 H) as [E2 F2]. split; [lra|exact F2].
Qed.

Lemma crowdedWorld_proper : Forall proper (bodies crowdedWorld).
Proof.
  repeat constructor.
  - apply (rectLocal_solid 0.3 0.4). lra.
  - apply (rectLocal_solid 0.03 0.04). lra.
Qed.

Lemma run_energy_witness :
  exists w',
    run 1 fixedStep crowdedWorld = Some w'
    /\ totalEnergy (bodies w') <= totalEnergy (bodies crowdedWorld).
Proof.
  destruct (run 1 fixedStep crowdedWorld) as [w'|] eqn:E.
  - exists w'. split; [reflexivity|].
    refine (proj1 (run_energy 1 fixedStep crowdedWorld w' _ _ E)).
    + unfold fixedStep. lra.
    + repeat constructor; cbn; lra.
  - exfalso. destruct (run_total 1 fixedStep crowdedWorld crowdedWorld_proper) as [w' [E' _]].
    congruence.
Defined.

(** ** The closing loop of [createShapes] *)

Lemma kickBody_kicked (b : Body) (h : Z) : freshBody b -> kickedBody (fst (kickBody b h)).
Proof.
  intros (Hr & _ & _ & _ & _ & Hv & Hd).
  unfold kickBody, kickedBody. cbv zeta. simp_body. rewrite Hv. cbn [vx vy].
  rewrite (proj2 (Reqb_true 0 0)) by reflexivity. cbn [andb].
  set (s := 1.8 / (0.6 + Rmax 0.3 (boundingRadius b))).
  assert (Hs : 1 < s <= 2).
  { assert (Hm : 0.3 <= Rmax 0.3 (boundingRadius b) <= 1).
    { unfold Rmax. destruct (Rle_dec _ _); lra. }
    set (m := Rmax 0.3 (boundingRadius b)) in *. unfold s.
    assert (E : 1.8 = s * (0.6 + m)) by (unfold s; field; lra).
    fold s. nra. }
  unfold randomVelocity.
  pose proof (rngNext_unit h) as U1. destruct (rngNext h) as [r1 h1]. cbn [fst] in U1.
  pose proof (rngNext_unit h1) as U2. destruct (rngNext h1) as [r2 h2]. cbn [fst] in U2.
  rewrite spins_true.
  pose proof (rngNext_unit h2) as U3. destruct (rngNext h2) as [r3 h3]. cbn [fst] in U3.
  cbn [fst]. exists s. unfold speedOf. simp_body.
  split; [reflexivity|]. split; [reflexivity|]. split; [lra|].
  split; [|split; [|exact Hd]].
  - rewrite hypot_polar, Rabs_pos_eq by nra. nra.
  - apply Rabs_le. nra.
Qed.

Lemma kickBodies_kicked (bs : list Body) (h : Z) :
  Forall freshBody bs -> Forall kickedBody (fst (kickBodies bs h)).
Proof.
  revert h. induction bs as [|b l IH]; intros h H; [constructor|].
  inversion H as [|? ? Hb Hl]; subst. cbn [kickBodies].
  pose proof (kickBody_kicked b h Hb) as Kb.
  destruct (kickBody b h) as [b' h1]. cbn [fst] in Kb.
  pose proof (IH h1 Hl) as Kl.
  destruct (kickBodies l h1) as [l' h2]. cbn [fst] in *.
  constructor; assumption.
Qed.

Lemma createShapes_enabled (h : Z) (w : World) :
  physicsEnabled (world (createShapes h w)) = true.
Proof.
  destruct (createShapes_phases h w) as (st & _ & _ & _ & E & _). exact E.
Qed.

(** X24. A fresh composition is in motion.  When [createShapes] returns
    on an empty scene the simulation is switched on and every body has its
    speed scale set to 1.8 / (0.6 + max(0.3, r)) from its bounding radius r,
    a value above 1; its speed lies between 0.8 and 2 times the speed scale
    (so it exceeds the pause threshold 0.02), its spin is at most 0.44 times
    the speed scale, and it is not dragged. *)
Theorem createShapes_in_motion (h : Z) (w : World) :
  bodies w = [] ->
  physicsEnabled (world (createShapes h w)) = true
  /\ Forall kickedBody (bodies (world (createShapes h w)))
  /\ Forall (fun b => stillMoving b = true) (bodies (world (createShapes h w))).
Proof.
  intros Hw. split; [apply createShapes_enabled|].
  assert (K : Forall kickedBody (bodies (world (createShapes h w)))).
  { rewrite createShapes_bodies. apply kickBodies_kicked.
    eapply placedWith_fresh; [apply placeShapes_page|].
    cbn [world]. rewrite Hw. constructor. }
  split; [exact K|].
  revert K. generalize (bodies (world (createShapes h w))). intros bs K.
  eapply Forall_impl; [|exact K].
  intros b (s & _ & _ & Hs & Hv & _ & Hd). unfold stillMoving. cbv zeta.
  rewrite Hd. unfold speedOf in Hv.
  rewrite (proj2 (Rltb_true 0.02 _)) by lra. reflexivity.
Qed.

Lemma createShapes_in_motion_witness :
  Forall kickedBody (bodies (world (createShapes 0 initialWorld))).
Proof.
  exact (proj1 (proj2 (createShapes_in_motion 0 initialWorld eq_refl))).
Defined.

(** ** A rebuild depends on the seed and the bounds only *)

Lemma placeMesh_flag (ct : bool) (sh : Shape) (w : World) :
  placeMesh sh (withColorTransfer ct w)
  = (fst (placeMesh sh w), withColorTransfer ct (snd (placeMesh sh w))).
Proof.
  unfold placeMesh.
  change (bodies (withColorTransfer ct w)) with (bodies w).
  change (firstShapeOutside (withColorTransfer ct w)) with (firstShapeOutside w).
  change (thirdCircleCenter (withColorTransfer ct w)) with (thirdCircleCenter w).
  change (candidatesOf (withColorTransfer ct w)) with (candidatesOf w).
  change (selectBest (withColorTransfer ct w)) with (selectBest w).
  destruct (bodies w) as [|b0 l].
  - destruct (firstShapeOutside w (shBoundingRadius sh)); reflexivity.
  - destruct (thirdCircleCenter w sh); [reflexivity|].
    destruct (candidatesOf w sh); [reflexivity|].
    destruct (selectBest w _); reflexivity.
Qed.

Lemma draw_flag (ct : bool) (st : Build) :
  draw (liftColorTransfer ct st) = (fst (draw st), liftColorTransfer ct (snd (draw st))).
Proof. unfold draw. cbn [rng liftColorTransfer]. destruct (rngNext (rng st)). reflexivity. Qed.

Lemma randomColor_flag (ct : bool) (st : Build) :
  randomColor (liftColorTransfer ct st) = liftColorTransfer ct (randomColor st).
Proof.
  unfold randomColor. rewrite draw_flag. cbn [snd]. rewrite draw_flag. cbn [snd].
  rewrite draw_flag. cbn [snd]. reflexivity.
Qed.

Lemma takePresetIndex_flag (ct : bool) (st : Build) :
  takePresetIndex (liftColorTransfer ct st)
  = (fst (takePresetIndex st), liftColorTransfer ct (snd (takePresetIndex st))).
Proof.
  unfold takePresetIndex. cbn [availablePresetIndices liftColorTransfer].
  destruct (availablePresetIndices st) as [|x l] eqn:E; [reflexivity|].
  fold (liftColorTransfer ct st). rewrite draw_flag.
  destruct (draw st) as [r st1]. reflexivity.
Qed.

Lemma makeMaterialFromPreset_flag (ct : bool) (p : option PresetKind) (st : Build) :
  makeMaterialFromPreset p (liftColorTransfer ct st)
  = liftColorTransfer ct (makeMaterialFromPreset p st).
Proof. destruct p as [[|]|]; [reflexivity|reflexivity|apply randomColor_flag]. Qed.

Lemma triangleColors_flag (ct : bool) (p : option PresetKind) (st : Build) :
  triangleColors p (liftColorTransfer ct st) = liftColorTransfer ct (triangleColors p st).
Proof. destruct p as [[|]|]; [reflexivity|reflexivity|apply randomColor_flag]. Qed.

Lemma placeIn_flag (ct : bool) (sh : Shape) (st : Build) :
  placeIn sh (liftColorTransfer ct st)
  = (fst (placeIn sh st), liftColorTransfer ct (snd (placeIn sh st))).
Proof.
  unfold placeIn. cbn [world liftColorTransfer]. rewrite placeMesh_flag.
  destruct (placeMesh sh (world st)). reflexivity.
Qed.

Lemma tryRotations_flag (ct : bool) (mk : R -> Shape) (attempts : nat) (st : Build) :
  tryRotations attempts mk (liftColorTransfer ct st)
  = liftColorTransfer ct (tryRotations attempts mk st).
Proof.
  revert st. induction attempts as [|n IH]; intros st; [reflexivity|].
  cbn [tryRotations]. rewrite draw_flag. destruct (draw st) as [r st1]. cbn [fst snd].
  rewrite placeIn_flag. destruct (placeIn (mk (r * PI * 2)) st1) as [ok st2]. cbn [fst snd].
  destruct ok; [reflexivity|apply IH].
Qed.

Lemma addCircle_flag (ct : bool) (radius : R) (st : Build) :
  addCircle radius (liftColorTransfer ct st) = liftColorTransfer ct (addCircle radius st).
Proof.
  unfold addCircle. cbv zeta. rewrite takePresetIndex_flag.
  destruct (takePresetIndex st) as [i st1]. cbn [fst snd].
  rewrite makeMaterialFromPreset_flag, placeIn_flag. cbn [snd]. reflexivity.
Qed.

Lemma addRect_flag (ct : bool) (width height : R) (st : Build) :
  addRect width height (liftColorTransfer ct st)
  = liftColorTransfer ct (addRect width height st).
Proof.
  unfold addRect. cbv zeta. rewrite takePresetIndex_flag.
  destruct (takePresetIndex st) as [i st1]. cbn [fst snd].
  rewrite makeMaterialFromPreset_flag. apply tryRotations_flag.
Qed.

Lemma addSquare_flag (ct : bool) (size : R) (st : Build) :
  addSquare size (liftColorTransfer ct st) = liftColorTransfer ct (addSquare size st).
Proof. unfold addSquare. apply addRect_flag. Qed.

Lemma addTriangle_flag (ct : bool) (size : R) (st : Build) :
  addTriangle size (liftColorTransfer ct st) = liftColorTransfer ct (addTriangle size st).
Proof.
  unfold addTriangle. cbv zeta. rewrite takePresetIndex_flag.
  destruct (takePresetIndex st) as [i st1]. cbn [fst snd].
  rewrite triangleColors_flag. apply tryRotations_flag.
Qed.

Lemma placeShapes_flag (ct : bool) (st : Build) :
  placeShapes (liftColorTransfer ct st) = liftColorTransfer ct (placeShapes st).
Proof.
  unfold placeShapes. cbv zeta.
  rewrite (addCircle_flag ct 0.3 st).
  set (s1 := addCircle 0.3 st). rewrite (addSquare_flag ct 0.3 s1).
  set (s2 := addSquare 0.3 s1). rewrite (addTriangle_flag ct 0.3 s2).
  set (s3 := addTriangle 0.3 s2). rewrite (addRect_flag ct 1 0.2 s3).
  set (s4 := addRect 1 0.2 s3). rewrite (addCircle_flag ct 0.65 s4).
  set (s5 := addCircle 0.65 s4). rewrite (addSquare_flag ct 0.8 s5).
  set (s6 := addSquare 0.8 s5). rewrite (addRect_flag ct 1 0.4 s6).
  set (s7 := addRect 1 0.4 s6). rewrite (addTriangle_flag ct 1 s7).
  set (s8 := addTriangle 1 s7). rewrite (addCircle_flag ct 0.8 s8).
  set (s9 := addCircle 0.8 s8). rewrite (addSquare_flag ct 1.2 s9).
  reflexivity.
Qed.

Lemma createShapes_flag (ct : bool) (h : Z) (w : World) :
  world (createShapes h (withColorTransfer ct w))
  = withColorTransfer ct (world (createShapes h w)).
Proof.
  unfold createShapes. cbv zeta.
  change (mkBuild h (seq 0 (length COLOR_PRESETS)) (withColorTransfer ct w))
    with (liftColorTransfer ct (mkBuild h (seq 0 (length COLOR_PRESETS)) w)).
  rewrite placeShapes_flag.
  generalize (placeShapes (mkBuild h (seq 0 (length COLOR_PRESETS)) w)). intros st.
  cbn [world liftColorTransfer rng bodies setPhysicsEnabled withColorTransfer].
  destruct (kickBodies (bodies (world st)) (rng st)). reflexivity.
Qed.

Lemma createShapes_keeps (h : Z) (w : World) :
  physicsEnabled (world (createShapes h w)) = true
  /\ worldBoundsX (world (createShapes h w)) = worldBoundsX w
  /\ worldBoundsY (world (createShapes h w)) = worldBoundsY w
  /\ colorTransferEnabled (world (createShapes h w)) = colorTransferEnabled w.
Proof.
  destruct (createShapes_phases h w) as (st & Hp & _ & _ & E & Bx & By & Ct & _).
  destruct (placedFrom_frame _ _ Hp) as (Fx & Fy & Fc & _).
  split; [exact E|]. split; [congruence|]. split; congruence.
Qed.

(** X25. A rebuild is a function of the seed and the bounds.  On a page
    with a scene, [regenerateComposition] with the same seed in worlds with
    the same bounds produces the same array of bodies (identifiers, places,
    rotations, colours, velocities and spins), the same next identifier and a
    running simulation, whatever bodies, counter, simulation flag and colour
    flag the two worlds held before; the colour flag and the bounds of each
    world survive its rebuild.  In particular a rebuild with the seed and
    bounds of the first build reproduces the composition of [createScene]. *)
Theorem rebuild_deterministic (seed : string) (w1 w2 : World) :
  sceneRef w1 = true -> sceneRef w2 = true ->
  worldBoundsX w1 = worldBoundsX w2 -> worldBoundsY w1 = worldBoundsY w2 ->
  bodies (regenerateComposition seed w1) = bodies (regenerateComposition seed w2)
  /\ nextBodyId (regenerateComposition seed w1) = nextBodyId (regenerateComposition seed w2)
  /\ physicsEnabled (regenerateComposition seed w1) = true
  /\ colorTransferEnabled (regenerateComposition seed w1) = colorTransferEnabled w1
  /\ worldBoundsX (regenerateComposition seed w1) = worldBoundsX w1
  /\ worldBoundsY (regenerateComposition seed w1) = worldBoundsY w1
  /\ (forall halfWidth halfHeight,
        worldBoundsX w1 = halfWidth * 1.0 -> worldBoundsY w1 = halfHeight * 1.0 ->
        bodies (regenerateComposition seed w1)
        = bodies (createScene seed halfWidth halfHeight initialWorld)).
Proof.
  intros S1 S2 Bx By.
  assert (E : forall w, sceneRef w = true ->
                regenerateComposition seed w
                = withColorTransfer (colorTransferEnabled w)
                    (world (createShapes (Rng.createRng seed)
                              (mkWorld [] false 1%Z false (worldBoundsX w) (worldBoundsY w)
                                 true)))).
  { intros w Hs. unfold regenerateComposition. rewrite Hs. cbn [negb].
    rewrite <- createShapes_flag. reflexivity. }
  assert (C : forall halfWidth halfHeight,
                createScene seed halfWidth halfHeight initialWorld
                = world (createShapes (Rng.createRng seed)
                           (mkWorld [] false 1%Z false (halfWidth * 1.0) (halfHeight * 1.0)
                              true))) by reflexivity.
  rewrite (E w1 S1), (E w2 S2), <- Bx, <- By.
  destruct (createShapes_keeps (Rng.createRng seed)
              (mkWorld [] false 1%Z false (worldBoundsX w1) (worldBoundsY w1) true))
    as (K1 & K2 & K3 & _).
  cbn [worldBoundsX worldBoundsY] in K2, K3.
  assert (L : forall halfWidth halfHeight,
                worldBoundsX w1 = halfWidth * 1.0 -> worldBoundsY w1 = halfHeight * 1.0 ->
                bodies (world (createShapes (Rng.createRng seed)
                                 (mkWorld [] false 1%Z false (worldBoundsX w1)
                                    (worldBoundsY w1) true)))
                = bodies (createScene seed halfWidth halfHeight initialWorld)).
  { intros hw hh Hx Hy. rewrite C, <- Hx, <- Hy. reflexivity. }
  revert K1 K2 K3 L.
  generalize (world (createShapes (Rng.createRng seed)
                       (mkWorld [] false 1%Z false (worldBoundsX w1) (worldBoundsY w1)
                          true))).
  intros w K1 K2 K3 L.
  cbn [bodies nextBodyId physicsEnabled colorTransferEnabled worldBoundsX worldBoundsY
       withColorTransfer].
  split; [reflexivity|]. split; [reflexivity|].
  split; [exact K1|]. split; [reflexivity|]. split; [exact K2|]. split; [exact K3|].
  exact L.
Qed.

Lemma rebuild_deterministic_witness :
  bodies (regenerateComposition "a" crowdedWorld)
  = bodies (regenerateComposition "a" (onColorClick loneWorld)).
Proof.
  exact (proj1 (rebuild_deterministic "a" crowdedWorld (onColorClick loneWorld)
                  eq_refl eq_refl eq_refl eq_refl)).
Defined.

(** ** The grid scan *)

Lemma loopValues_exact (hi step : R) (n : nat) :
  forall (fuel : nat) (v : R),
    (n <= fuel)%nat ->
    hi < v + INR n * step ->
    (forall k, (k < n)%nat -> v + INR k * step <= hi) ->
    loopValues fuel v hi step = map (fun k => v + INR k * step) (seq 0 n).
Proof.
  induction n as [|n IH]; intros fuel v Hf Hend Hin.
  - cbn [seq map]. cbn [INR] in Hend.
    destruct fuel; [reflexivity|]. cbn [loopValues].
    rewrite (proj2 (Rleb_false v hi)) by lra. reflexivity.
  - destruct fuel as [|fuel]; [lia|]. cbn [loopValues].
    assert (H0 : v <= hi).
    { pose proof (Hin O ltac:(lia)) as H. cbn [INR] in H. lra. }
    rewrite (proj2 (Rleb_true v hi)) by exact H0.
    rewrite (IH fuel (v + step)).
    + cbn [seq map]. f_equal; [cbn [INR]; lra|].
      rewrite <- seq_shift, map_map. apply map_ext. intros k. rewrite S_INR. lra.
    + lia.
    + rewrite S_INR in Hend. lra.
    + intros k Hk. pose proof (Hin (S k) ltac:(lia)) as H. rewrite S_INR in H. lra.
Qed.

Lemma loopBound_ends (lo hi step : R) :
  0 < step ->
  hi < lo + INR (loopBound lo hi step) * step
  /\ forall k, (k < loopBound lo hi step)%nat -> lo + INR k * step <= hi.
Proof.
  intros Hs. unfold loopBound. destruct (lo <=? hi) eqn:E; bools.
  - set (x := (hi - lo) / step).
    assert (Hx : 0 <= x) by (apply Rmult_le_pos; [lra|apply Rlt_le, Rinv_0_lt_compat, Hs]).
    assert (Ex : hi - lo = x * step) by (unfold x; field; lra).
    pose proof (floor_bounds x) as F.
    assert (Hge : (0 <= floor x)%Z).
    { apply Z.lt_succ_r. apply lt_IZR. rewrite succ_IZR. lra. }
    assert (En : INR (Z.to_nat (floor x)) = IZR (floor x)).
    { rewrite INR_IZR_INZ, Z2Nat.id by exact Hge. reflexivity. }
    split.
    + rewrite S_INR, En. nra.
    + intros k Hk. assert (Hk' : INR k <= INR (Z.to_nat (floor x))) by (apply le_INR; lia).
      rewrite En in Hk'. nra.
  - split; [cbn [INR]; lra|]. intros k Hk. lia.
Qed.

Lemma gridValues_ends (lo hi step : R) :
  0 < step ->
  forall fuel, (loopBound lo hi step <= fuel)%nat ->
               loopValues fuel lo hi step = gridValues lo hi step.
Proof.
  intros Hs fuel Hf. destruct (loopBound_ends lo hi step Hs) as [Hend Hin].
  unfold gridValues.
  rewrite (loopValues_exact hi step (loopBound lo hi step) fuel lo Hf Hend Hin).
  rewrite (loopValues_exact hi step (loopBound lo hi step) _ lo (le_n _) Hend Hin).
  reflexivity.
Qed.

Lemma gridValues_range (lo hi step x : R) :
  0 < step -> In x (gridValues lo hi step) -> lo <= x <= hi.
Proof.
  intros Hs Hx. destruct (loopBound_ends lo hi step Hs) as [Hend Hin].
  unfold gridValues in Hx.
  rewrite (loopValues_exact hi step (loopBound lo hi step) _ lo (le_n _) Hend Hin) in Hx.
  apply in_map_iff in Hx. destruct Hx as [k [<- Hk]].
  apply in_seq in Hk. split; [|apply Hin; lia].
  pose proof (pos_INR k). nra.
Qed.

Lemma gridValues_first (lo hi step : R) : lo <= hi -> In lo (gridValues lo hi step).
Proof.
  intros H. unfold gridValues, loopBound.
  rewrite (proj2 (Rleb_true lo hi)) by exact H. cbn [loopValues].
  rewrite (proj2 (Rleb_true lo hi)) by exact H. left. reflexivity.
Qed.

Lemma gridValues_none (lo hi step : R) : hi < lo -> gridValues lo hi step = [].
Proof.
  intros H. unfold gridValues, loopBound.
  rewrite (proj2 (Rleb_false lo hi)) by lra. reflexivity.
Qed.

(** X26. The grid scan.  For a shape with a positive contact radius
    the two counting loops of the grid scan end by their own conditions.
    Every candidate the scan pushes is the result of [evaluateCandidate] at
    its own centre, and that centre keeps the contact circle inside the
    visible area: [|x| <= worldBoundsX - contactRadius] and
    [|y| <= worldBoundsY - contactRadius].  The first point of the grid, the
    corner [(-worldBoundsX + contactRadius, -worldBoundsY + contactRadius)],
    is among the candidates whenever [evaluateCandidate] accepts it and the
    area is at least as wide and as high as the contact circle; when the area
    is narrower or lower than the contact circle the scan pushes nothing. *)
Theorem gridScan_spec (w : World) (sh : Shape) :
  0 < shContactRadius sh ->
  (forall lo hi, exists n, forall fuel,
      (n <= fuel)%nat ->
      loopValues fuel lo hi (shContactRadius sh * 0.6)
      = gridValues lo hi (shContactRadius sh * 0.6))
  /\ (forall c, In c (gridScan w sh) ->
        evaluateCandidate w sh (cx c) (cy c) = Some c
        /\ Rabs (cx c) <= worldBoundsX w - shContactRadius sh
        /\ Rabs (cy c) <= worldBoundsY w - shContactRadius sh)
  /\ (forall c,
        shContactRadius sh <= worldBoundsX w -> shContactRadius sh <= worldBoundsY w ->
        evaluateCandidate w sh (- worldBoundsX w + shContactRadius sh)
                               (- worldBoundsY w + shContactRadius sh) = Some c ->
        In c (gridScan w sh))
  /\ (worldBoundsX w < shContactRadius sh \/ worldBoundsY w < shContactRadius sh ->
      gridScan w sh = []).
Proof.
  intros Hr.
  assert (Hs : 0 < shContactRadius sh * 0.6) by lra.
  set (r := shContactRadius sh) in *.
  split; [|split; [|split]].
  - intros lo hi. exists (loopBound lo hi (r * 0.6)). apply gridValues_ends. exact Hs.
  - intros c Hc. unfold gridScan in Hc. cbv zeta in Hc. fold r in Hc.
    apply in_flat_map in Hc. destruct Hc as (y & Hy & Hc).
    apply in_flat_map in Hc. destruct Hc as (x & Hx & Hc).
    apply pushIf_in in Hc.
    destruct (evaluateCandidate_ok _ _ _ _ _ Hc) as (Ex & Ey & _).
    apply gridValues_range in Hx, Hy; try exact Hs.
    rewrite Ex, Ey. split; [exact Hc|]. split; apply Rabs_le; lra.
  - intros c Hx Hy Hc. unfold gridScan. cbv zeta. fold r.
    apply in_flat_map. exists (- worldBoundsY w + r).
    split; [apply gridValues_first; lra|].
    apply in_flat_map. exists (- worldBoundsX w + r).
    split; [apply gridValues_first; lra|].
    rewrite Hc. left. reflexivity.
  - intros H. unfold gridScan. cbv zeta. fold r.
    destruct (Rlt_dec (worldBoundsY w) r) as [Hy|Hy].
    + rewrite (gridValues_none (- worldBoundsY w + r)) by lra. reflexivity.
    + destruct H as [Hx|Hy']; [|contradiction].
      rewrite (gridValues_none (- worldBoundsX w + r)) by lra.
      induction (gridValues _ _ _); [reflexivity|cbn; exact IHl].
Qed.

Lemma gridScan_spec_witness :
  Forall (fun c =>
            evaluateCandidate twoCircles thirdCircle (cx c) (cy c) = Some c
            /\ Rabs (cx c) <= worldBoundsX twoCircles - shContactRadius thirdCircle
            /\ Rabs (cy c) <= worldBoundsY twoCircles - shContactRadius thirdCircle)
         (gridScan twoCircles thirdCircle).
Proof.
  apply Forall_forall.
  refine (proj1 (proj2 (gridScan_spec twoCircles thirdCircle _))).
  unfold shContactRadius, thirdCircle. cbn. lra.
Defined.

(** ** Placement keeps every vertex inside the bounds *)

Lemma transformed_within (v : Vec) (px py rot r : R) :
  hypot (vx v) (vy v) <= r ->
  Rabs (vx v * cos rot - vy v * sin rot) <= r
  /\ Rabs (vx v * sin rot + vy v * cos rot) <= r.
Proof.
  intros H.
  assert (Hc : cos rot * cos rot + sin rot * sin rot = 1).
  { pose proof (sin2_cos2 rot) as E. unfold Rsqr in E. lra. }
  pose proof (rotated_dot_bound (vx v) (vy v) (cos rot) (sin rot) 1 0 Hc ltac:(lra)) as H1.
  pose proof (rotated_dot_bound (vx v) (vy v) (cos rot) (sin rot) 0 1 Hc ltac:(lra)) as H2.
  rewrite Rmult_1_r, Rmult_0_r, Rplus_0_r in H1.
  rewrite Rmult_1_r, Rmult_0_r, Rplus_0_l in H2. lra.
Qed.

Lemma insideBounds_center (sh : Shape) (x y bx by_ : R) :
  Forall (fun v => hypot (vx v) (vy v) <= shBoundingRadius sh) (shLocalVerts sh) ->
  Rabs x + shBoundingRadius sh <= bx -> Rabs y + shBoundingRadius sh <= by_ ->
  insideBounds bx by_ (bodyAt sh x y).
Proof.
  intros Hv Hx Hy. unfold insideBounds, getWorldVertices, transformVerts, bodyAt.
  cbv zeta. simp_body. apply Forall_forall. intros p Hp.
  apply in_map_iff in Hp. destruct Hp as [v [<- Hin]]. cbn [vx vy].
  rewrite Forall_forall in Hv.
  destruct (transformed_within v x y (meshRot sh) _ (Hv v Hin)) as [T1 T2].
  split; (eapply Rle_trans; [apply Rabs_triang|]); lra.
Qed.

Lemma outsideBounds_false (w : World) (margin : R) (v : Vec) :
  0 <= margin -> outsideBounds w margin v = false ->
  Rabs (vx v) <= worldBoundsX w /\ Rabs (vy v) <= worldBoundsY w.
Proof.
  intros Hm H. unfold outsideBounds in H. bools. split; apply Rabs_le; lra.
Qed.

Lemma evaluateCandidate_inside (w : World) (sh : Shape) (x y : R) (c : Candidate) :
  evaluateCandidate w sh x y = Some c ->
  insideBounds (worldBoundsX w) (worldBoundsY w) (bodyAt sh x y).
Proof.
  unfold evaluateCandidate. cbv zeta.
  destruct (existsb (outsideBounds w 0.001) _) eqn:Eo; [discriminate|]. intros _.
  unfold insideBounds, getWorldVertices, bodyAt. simp_body.
  apply Forall_forall. intros v Hv.
  apply (outsideBounds_false w 0.001); [lra|].
  destruct (outsideBounds w 0.001 v) eqn:E; [|reflexivity].
  assert (existsb (outsideBounds w 0.001)
            (transformVerts (shLocalVerts sh) x y (meshRot sh)) = true) as C
    by (apply existsb_exists; exists v; auto).
  congruence.
Qed.

Lemma placeMesh_inside (sh : Shape) (w : World) :
  pageShape sh ->
  Forall (insideBounds (worldBoundsX w) (worldBoundsY w)) (bodies w) ->
  Forall (insideBounds (worldBoundsX w) (worldBoundsY w)) (bodies (snd (placeMesh sh w))).
Proof.
  intros (Hr & _ & Hv & Hc) Hw.
  assert (Reg : forall x y,
            insideBounds (worldBoundsX w) (worldBoundsY w) (bodyAt sh x y) ->
            Forall (insideBounds (worldBoundsX w) (worldBoundsY w))
              (bodies (addBodyEntry (bodyAt sh x y) w))).
  { intros x y H. unfold addBodyEntry. cbn [bodies]. apply Forall_app.
    split; [exact Hw|]. constructor; [exact H|constructor]. }
  unfold placeMesh. destruct (bodies w) as [|b0 rest] eqn:Eb.
  - destruct (firstShapeOutside w _) eqn:Ef; cbn [snd]; [rewrite Eb; constructor|].
    apply Reg. unfold firstShapeOutside in Ef. bools.
    apply insideBounds_center; [exact Hv| |]; rewrite Rabs_R0; lra.
  - destruct (thirdCircleCenter w sh) as [p|] eqn:Et; cbn [snd].
    + apply Reg. unfold thirdCircleCenter in Et. rewrite Eb in Et.
      destruct rest as [|b1 [|b2 rest]]; try discriminate.
      destruct (isCircle (shType sh) && isCircle (shapeType b0) && isCircle (shapeType b1))
        eqn:Ec; [|discriminate].
      apply andb_true_iff in Ec. destruct Ec as [Ec _].
      apply andb_true_iff in Ec. destruct Ec as [Cs _].
      assert (Hty : shType sh = circle) by (destruct (shType sh); try discriminate; reflexivity).
      apply find_some in Et. destruct Et as [_ Hok].
      unfold tangentCenterOk in Hok. cbv zeta in Hok.
      match type of Hok with (if ?c then _ else _) = _ => destruct c eqn:Eo end;
        [discriminate|].
      bools. pose proof (Hc Hty) as Hcr.
      apply insideBounds_center; [exact Hv| |]; unfold Rabs; destruct (Rcase_abs _); lra.
    + destruct (candidatesOf w sh) as [|c0 cs] eqn:Ecs; cbn [snd]; [rewrite Eb; exact Hw|].
      destruct (selectBest w (c0 :: cs)) as [best|] eqn:Es; cbn [snd];
        [|rewrite Eb; exact Hw].
      apply Reg. apply selectBest_in in Es. rewrite <- Ecs in Es.
      apply candidatesOf_evaluated in Es. destruct Es as [x [y Ev]].
      pose proof (evaluateCandidate_ok _ _ _ _ _ Ev) as (Ex & Ey & _).
      rewrite Ex, Ey. eapply evaluateCandidate_inside, Ev.
Qed.

Lemma placedWith_inside (w w' : World) :
  placedWith pageShape w w' ->
  Forall (insideBounds (worldBoundsX w) (worldBoundsY w)) (bodies w) ->
  Forall (insideBounds (worldBoundsX w) (worldBoundsY w)) (bodies w')
  /\ worldBoundsX w' = worldBoundsX w /\ worldBoundsY w' = worldBoundsY w.
Proof.
  intros H Hw. induction H as [|w1 sh H IH Hs]; [auto|].
  destruct IH as (I & Bx & By).
  destruct (placeMesh_frame sh w1) as (Fx & Fy & _). cbv zeta in Fx, Fy.
  split; [|split; congruence].
  rewrite <- Bx, <- By. apply placeMesh_inside; [exact Hs|]. rewrite Bx, By. exact I.
Qed.

Lemma samePlacement_inside (bx by_ : R) (b b' : Body) :
  samePlacement b b' -> insideBounds bx by_ b -> insideBounds bx by_ b'.
Proof.
  unfold samePlacement, insideBounds, getWorldVertices.
  intros (_ & -> & -> & -> & -> & _) H. exact H.
Qed.

(** X27. The placement phase never puts a vertex outside the visible
    area.  After [createShapes] on an empty scene every vertex of every body
    lies within the world bounds, whichever of the three routes of
    [placeMesh] (first shape at the origin, third circle tangent to two
    circles, candidate search) placed the body. *)
Theorem createShapes_inside (h : Z) (w : World) :
  bodies w = [] ->
  Forall (insideBounds (worldBoundsX w) (worldBoundsY w))
    (bodies (world (createShapes h w)))
  /\ worldBoundsX (world (createShapes h w)) = worldBoundsX w
  /\ worldBoundsY (world (createShapes h w)) = worldBoundsY w.
Proof.
  intros Hw.
  destruct (createShapes_keeps h w) as (_ & Kx & Ky & _).
  split; [|split; assumption].
  rewrite createShapes_bodies.
  destruct (placedWith_inside _ _ (placeShapes_page (mkBuild h (seq 0 (length COLOR_PRESETS)) w)))
    as (I & _).
  { cbn [world]. rewrite Hw. constructor. }
  cbn [world] in I. revert I.
  generalize (placeShapes (mkBuild h (seq 0 (length COLOR_PRESETS)) w)). intros st I.
  pose proof (kickBodies_placement (bodies (world st)) (rng st)) as F.
  revert I. induction F as [|b b' l l' Hb _ IH]; intros I; [constructor|].
  inversion I; subst. constructor; [eapply samePlacement_inside; eassumption|].
  apply IH. assumption.
Qed.

Lemma createShapes_inside_witness :
  Forall (insideBounds 4 2.2) (bodies (world (createShapes 0 initialWorld))).
Proof.
  exact (proj1 (createShapes_inside 0 initialWorld eq_refl)).
Defined.

(** ** The separating-axis test sees relative placement only *)

Lemma edgeAxis_translate (t : Vec) (V : list Vec) (i : nat) :
  (i < length V)%nat -> edgeAxis (translate t V) i = edgeAxis V i.
Proof.
  intros Hi. unfold edgeAxis, translate. cbv zeta. rewrite length_map.
  set (j := ((i + 1) mod length V)%nat).
  assert (Hj : (j < length V)%nat) by (apply Nat.mod_upper_bound; lia).
  set (f := fun v : Vec => mkVec (vx v + vx t) (vy v + vy t)).
  rewrite (@nth_indep _ (map f V) i (mkVec 0 0) (f (mkVec 0 0)))
    by (rewrite length_map; exact Hi).
  rewrite (@nth_indep _ (map f V) j (mkVec 0 0) (f (mkVec 0 0)))
    by (rewrite length_map; exact Hj).
  rewrite !map_nth. unfold f. cbn [vx vy].
  set (vi := nth i V (mkVec 0 0)). set (vj := nth j V (mkVec 0 0)).
  replace (vx vj + vx t - (vx vi + vx t)) with (vx vj - vx vi) by ring.
  replace (vy vj + vy t - (vy vi + vy t)) with (vy vj - vy vi) by ring.
  reflexivity.
Qed.

Lemma projectOntoAxis_translate (t axis : Vec) (V : list Vec) :
  projectOntoAxis (translate t V) axis
  = match projectOntoAxis V axis with
    | Some (mn, mx) => Some (mn + dot t axis, mx + dot t axis)
    | None => None
    end.
Proof.
  unfold projectOntoAxis, translate.
  set (sh := fun acc : option (R * R) =>
               match acc with
               | Some (mn, mx) => Some (mn + dot t axis, mx + dot t axis)
               | None => None
               end).
  change (fold_left (projStep axis) (map (fun v => mkVec (vx v + vx t) (vy v + vy t)) V)
            (sh None) = sh (fold_left (projStep axis) V None)).
  generalize (@None (R * R)). induction V as [|v l IH]; intros acc; [reflexivity|].
  cbn [map fold_left]. rewrite <- IH. f_equal.
  unfold projStep, sh, dot. cbv zeta. cbn [vx vy].
  set (p := vx v * vx axis + vy v * vy axis).
  set (d := vx t * vx axis + vy t * vy axis).
  replace ((vx v + vx t) * vx axis + (vy v + vy t) * vy axis) with (p + d)
    by (unfold p, d; ring).
  destruct acc as [[mn mx]|]; [|reflexivity].
  f_equal. f_equal.
  - destruct (p <? mn) eqn:E1, (p + d <? mn + d) eqn:E2; bools; try reflexivity; lra.
  - destruct (p >? mx) eqn:E1, (p + d >? mx + d) eqn:E2; bools; try reflexivity; lra.
Qed.

Lemma overlapOn_translate (t axis : Vec) (A B : list Vec) :
  overlapIntervals (projectOntoAxis (translate t A) axis)
                   (projectOntoAxis (translate t B) axis)
  = overlapIntervals (projectOntoAxis A axis) (projectOntoAxis B axis).
Proof.
  rewrite !projectOntoAxis_translate.
  destruct (projectOntoAxis A axis) as [[a1 a2]|], (projectOntoAxis B axis) as [[b1 b2]|];
    try reflexivity.
  unfold overlapIntervals. f_equal. unfold Rmin, Rmax.
  repeat destruct (Rle_dec _ _); lra.
Qed.

Lemma checkAxesFrom_translate (t : Vec) (A B V : list Vec) (idxs : list nat) (best : Best) :
  Forall (fun i => (i < length V)%nat) idxs ->
  checkAxesFrom (translate t A) (translate t B) (translate t V) idxs best
  = checkAxesFrom A B V idxs best.
Proof.
  intros F. revert best. induction F as [|i l Hi _ IH]; intros best; [reflexivity|].
  cbn [checkAxesFrom]. rewrite edgeAxis_translate by exact Hi.
  destruct (edgeAxis V i) as [axis|]; [|apply IH].
  rewrite overlapOn_translate.
  destruct (overlapIntervals _ _) as [o|]; [|reflexivity].
  destruct (o <=? 0); [reflexivity|apply IH].
Qed.

Lemma checkAxes_translate (t : Vec) (A B V : list Vec) (best : Best) :
  checkAxes (translate t A) (translate t B) (translate t V) best = checkAxes A B V best.
Proof.
  unfold checkAxes. replace (length (translate t V)) with (length V)
    by (unfold translate; rewrite length_map; reflexivity).
  apply checkAxesFrom_translate. apply Forall_forall. intros i Hi.
  apply in_seq in Hi. lia.
Qed.

Lemma getWorldVertices_moved (b : Body) (tx ty : R) :
  getWorldVertices (setPos b (posX b + tx) (posY b + ty))
  = translate (mkVec tx ty) (getWorldVertices b).
Proof.
  unfold getWorldVertices, transformVerts, translate. simp_body. cbv zeta.
  rewrite map_map. apply map_ext. intros v. cbn [vx vy]. f_equal; ring.
Qed.

(** X28. The separating-axis test sees relative placement only.  Moving
    both polygons by the same vector changes neither the verdict nor the
    reported normal and depth; in particular the contact found between two
    bodies is the same wherever in the world the pair sits. *)
Theorem polygonPolygonSAT_translation (t : Vec) (A B : list Vec) :
  polygonPolygonSAT (translate t A) (translate t B) = polygonPolygonSAT A B
  /\ forall a b : Body,
       polygonPolygonSAT
         (getWorldVertices (setPos a (posX a + vx t) (posY a + vy t)))
         (getWorldVertices (setPos b (posX b + vx t) (posY b + vy t)))
       = polygonPolygonSAT (getWorldVertices a) (getWorldVertices b).
Proof.
  assert (E : forall X Y, polygonPolygonSAT (translate t X) (translate t Y)
                          = polygonPolygonSAT X Y).
  { intros X Y. unfold polygonPolygonSAT. rewrite checkAxes_translate.
    destruct (checkAxes X Y X None) as [best1|]; [|reflexivity].
    rewrite checkAxes_translate. reflexivity. }
  split; [apply E|].
  intros a b. rewrite !getWorldVertices_moved.
  destruct t as [tx ty]. apply E.
Qed.

(** ** Nudging a body towards another *)

Lemma clampBodyToWorld_id (w : World) (b : Body) :
  Rabs (posX b) <= worldBoundsX w - boundingRadius b ->
  Rabs (posY b) <= worldBoundsY w - boundingRadius b ->
  clampBodyToWorld w b = setPos b (posX b) (posY b).
Proof.
  intros Ax Ay. apply Rabs_bound in Ax, Ay.
  unfold clampBodyToWorld. cbv zeta. rewrite !clamp_id by lra. reflexivity.
Qed.

(** X29. [gentlyNudgeBodyToward] never overshoots.  The call returns
    false exactly when the centres are closer than 1e-5, and then, as when the
    body is already within the desired distance, the body is left as it is.
    The desired distance (the two support radii along the line of centres,
    less 5% of the smaller) is never negative.  Otherwise the body moves along
    that line by [min(dist - desired, maxStep)]: when the new position needs
    no clamping, the distance of the centres shrinks by exactly that step and
    stays at or above the desired distance, and the velocity is scaled by 0.3.
    Nothing static changes in any case. *)
Theorem gentlyNudge_step (w : World) (body target : Body) (maxStep : R) :
  let dx := posX target - posX body in
  let dy := posY target - posY body in
  let dist := hypot dx dy in
  let radiusSelf := getSupportRadius body (dx / dist) (dy / dist) in
  let radiusTarget := getSupportRadius target (- (dx / dist)) (- (dy / dist)) in
  let desired := radiusSelf + radiusTarget - Rmin radiusSelf radiusTarget * 0.05 in
  let r := gentlyNudgeBodyToward w body target maxStep in
  sameStatic body (snd r)
  /\ (fst r = false <-> dist < 1e-5)
  /\ (dist < 1e-5 \/ dist <= desired -> snd r = body)
  /\ 0 <= desired
  /\ (1e-5 <= dist -> desired < dist -> 0 <= maxStep ->
      let step := Rmin (dist - desired) maxStep in
      Rabs (posX body + dx / dist * step) <= worldBoundsX w - boundingRadius body ->
      Rabs (posY body + dy / dist * step) <= worldBoundsY w - boundingRadius body ->
      hypot (posX target - posX (snd r)) (posY target - posY (snd r)) = dist - step
      /\ desired <= dist - step
      /\ velocity (snd r) = scaleVec (velocity body) 0.3).
Proof.
  intros dx dy dist radiusSelf radiusTarget desired r.
  assert (Hrs : 0 <= radiusSelf) by apply getSupportRadius_nonneg.
  assert (Hrt : 0 <= radiusTarget) by apply getSupportRadius_nonneg.
  assert (Hdes : 0 <= desired).
  { unfold desired, Rmin. destruct (Rle_dec _ _); lra. }
  assert (Er : r = if dist <? 1e-5 then (false, body)
                   else if dist - desired <=? 0 then (true, body)
                   else
                     let step := Rmin (dist - desired) maxStep in
                     let b2 := clampBodyToWorld w
                                 (setPos body (posX body + dx / dist * step)
                                    (posY body + dy / dist * step)) in
                     (true, setVelocity b2 (scaleVec (velocity b2) 0.3))) by reflexivity.
  clearbody r. subst r.
  destruct (dist <? 1e-5) eqn:E1.
  - bools. cbn [fst snd]. split; [apply sameStatic_refl|]. split; [tauto|].
    split; [reflexivity|]. split; [exact Hdes|]. intros; lra.
  - bools. destruct (dist - desired <=? 0) eqn:E2.
    + bools. cbn [fst snd]. split; [apply sameStatic_refl|].
      split; [split; [discriminate|lra]|]. split; [reflexivity|].
      split; [exact Hdes|]. intros; lra.
    + bools. cbv zeta. cbn [fst snd].
      split; [unfold sameStatic, clampBodyToWorld; cbn; repeat split; reflexivity|].
      split; [split; [discriminate|lra]|]. split; [intros [H|H]; lra|].
      split; [exact Hdes|].
      intros _ _ Hm Cx Cy.
      set (step := Rmin (dist - desired) maxStep) in *.
      assert (Hstep : 0 <= step <= dist - desired).
      { unfold step, Rmin. destruct (Rle_dec _ _); lra. }
      rewrite clampBodyToWorld_id by (simp_body; assumption).
      simp_body.
      set (k := 1 - step / dist).
      assert (Hs : step / dist * dist = step) by (field; lra).
      assert (Hk : 0 <= k).
      { unfold k. assert (step / dist <= 1); [|lra].
        apply Rmult_le_reg_r with dist; [lra|]. rewrite Hs. lra. }
      split; [|split; [lra|reflexivity]].
      replace (posX target - (posX body + dx / dist * step)) with (dx * k)
        by (unfold k, dx; field; lra).
      replace (posY target - (posY body + dy / dist * step)) with (dy * k)
        by (unfold k, dy; field; lra).
      rewrite hypot_scale by exact Hk. fold dist. unfold k. field. lra.
Qed.

(** The support radius of an unrotated rectangle along the x axis is its
    half-width. *)
Lemma getSupportRadius_box (b : Body) (hw hh dirX : R) :
  rotZ b = 0 -> localVerts b = rectLocal hw hh -> 0 < hw ->
  dirX = 1 \/ dirX = -1 ->
  getSupportRadius b dirX 0 = hw.
Proof.
  intros Hrot Hv Hw Hd. rewrite getSupportRadius_local, Hrot, Hv, cos_0, sin_0.
  unfold rectLocal. cbn [fold_left vx vy]. cbv zeta.
  repeat match goal with
         | |- context [Rabs ?e] =>
             replace (Rabs e) with hw
               by (destruct Hd as [-> | ->]; unfold Rabs; destruct (Rcase_abs _); lra)
         end.
  rewrite (proj2 (Rltb_true 0 hw)) by lra. cbv iota.
  repeat (rewrite (proj2 (Rltb_false hw hw)) by lra; cbv iota). reflexivity.
Qed.

(** The big box is nudged towards the far box by the full step 0.1: the
    centres, 1 apart, end 0.9 apart. *)
Lemma gentlyNudge_step_witness :
  hypot (posX farBox - posX (snd (gentlyNudgeBodyToward crowdedWorld bigBox farBox 0.1)))
        (posY farBox - posY (snd (gentlyNudgeBodyToward crowdedWorld bigBox farBox 0.1)))
  = 0.9.
Proof.
  assert (Ed : hypot (posX farBox - posX bigBox) (posY farBox - posY bigBox) = 1).
  { cbn [farBox bigBox smallBox setPos posX posY]. apply hypot_unique; lra. }
  assert (Ex : posX farBox - posX bigBox = 1) by (cbn; lra).
  assert (Ey : posY farBox - posY bigBox = 0) by (cbn; lra).
  assert (Es : getSupportRadius bigBox (1 / 1) (0 / 1) = 0.3).
  { replace (0 / 1) with 0 by lra.
    apply (getSupportRadius_box bigBox 0.3 0.4); try reflexivity; lra. }
  assert (Et : getSupportRadius farBox (- (1 / 1)) (- (0 / 1)) = 0.03).
  { replace (- (0 / 1)) with 0 by lra.
    apply (getSupportRadius_box farBox 0.03 0.04); try reflexivity; lra. }
  assert (Em : Rmin 0.3 0.03 = 0.03) by (unfold Rmin; destruct (Rle_dec _ _); lra).
  assert (Est : Rmin (1 - (0.3 + 0.03 - 0.03 * 0.05)) 0.1 = 0.1)
    by (unfold Rmin; destruct (Rle_dec _ _); lra).
  pose proof (proj2 (proj2 (proj2 (proj2
                (gentlyNudge_step crowdedWorld bigBox farBox 0.1))))) as H.
  cbv zeta in H. rewrite Ed, Ex, Ey, Es, Et, Em, Est in H.
  destruct H as (H & _).
  - lra.
  - lra.
  - lra.
  - cbn [bigBox posX boundingRadius crowdedWorld worldBoundsX]. apply Rabs_le. lra.
  - cbn [bigBox posY boundingRadius crowdedWorld worldBoundsY]. apply Rabs_le. lra.
  - rewrite H. lra.
Defined.

(** ** The selection among candidates *)

Lemma ext_le_refl (e : ExtR) : ext_le e e.
Proof.
  unfold ext_le. destruct e as [r|]; cbn; [apply Rltb_false; lra|reflexivity].
Qed.

Lemma ext_le_trans (e1 e2 e3 : ExtR) : ext_le e1 e2 -> ext_le e2 e3 -> ext_le e1 e3.
Proof.
  unfold ext_le. destruct e1 as [a|], e2 as [b|], e3 as [c|]; cbn; intros H1 H2;
    try reflexivity; try discriminate.
  bools. apply Rltb_false. lra.
Qed.

Lemma ext_ltb_le (e1 e2 : ExtR) : ext_ltb e1 e2 = true -> ext_le e1 e2.
Proof.
  unfold ext_le. destruct e1 as [a|], e2 as [b|]; cbn; intros H;
    try reflexivity; try discriminate.
  bools. apply Rltb_false. lra.
Qed.

(** The loop over the candidates with at least [required] contacts: the
    running best score only goes down, and ends no larger than the score of
    any qualifying candidate. *)
Lemma selectStep_least (required : nat) (cs : list Candidate) :
  forall acc,
    let res := fold_left (selectStep required) cs acc in
    ext_le (snd res) (snd acc)
    /\ (forall c, In c cs -> (required <= contacts c)%nat -> ext_le (snd res) (score c))
    /\ ((fst res = fst acc /\ snd res = snd acc)
        \/ exists c, In c cs /\ (required <= contacts c)%nat
                     /\ fst res = Some c /\ snd res = score c
                     /\ ext_ltb (score c) (snd acc) = true).
Proof.
  induction cs as [|c0 rest IH]; intros acc; cbv zeta.
  - cbn [fold_left]. split; [apply ext_le_refl|]. split; [intros c []|]. left. tauto.
  - cbn [fold_left]. destruct (IH (selectStep required acc c0)) as (I1 & I2 & I3).
    cbv zeta in I1, I2, I3.
    set (res := fold_left (selectStep required) rest (selectStep required acc c0)) in *.
    assert (Hstep : ext_le (snd (selectStep required acc c0)) (snd acc)
                    /\ ((required <= contacts c0)%nat ->
                        ext_le (snd (selectStep required acc c0)) (score c0))
                    /\ (selectStep required acc c0 = acc
                        \/ ((required <= contacts c0)%nat
                            /\ selectStep required acc c0 = (Some c0, score c0)
                            /\ ext_ltb (score c0) (snd acc) = true))).
    { unfold selectStep. destruct (contacts c0 <? required)%nat eqn:Ec.
      - apply Nat.ltb_lt in Ec. split; [apply ext_le_refl|]. split; [lia|]. left. reflexivity.
      - apply Nat.ltb_ge in Ec. destruct (ext_ltb (score c0) (snd acc)) eqn:El.
        + cbn [snd]. split; [apply ext_ltb_le, El|]. split; [intros _; apply ext_le_refl|].
          right. auto.
        + split; [apply ext_le_refl|]. split; [intros _; exact El|]. left. reflexivity. }
    destruct Hstep as (S1 & S2 & S3).
    split; [eapply ext_le_trans; eassumption|]. split.
    + intros c [<-|Hc] Hr; [eapply ext_le_trans; [exact I1|apply S2, Hr]|apply I2; assumption].
    + destruct I3 as [[F1 F2]|(c & Hin & Hr & F1 & F2 & F3)].
      * destruct S3 as [E|(Hr & E & El)].
        -- left. rewrite F1, F2, E. tauto.
        -- right. exists c0. rewrite F1, F2, E. cbn [fst snd].
           split; [left; reflexivity|]. auto.
      * right. exists c. split; [right; exact Hin|]. split; [exact Hr|].
        split; [exact F1|]. split; [exact F2|].
        destruct (ext_ltb (score c) (snd acc)) eqn:El; [reflexivity|].
        exfalso. clear - F3 S1 El. unfold ext_le in S1.
        destruct (score c) as [a|], (snd acc) as [b|],
                 (snd (selectStep required acc c0)) as [m|];
          cbn in F3, S1, El; try discriminate; bools; lra.
Qed.

(** X30. Which candidate [placeMesh] selects.  The selected candidate
    is one of the candidates and has a finite score.  If some candidate with
    at least the required number of contacts (2 when there are at least two
    bodies and some candidate touches two, else 1) has a finite score, the
    selected one has at least that many contacts and the least score among
    the candidates that do; the fallback over all candidates is used only when
    none qualifies, and then the selected one has the least score of all.
    Nothing is selected exactly when every candidate has an infinite score. *)
Theorem selectBest_least (w : World) (cs : list Candidate) :
  let required := requiredContactsOf w cs in
  (forall c, selectBest w cs = Some c ->
     In c cs
     /\ (exists s, score c = Fin s)
     /\ ((required <= contacts c)%nat ->
         forall c', In c' cs -> (required <= contacts c')%nat -> ext_le (score c) (score c'))
     /\ ((contacts c < required)%nat ->
         (forall c', In c' cs -> (required <= contacts c')%nat -> score c' = Infinity)
         /\ forall c', In c' cs -> ext_le (score c) (score c')))
  /\ (selectBest w cs = None <-> forall c, In c cs -> score c = Infinity).
Proof.
  intros required. unfold selectBest, requiredContactsOf in *. cbv zeta. fold required.
  destruct (selectStep_least required cs (None, Infinity)) as (_ & A2 & A3).
  cbv zeta in A2, A3. cbn [fst snd] in A3.
  set (first := fold_left (selectStep required) cs (None, Infinity)) in *.
  assert (Inf : forall e, ext_le Infinity e -> e = Infinity).
  { intros [a|] H; [discriminate H|reflexivity]. }
  assert (Fin_lt : forall e e', ext_ltb e e' = true -> exists s, e = Fin s).
  { intros [a|] e' H; [eexists; reflexivity|discriminate H]. }
  destruct A3 as [[F1 F2]|(c1 & Hin1 & Hr1 & F1 & F2 & F3)].
  - rewrite F1.
    destruct (selectStep_least 0 cs first) as (_ & B2 & B3).
    cbv zeta in B2, B3. rewrite F1, F2 in B3.
    assert (Q : forall c', In c' cs -> (required <= contacts c')%nat -> score c' = Infinity).
    { intros c' Hc Hr. apply Inf. rewrite <- F2. apply A2; assumption. }
    destruct B3 as [[G1 G2]|(c2 & Hin2 & _ & G1 & G2 & G3)].
    + rewrite G1. split; [intros c H; discriminate H|].
      split; [intros _ c Hc|reflexivity].
      apply Inf. rewrite <- G2. apply B2; [exact Hc|lia].
    + rewrite G1. split.
      * intros c H. injection H as <-. split; [exact Hin2|].
        split; [eapply Fin_lt, G3|]. split.
        -- intros Hr. pose proof (Q c2 Hin2 Hr) as E. rewrite E in G3. discriminate G3.
        -- intros _. split; [exact Q|]. intros c' Hc. rewrite <- G2. apply B2; [exact Hc|lia].
      * split; [discriminate|]. intros H. rewrite (H c2 Hin2) in G3. discriminate G3.
  - rewrite F1. split.
    + intros c H. injection H as <-. split; [exact Hin1|].
      split; [eapply Fin_lt, F3|]. split.
      * intros _ c' Hc Hr. rewrite <- F2. apply A2; assumption.
      * intros Hlt. lia.
    + split; [discriminate|]. intros H. rewrite (H c1 Hin1) in F3. discriminate F3.
Qed.

Lemma selectBest_least_witness :
  selectBest twoCircles [oneContact; twoContacts] = Some twoContacts.
Proof.
  destruct (selectBest twoCircles [oneContact; twoContacts]) as [c|] eqn:E.
  - destruct (proj1 (selectBest_least twoCircles [oneContact; twoContacts]) c E)
      as (Hin & _ & _ & Hfall).
    destruct Hin as [<-|[<-|[]]]; [|reflexivity].
    exfalso. destruct (Hfall ltac:(cbn; lia)) as [Hq _].
    specialize (Hq twoContacts ltac:(cbn; tauto) ltac:(cbn; lia)). discriminate Hq.
  - exfalso.
    pose proof (proj1 (proj2 (selectBest_least twoCircles [oneContact; twoContacts])) E
                  oneContact ltac:(cbn; tauto)) as H.
    discriminate H.
Defined.
